(** * Continual-learning training scheduler: [train_cl] of train.py

    A shallow embedding of the per-task / per-iteration training loop of
    [train_cl] and of its sample-curation subsystem, together with the
    properties the specification states about them.

    Conventions.
    - Python exceptions are values of [error]; fallible code returns a
      [result].
    - Tensors are lists; a 2-D tensor is a [matrix] that carries its column
      count, so that an empty batch still has a width.  Tensor entries are
      kept abstract ([arith], [tensor_ops]); floating-point rounding is not modelled.
    - The model, the generator and the data loader are collaborators that
      train.py only calls; they appear as parameters.
    - Random choices (loader shuffles, [np.random.shuffle]) are oracles. *)

From Stdlib Require Import ZArith Lia Permutation Reals Lra Ascii String.
From stdpp Require Import gmap strings list fin_maps.

(* ===================================================================== *)
(** * Part I: the embedding *)
(* ===================================================================== *)

(** ** Exceptions and fallible results *)

Inductive error :=
| StopIteration      (* next() on an exhausted iterator *)
| UnboundLocalError  (* a local read before it was assigned *)
| IndexError
| TypeError
| KeyError
| AttributeError
| RuntimeError.      (* torch: shape mismatch, empty reduction, x % 0 *)

Inductive result (A : Type) :=
| Ok (a : A)
| Err (e : error).
Arguments Ok {A} a.
Arguments Err {A} e.

#[global] Instance result_ret : MRet result := λ A a, Ok a.
#[global] Instance result_bind : MBind result :=
  λ A B f m, match m with Ok a => f a | Err e => Err e end.
#[global] Instance result_fmap : FMap result :=
  λ A B f m, match m with Ok a => Ok (f a) | Err e => Err e end.

Definition is_ok {A} (r : result A) : bool :=
  match r with Ok _ => true | Err _ => false end.

(** [int(np.ceil(a / b))] for non-negative integers [a] and positive [b]. *)
Definition ceil_div (a b : nat) : nat :=
  if a `mod` b =? 0 then a `div` b else S (a `div` b).

(** ** Task Iterator Manager (train.py lines 122-123, 179-218) *)

Module TaskIterator.
Section Loader.
Context {X : Type}.

(** A dataset is a list of (input, label) pairs. *)
Definition sample : Type := X * Z.
Definition batch : Type := list X * list Z.

(** The loader's reshuffle: [shuffle i k ds] is the order in which the
    [k]-th loader built for loader slot [i] visits [ds]. *)
Variable shuffle : nat → nat → list sample → list sample.

Fixpoint batches (bs : nat) (l : list sample) (n : nat) : list (list sample) :=
  match n with
  | 0 => []
  | S n' => take bs l :: batches bs (drop bs l) n'
  end.

(** An iterator over a data loader: the batches not yet served, and the
    loader's length ([len(data_loader)], the total number of batches). *)
Record loader := Loader { remaining : list (list sample); n_batches : nat }.

(** Modelled from the spec: [utils.get_data_loader(dataset, batch_size,
    drop_last=True)] wrapped in [iter] is not part of train.py.  Per the
    Dataset-provider contract it yields shuffled batches of [batch_size]
    samples and, with drop_last, has [len(dataset) // batch_size] of them. *)
Definition get_data_loader (slot k : nat) (ds : list sample) (batch_size : nat)
  : loader :=
  let n := length ds `div` batch_size in
  Loader (batches batch_size (shuffle slot k ds) n) n.

(** Per-loader cursor: [iters_left], the loader in use (None while unbound or
    [None] in the list of loaders), and how many loaders were built so far. *)
Record iter_state := IterState {
  iters_left : Z;
  data_loader : option loader;
  rebuilds : nat
}.

(** Line 123: [iters_left = 1] at the start of each task. *)
Definition task_start (dl : option loader) (k : nat) : iter_state :=
  IterState 1 dl k.

(** Lines 183-186 and 191-196: decrement, rebuild when the count hits 0. *)
Definition refresh (slot : nat) (ds : list sample) (batch_size : nat)
    (s : iter_state) : iter_state :=
  let il := (iters_left s - 1)%Z in
  if (il =? 0)%Z then
    let dl := get_data_loader slot (rebuilds s) ds batch_size in
    IterState (Z.of_nat (n_batches dl)) (Some dl) (S (rebuilds s))
  else IterState il (data_loader s) (rebuilds s).

(** [next(data_loader)] *)
Definition next_batch (s : iter_state) : result (list sample * iter_state) :=
  match data_loader s with
  | None => Err TypeError
  | Some dl =>
      match remaining dl with
      | [] => Err StopIteration
      | b :: rest =>
          Ok (b, IterState (iters_left s) (Some (Loader rest (n_batches dl)))
                           (rebuilds s))
      end
  end.

(** [y - shift] on a collated batch. *)
Definition collate (shift : Z) (b : list sample) : batch :=
  (b.*1, (λ y, (y - shift)%Z) <$> b.*2).

(** One iteration in the single-active-task mode (lines 182-186, 203-206). *)
Definition fetch_single (scenario_is_task : bool) (classes_per_task task : nat)
    (train_dataset : list sample) (batch_size : nat) (s : iter_state)
  : result (batch * iter_state) :=
  let s1 := refresh (task - 1) train_dataset batch_size s in
  '(b, s2) ← next_batch s1;
  let shift := if scenario_is_task
               then (Z.of_nat classes_per_task * (Z.of_nat task - 1))%Z
               else 0%Z in
  mret (collate shift b, s2).

(** One iteration in the offline Task-IL mode (lines 188-196, 209-218):
    all cursors are refreshed first, then one batch is drawn per task. *)
Definition batch_size_to_use (batch_size task : nat) : nat :=
  ceil_div batch_size task.

Definition refresh_all (train_datasets : list (list sample))
    (batch_size task : nat) (ss : list iter_state) : list iter_state :=
  imap (λ task_id s,
          refresh task_id (default [] (train_datasets !! task_id))
                  (batch_size_to_use batch_size task) s) ss.

Definition fetch_offline (classes_per_task : nat)
    (train_datasets : list (list sample)) (batch_size task : nat)
    (ss : list iter_state) : result (list batch * list iter_state) :=
  let ss1 := refresh_all train_datasets batch_size task ss in
  r ← mapM (λ '(task_id, s),
             '(b, s') ← next_batch s;
             mret (collate (Z.of_nat classes_per_task * Z.of_nat task_id)%Z b, s'))
           (imap (λ task_id s, (task_id, s)) ss1);
  mret (r.*1, r.*2).

(** The iterations of one task, as far as the cursors are concerned. *)
Fixpoint run_single (scenario_is_task : bool) (classes_per_task task : nat)
    (train_dataset : list sample) (batch_size : nat)
    (n : nat) (s : iter_state) : result (list batch * iter_state) :=
  match n with
  | 0 => mret ([], s)
  | S n' =>
      '(b, s1) ← fetch_single scenario_is_task classes_per_task task
                              train_dataset batch_size s;
      '(bs, s2) ← run_single scenario_is_task classes_per_task task
                             train_dataset batch_size n' s1;
      mret (b :: bs, s2)
  end.

Fixpoint run_offline (classes_per_task : nat)
    (train_datasets : list (list sample)) (batch_size task : nat)
    (n : nat) (ss : list iter_state)
  : result (list (list batch) * list iter_state) :=
  match n with
  | 0 => mret ([], ss)
  | S n' =>
      '(b, ss1) ← fetch_offline classes_per_task train_datasets batch_size task ss;
      '(bs, ss2) ← run_offline classes_per_task train_datasets batch_size task n' ss1;
      mret (b :: bs, ss2)
  end.

(** Lines 118-123 in offline Task-IL mode: [data_loader = [None]*task],
    [iters_left = [1]*task]. *)
Definition offline_task_start (task : nat) (ks : list nat) : list iter_state :=
  (λ task_id, task_start None (default 0 (ks !! task_id))) <$> seq 0 task.

(** *** Where a cursor stands *)

(** The batches of the [k]-th loader built for a slot. *)
Definition all_batches (slot : nat) (ds : list sample) (bs : nat) (k : nat)
  : list (list sample) :=
  batches bs (shuffle slot k ds) (length ds `div` bs).

(** [cursor_at slot ds bs g s]: the cursor [s] is where it stands after [g]
    batches were served by loaders of [L = len(ds) // bs] batches each. *)
Definition cursor_at (slot : nat) (ds : list sample) (bs : nat)
    (g : nat) (s : iter_state) : Prop :=
  let L := length ds `div` bs in
  rebuilds s = (g + L - 1) `div` L
  ∧ iters_left s = (if g `mod` L =? 0 then 1%Z
                    else (Z.of_nat (L - g `mod` L) + 1)%Z)
  ∧ (g `mod` L ≠ 0 →
     data_loader s
     = Some (Loader (drop (g `mod` L) (all_batches slot ds bs (g `div` L))) L)).

(** All cursors of the offline mode stand where they are after [g]
    iterations of the task; [ks] gives how many loaders each slot had built
    when the task started. *)
Definition cursors_at (train_datasets : list (list sample))
    (batch_size task : nat) (ks : list nat) (g : nat) (ss : list iter_state)
  : Prop :=
  let bsu := batch_size_to_use batch_size task in
  length ss = task
  ∧ ∀ task_id s, ss !! task_id = Some s →
      let ds := default [] (train_datasets !! task_id) in
      cursor_at task_id ds bsu
        (default 0 (ks !! task_id) * (length ds `div` bsu) + g) s.

End Loader.
End TaskIterator.

(** ** Task-conditioned generation (train.py lines 242-252) *)

Module Conditional.
Section Generate.
Context {X : Type}.

(** [previous_generator.sample(n, allowed_classes=..., only_x=False)]:
    inputs, labels, task ids. *)
Variable sample : nat → list nat → list X * list nat * list nat.

Definition allowed_classes_of (classes_per_task task_id : nat) : list nat :=
  seq (classes_per_task * task_id) classes_per_task.

Definition batch_size_replay_to_use (batch_size_replay task : nat) : nat :=
  ceil_div batch_size_replay (task - 1).

(** The requests issued by the loop over [range(task-1)]. *)
Definition requests (classes_per_task batch_size_replay task : nat)
  : list (nat * list nat) :=
  (λ task_id, (batch_size_replay_to_use batch_size_replay task,
               allowed_classes_of classes_per_task task_id))
    <$> seq 0 (task - 1).

(** [x_] and [task_used] as the lists built by the loop. *)
Definition generate (classes_per_task batch_size_replay task : nat)
  : list (list X) * list (list nat) :=
  let outs := (λ r, sample r.1 r.2) <$>
                requests classes_per_task batch_size_replay task in
  ((λ o, o.1.1) <$> outs, (λ o, o.2) <$> outs).

Definition total_generated (x_ : list (list X)) : nat :=
  sum_list (length <$> x_).
End Generate.
End Conditional.

(** ** Configuration surface *)

Inductive sample_method :=
| sm_random | sm_uniform | sm_softmax
| sm_curated | sm_curated_softmax | sm_curated_variety | sm_curated_classVariety
| sm_interfered | sm_misclassified | sm_uniform_large | sm_random_large.

#[global] Instance sample_method_eq_dec : EqDecision sample_method.
Proof. solve_decision. Defined.

Inductive scenario := sc_task | sc_domain | sc_class.

#[global] Instance scenario_eq_dec : EqDecision scenario.
Proof. solve_decision. Defined.

Inductive replay_mode := rm_none | rm_current | rm_offline | rm_generative.

#[global] Instance replay_mode_eq_dec : EqDecision replay_mode.
Proof. solve_decision. Defined.

(** The sample methods that reach the curation code (the final [else] of the
    dispatch at lines 262-290). *)
Definition curation_scored (sm : sample_method) : bool :=
  match sm with
  | sm_random | sm_uniform | sm_softmax => false
  | _ => true
  end.

(** [v[j]] on a tensor or list, raising IndexError out of range. *)
Definition index {A} (v : list A) (j : nat) : result A :=
  match v !! j with Some a => Ok a | None => Err IndexError end.

(** ** Curation Engine, selection (train.py lines 408-434) *)

Module Selection.
Section Select.
Context {T X : Type}.
(** [leb a b]: [a <= b] on metric values. *)
Variable leb : T → T → bool.
(** [np.random.shuffle] *)
Variable shuffle : list nat → list nat.

(** [torch.sort(metric, descending=True)[1]], ties kept in original order. *)
Fixpoint insert_desc (p : nat * T) (l : list (nat * T)) : list (nat * T) :=
  match l with
  | [] => [p]
  | q :: l' => if leb q.2 p.2 then p :: l else q :: insert_desc p l'
  end.

Definition argsort_desc (metric : list T) : list nat :=
  (foldr insert_desc [] (imap pair metric)).*1.

(** [torch.arange(batch_size_replay) % len(allowed_classes)] *)
Definition uniform_dist (batch_size_replay n : nat) : list nat :=
  (λ i, i `mod` n) <$> seq 0 batch_size_replay.

(** [torch.unique(t, return_counts=True)[1]]: the number of occurrences of
    each distinct value of [t], by ascending value. *)
Definition unique_counts (t : list nat) : list nat :=
  let values := filter (λ v, v ∈ t) (seq 0 (S (max_list t))) in
  (λ v, length (filter (λ w, w = v) t)) <$> values.

(** [indices[y_used[indices]==i]] *)
Definition masked (indices labels : list nat) (i : nat) : list nat :=
  (filter (λ p, p.2 = i) (zip indices labels)).*1.

Definition ranked (sm : sample_method) (metric : list T) : list nat :=
  let indices := argsort_desc metric in
  if bool_decide (sm = sm_uniform_large ∨ sm = sm_random_large)
  then shuffle indices else indices.

Definition select_indices (sm : sample_method) (metric : list T)
    (y_used : list nat) (batch_size_replay : nat)
    (allowed_classes : option (list nat)) : result (list nat) :=
  let indices := ranked sm metric in
  if bool_decide (sm ≠ sm_random_large ∧ sm ≠ sm_curated_softmax) then
    match allowed_classes with
    | None => Err TypeError                       (* len(None) *)
    | Some ac =>
        let n := length ac in
        if n =? 0 then Err RuntimeError else      (* arange(..) % 0 *)
        let counts_each_class :=
          unique_counts (uniform_dist batch_size_replay n) in
        labels ← mapM (index y_used) indices;
        per_class ← mapM (λ i, k ← index counts_each_class i;
                               mret (take k (masked indices labels i)))
                         (seq 0 n);
        mret (concat per_class)
    end
  else mret indices.

(** The new [x_]: [x_[indices_to_replay]] or [x_[indices]]. *)
Definition select (sm : sample_method) (x_ : list X) (metric : list T)
    (y_used : list nat) (batch_size_replay : nat)
    (allowed_classes : option (list nat)) : result (list X) :=
  idx ← select_indices sm metric y_used batch_size_replay allowed_classes;
  mapM (index x_) idx.

(** Number of selected candidates that carry label [i]. *)
Definition class_count (y_used : list nat) (idx : list nat) (i : nat) : nat :=
  length (filter (λ j, y_used !! j = Some i) idx).

(** The per-class quota: occurrences of [i] in [arange(B) % n]. *)
Definition quota (batch_size_replay n i : nat) : nat :=
  length (filter (λ w, w = i) (uniform_dist batch_size_replay n)).
End Select.

(** "count within +-1 of replay_size / num_allowed_classes", over the
  rationals: |c - B/n| <= 1  iff  |n*c - B| <= n. *)
Definition within_one (c batch_size_replay n : nat) : Prop :=
(Z.abs (Z.of_nat n * Z.of_nat c - Z.of_nat batch_size_replay) ≤ Z.of_nat n)%Z.
End Selection.

(** ** Tensors *)

(** Arithmetic on tensor entries. *)
Record arith (T : Type) := Arith {
  a_zero : T;
  a_one : T;
  a_add : T → T → T;
  a_sub : T → T → T;
  a_mul : T → T → T;
  a_neg : T → T;
  a_leb : T → T → bool
}.
Arguments Arith {T}.
Arguments a_zero {T}. Arguments a_one {T}. Arguments a_add {T}.
Arguments a_sub {T}. Arguments a_mul {T}. Arguments a_neg {T}.
Arguments a_leb {T}.

(** Entry arithmetic together with the torch functions the loop calls. *)
Record tensor_ops (T : Type) := TensorOps {
  t_arith : arith T;
  t_softmax : list T → list T;          (* nn.Softmax along one vector *)
  t_cross_entropy : list T → nat → T;   (* CrossEntropyLoss(reduction='none'), one row *)
  t_kl_div : T → T → T;                 (* KLDivLoss(reduction='none'), one entry *)
  t_mean : list T → T
}.
Arguments TensorOps {T}.
Arguments t_arith {T}.
Arguments t_softmax {T}. Arguments t_cross_entropy {T}.
Arguments t_kl_div {T}. Arguments t_mean {T}.

Definition t_zero {T} (ops : tensor_ops T) : T := a_zero (t_arith ops).
Definition t_one {T} (ops : tensor_ops T) : T := a_one (t_arith ops).
Definition t_add {T} (ops : tensor_ops T) : T → T → T := a_add (t_arith ops).
Definition t_sub {T} (ops : tensor_ops T) : T → T → T := a_sub (t_arith ops).
Definition t_mul {T} (ops : tensor_ops T) : T → T → T := a_mul (t_arith ops).
Definition t_leb {T} (ops : tensor_ops T) : T → T → bool := a_leb (t_arith ops).

(** A 2-D tensor of shape (length rows, ncols). *)
Record matrix (T : Type) := Matrix { ncols : nat; rows : list (list T) }.
Arguments Matrix {T}. Arguments ncols {T}. Arguments rows {T}.

Definition wf_matrix {T} (m : matrix T) : Prop :=
  Forall (λ r, length r = ncols m) (rows m).

Definition nrows {T} (m : matrix T) : nat := length (rows m).

(** [m[i, j]] *)
Definition entry {T} (m : matrix T) (i j : nat) : option T :=
  r ← rows m !! i; r !! j.

(** [m[:, :k]] *)
Definition slice_cols {T} (k : nat) (m : matrix T) : matrix T :=
  Matrix (k `min` ncols m) (take k <$> rows m).

(** [m[:, a:b]] *)
Definition slice_range {T} (a b : nat) (m : matrix T) : matrix T :=
  Matrix ((b `min` ncols m) - a) ((λ r, drop a (take b r)) <$> rows m).

(** [torch.zeros_like(m)] *)
Definition zeros_like {T} (zero : T) (m : matrix T) : matrix T :=
  Matrix (ncols m) ((λ _, replicate (ncols m) zero) <$> rows m).

(** [dst[:, :k] = src]; the right-hand side must have the shape of the
    slice (broadcasting of singleton dimensions is not modelled). *)
Definition assign_cols {T} (dst : matrix T) (k : nat) (src : matrix T)
  : result (matrix T) :=
  if bool_decide (nrows src = nrows dst ∧ ncols src = k `min` ncols dst)
  then Ok (Matrix (ncols dst) (zip_with (λ d s, s ++ drop k d) (rows dst) (rows src)))
  else Err RuntimeError.

(** Elementwise binary operation on two 1-D tensors of equal length. *)
Definition ew {T} (f : T → T → T) (a b : list T) : result (list T) :=
  if length a =? length b then Ok (zip_with f a b) else Err RuntimeError.

(** Arguments of replay data that is absent, one tensor, or a list with one
    tensor per previous task. *)
Inductive replay_data (A : Type) :=
| RNone
| RTensor (a : A)
| RList (l : list A).
Arguments RNone {A}. Arguments RTensor {A} a. Arguments RList {A} l.

(** [active_classes]: None, one list per task so far, or one flat list. *)
Inductive active :=
| ActiveNone
| ActivePerTask (l : list (list nat))
| ActiveFlat (l : list nat).

(** Lines 135-142. *)
Definition active_classes_of (sc : scenario) (classes_per_task task : nat) : active :=
  match sc with
  | sc_task => ActivePerTask ((λ i, seq (classes_per_task * i) classes_per_task)
                                <$> seq 0 task)
  | sc_class => ActiveFlat (seq 0 (classes_per_task * task))
  | sc_domain => ActiveNone
  end.

(** [(1. if task==1 else 1./task) if rnt is None else rnt] *)
Inductive rnt_value (T : Type) :=
| RntGiven (r : T)
| RntOne
| RntInverse (task : nat).
Arguments RntGiven {T} r. Arguments RntOne {T}. Arguments RntInverse {T} task.

Definition rnt_of {T} (rnt : option T) (task : nat) : rnt_value T :=
  match rnt with
  | Some r => RntGiven r
  | None => if task =? 1 then RntOne else RntInverse task
  end.

(** The keyword arguments of [train_a_batch]. *)
Record train_args (T Input : Type) := TrainArgs {
  arg_x : option (list Input);
  arg_y : option (list Z);
  arg_x_ : replay_data (list Input);
  arg_y_ : replay_data (list nat);
  arg_scores_ : replay_data (matrix T);
  arg_tasks_ : replay_data (list nat);
  arg_active_classes : active;
  arg_task : nat;
  arg_rnt : rnt_value T;
  arg_freeze_convE : bool;
  arg_replay_not_hidden : bool
}.
Arguments TrainArgs {T Input}.

(** ** Curation Engine, scoring (train.py lines 331-406) *)

Module Curation.
Section Engine.
Context {T Input MS : Type}.
Variable ops : tensor_ops T.

(** The model's methods, as functions of the state of the object they are
    called on.  A forward pass returns the scores and the state it leaves
    the object in; a training step returns the updated state. *)
Variable classify_fn : MS → list Input → bool → matrix T * MS.
Variable train_a_batch_fn : MS → train_args T Input → MS.
Variable shuffle : list nat → list nat.

(** Objects live in a store; [model], [previous_model] and [model_tmp] are
    references into it. *)
Definition M (A : Type) : Type := gmap nat MS → result A * gmap nat MS.

Definition ret {A} (a : A) : M A := λ σ, (Ok a, σ).
Definition bind {A B} (m : M A) (f : A → M B) : M B :=
  λ σ, match m σ with
       | (Ok a, σ') => f a σ'
       | (Err e, σ') => (Err e, σ')
       end.
Definition lift {A} (r : result A) : M A := λ σ, (r, σ).

(** [obj.classify(x_, not_hidden=...)] *)
Definition classify (obj : nat) (x_ : list Input) (not_hidden : bool)
  : M (matrix T) :=
  λ σ, match σ !! obj with
       | Some m => let '(s, m') := classify_fn m x_ not_hidden in
                   (Ok s, <[obj := m']> σ)
       | None => (Err AttributeError, σ)
       end.

(** [copy.deepcopy(obj)]: a new object with a copy of the state. *)
Definition deepcopy (obj : nat) : M nat :=
  λ σ, match σ !! obj with
       | Some m => let l := fresh (dom σ) in (Ok l, <[l := m]> σ)
       | None => (Err AttributeError, σ)
       end.

(** [obj.train_a_batch(...)] updates [obj] in place. *)
Definition train_a_batch (obj : nat) (a : train_args T Input) : M unit :=
  λ σ, match σ !! obj with
       | Some m => (Ok (), <[obj := train_a_batch_fn m a]> σ)
       | None => (Err AttributeError, σ)
       end.

Definition softmax_rows (m : matrix T) : matrix T :=
  Matrix (ncols m) (t_softmax ops <$> rows m).

(** [nn.CrossEntropyLoss(reduction='none')(scores, y_used)] *)
Definition cross_entropy (scores : matrix T) (y_used : list nat)
  : result (list T) :=
  if nrows scores =? length y_used then
    mapM (λ '(r, y), if y <? length r then Ok (t_cross_entropy ops r y)
                     else Err IndexError)
         (zip (rows scores) y_used)
  else Err RuntimeError.

(** Lines 333-340. *)
Definition score_old (model : nat) (x_ : list Input) (y_used : list nat)
    (classes_per_task task : nat) (Generative : bool)
  : M (matrix T * list T) :=
  let curTaskID := (Z.of_nat task - 2)%Z in
  bind (classify model x_ (if Generative then false else true)) (λ newScores_og,
  let newScores :=
    slice_cols (Z.to_nat (Z.of_nat classes_per_task * (curTaskID + 1))) newScores_og in
  let scores_old := softmax_rows newScores in
  bind (lift (cross_entropy scores_old y_used)) (λ loss_old,
  ret (scores_old, loss_old))).

(** Lines 344-350: the update on a copy, with no replayed data. *)
Definition forget_step (model : nat) (x : option (list Input)) (y : option (list Z))
    (task_used : replay_data (list nat)) (active_classes : active)
    (task : nat) (rnt : option T) (freeze_convE Generative : bool) : M nat :=
  bind (deepcopy model) (λ model_tmp,
  bind (train_a_batch model_tmp
          (TrainArgs x y RNone RNone RNone task_used active_classes task
                     (rnt_of rnt task) freeze_convE
                     (if Generative then false else true))) (λ _,
  ret model_tmp)).

(** Lines 354-358. *)
Definition score_new (model_tmp : nat) (x_ : list Input)
    (classes_per_task task : nat) (Generative : bool) : M (matrix T) :=
  let curTaskID := (Z.of_nat task - 2)%Z in
  bind (classify model_tmp x_ (if Generative then false else true)) (λ newScores_og,
  let newScores :=
    slice_cols (Z.to_nat (Z.of_nat classes_per_task * (curTaskID + 2))) newScores_og in
  ret (softmax_rows newScores)).

(** Lines 391-392. *)
Definition pad_scores (scores_old scores_new : matrix T) : result (matrix T) :=
  let padded_scores := zeros_like (t_zero ops) scores_new in
  assign_cols padded_scores (ncols scores_old) scores_old.

(** [torch.mean(KLDivLoss(reduction='none')(a, b), dim=1)] *)
Definition kl_div_mean (a b : matrix T) : result (list T) :=
  if bool_decide (nrows a = nrows b ∧ ncols a = ncols b)
  then Ok (zip_with (λ ra rb, t_mean ops (zip_with (t_kl_div ops) ra rb))
                    (rows a) (rows b))
  else Err RuntimeError.

Definition scale (c : T) (v : list T) : list T := t_mul ops c <$> v.

(** A name that is only bound on some paths. *)
Definition bound {A} (v : option A) : result A :=
  match v with Some a => Ok a | None => Err UnboundLocalError end.

(** [scores_new[:, -1]] *)
Definition last_col (m : matrix T) : result (list T) :=
  mapM (λ r, match last r with Some a => Ok a | None => Err IndexError end)
       (rows m).

(** Lines 361-406. *)
Definition compute_metric (sm : sample_method) (scores_old scores_new : matrix T)
    (loss_old : list T) (y_used : list nat) (varietyVector : option (list T))
    (variety_weight mir_coef : T) : result (list T) :=
  let w := variety_weight in
  match sm with
  | sm_curated | sm_curated_softmax =>
      loss_new ← cross_entropy scores_new y_used;
      ew (t_sub ops) loss_new loss_old
  | sm_curated_variety | sm_curated_classVariety =>
      loss_new ← cross_entropy scores_new y_used;
      diff ← ew (t_sub ops) loss_new loss_old;
      let diff_softmax := t_softmax ops diff in
      vv ← bound varietyVector;
      let variety_softmax := t_softmax ops vv in
      ew (t_add ops) (scale (t_sub ops (t_one ops) w) diff_softmax)
                     (scale w variety_softmax)
  | sm_interfered =>
      padded_scores ← pad_scores scores_old scores_new;
      kl_div ← kl_div_mean padded_scores scores_new;
      vv ← bound varietyVector;
      let variety_softmax := t_softmax ops vv in
      mir_loss ← ew (t_sub ops) kl_div (scale mir_coef loss_old);
      ew (t_add ops) (scale (t_sub ops (t_one ops) w) mir_loss)
                     (scale w variety_softmax)
  | sm_misclassified | sm_uniform_large | sm_random_large =>
      c ← last_col scores_new;
      ew (t_add ops) c c
  | _ => Err UnboundLocalError
  end.

(** What the curation block leaves in the local variables. *)
Record curated := Curated {
  cur_loss_old : list T;
  cur_metric : list T;
  cur_x_ : list Input
}.

(** Lines 331-434. *)
Definition curation (sm : sample_method) (model : nat)
    (x : option (list Input)) (y : option (list Z))
    (x_ : list Input) (y_used : list nat) (task_used : replay_data (list nat))
    (varietyVector : option (list T)) (active_classes : active)
    (classes_per_task task : nat) (rnt : option T)
    (freeze_convE Generative : bool) (batch_size_replay : nat)
    (allowed_classes : option (list nat)) (variety_weight mir_coef : T)
  : M curated :=
  bind (score_old model x_ y_used classes_per_task task Generative)
    (λ '(scores_old, loss_old),
  bind (forget_step model x y task_used active_classes task rnt
                    freeze_convE Generative) (λ model_tmp,
  bind (score_new model_tmp x_ classes_per_task task Generative) (λ scores_new,
  bind (lift (compute_metric sm scores_old scores_new loss_old y_used
                             varietyVector variety_weight mir_coef)) (λ metric,
  bind (lift (Selection.select (t_leb ops) shuffle sm x_ metric y_used
                               batch_size_replay allowed_classes)) (λ x_new,
  ret (Curated loss_old metric x_new)))))).
(** *** What the block computes, by the state of the object scored *)

(** The scores the block computes first, as a function of the state [m] of
    the object it scores with. *)
Definition scores_old_of (m : MS) (x_ : list Input)
    (classes_per_task task : nat) (Generative : bool) : matrix T :=
  softmax_rows
    (slice_cols (Z.to_nat (Z.of_nat classes_per_task * (Z.of_nat task - 2 + 1)))
                (classify_fn m x_ (if Generative then false else true)).1).

(** The arguments of the update on the copy: no replay data. *)
Definition forget_args (x : option (list Input)) (y : option (list Z))
    (task_used : replay_data (list nat)) (active_classes : active)
    (task : nat) (rnt : option T) (freeze_convE Generative : bool)
  : train_args T Input :=
  TrainArgs x y RNone RNone RNone task_used active_classes task
            (rnt_of rnt task) freeze_convE (if Generative then false else true).

(** State of the copy once the block is through with it. *)
Definition clone_state (m : MS) (x_ : list Input) (a : train_args T Input)
    (Generative : bool) : MS :=
  let nh := if Generative then false else true in
  (classify_fn (train_a_batch_fn (classify_fn m x_ nh).2 a) x_ nh).2.
End Engine.
End Curation.

(** ** Replay Sampler: what is asked of the generator (train.py lines 254-329) *)

Module ReplaySampler.
Section Requests.
Context {T : Type}.

(** Arguments of [previous_generator.sample]. *)
Record sample_request := SampleRequest {
  req_count : nat;
  req_allowed_classes : option (list nat);
  req_allowed_domains : list nat;
  req_class_probs : option (list T);
  req_uniform_sampling : bool;
  req_varietyVector : bool;
  req_classVariety : bool
}.

(** Lines 255-257. *)
Definition allowed_classes_for (sc : scenario) (classes_per_task task : nat)
  : option (list nat) :=
  if decide (sc = sc_domain) then None
  else Some (seq 0 (classes_per_task * (task - 1))).

Definition allowed_domains_for (task : nat) : list nat := seq 0 (task - 1).

(** Lines 262-329: the request made for each sample method. *)
Definition request (sm : sample_method) (batch_size_replay curated_multiplier : nat)
    (allowed_classes : option (list nat)) (allowed_domains : list nat)
    (sampleProbs : list T) : sample_request :=
  let pool := batch_size_replay * curated_multiplier in
  match sm with
  | sm_softmax =>
      SampleRequest batch_size_replay allowed_classes allowed_domains
                    (Some sampleProbs) false false false
  | sm_random =>
      SampleRequest batch_size_replay allowed_classes allowed_domains
                    None false false false
  | sm_uniform =>
      SampleRequest batch_size_replay allowed_classes allowed_domains
                    None true false false
  | sm_curated_variety | sm_interfered =>
      SampleRequest pool allowed_classes allowed_domains None false true false
  | sm_curated_classVariety =>
      SampleRequest pool allowed_classes allowed_domains None true true true
  | sm_curated_softmax =>
      SampleRequest pool allowed_classes allowed_domains
                    (Some sampleProbs) false false false
  | _ =>
      SampleRequest pool allowed_classes allowed_domains None false false false
  end.
End Requests.
End ReplaySampler.

(** ** Target Labeler (train.py lines 438-477) *)

Module TargetLabeler.
Section Labeler.
Context {T Input : Type}.
Variable ar : arith T.

(** [previous_model.classify(x, not_hidden=...)], under the XdG mask that
    was applied last ([None]: the model has no masks). *)
Variable classify_prev : option nat → list Input → bool → matrix T.

(** Index of the first maximal entry. *)
Fixpoint argmax_from (best_i : nat) (best : T) (i : nat) (r : list T) : nat :=
  match r with
  | [] => best_i
  | a :: r' => if a_leb ar a best then argmax_from best_i best (S i) r'
               else argmax_from i a (S i) r'
  end.

Definition argmax (r : list T) : result nat :=
  match r with
  | [] => Err RuntimeError
  | a :: r' => Ok (argmax_from 0 a 1 r')
  end.

(** [torch.max(scores, dim=1)[1]] *)
Definition argmax_rows (scores : matrix T) : result (list nat) :=
  if ncols scores =? 0 then Err RuntimeError else mapM argmax (rows scores).

Definition as_tensor {A} (d : replay_data A) : result A :=
  match d with
  | RTensor a => Ok a
  | _ => Err TypeError
  end.

(** Lines 457-474: one entry per previous task. *)
Definition per_task_entry (sc : scenario) (has_mask : bool)
    (x_ : replay_data (list Input)) (classes_per_task : nat)
    (not_hidden : bool) (all_scores_0 : option (matrix T)) (task_id : nat)
  : result (matrix T * list nat) :=
  let mask := if has_mask then Some (task_id + 1) else None in
  all_scores_ ←
    (match x_ with
     | RList l => x ← index l task_id; mret (classify_prev mask x not_hidden)
     | RTensor x => if has_mask then mret (classify_prev mask x not_hidden)
                    else match all_scores_0 with
                         | Some s => Ok s
                         | None => Err UnboundLocalError
                         end
     | RNone => Err TypeError
     end);
  let temp_scores_ :=
    if decide (sc = sc_domain) then all_scores_
    else slice_range (classes_per_task * task_id)
                     (classes_per_task * (task_id + 1)) all_scores_ in
  temp_y_ ← argmax_rows temp_scores_;
  mret (temp_scores_, temp_y_).

(** Lines 438-477.  [y_in] and [scores_in] are the values the two names
    hold when the block is entered ([None]: not bound yet). *)
Definition targets (Generative Current : bool) (sc : scenario) (has_mask : bool)
    (x_ : replay_data (list Input)) (classes_per_task task : nat)
    (y_in : option (replay_data (list nat)))
    (scores_in : option (replay_data (matrix T)))
    (replay_targets : string)
  : result (replay_data (list nat) * replay_data (matrix T)) :=
  let not_hidden := if Generative then false else true in
  '(y_, scores_) ←
    (if Generative || Current then
       if bool_decide (sc = sc_domain ∨ sc = sc_class) && negb has_mask then
         x ← as_tensor x_;
         let all_scores_ := classify_prev None x not_hidden in
         let scores_ :=
           if decide (sc = sc_class)
           then slice_cols (classes_per_task * (task - 1)) all_scores_
           else all_scores_ in
         y_ ← argmax_rows scores_;
         mret (Some (RTensor y_), Some (RTensor scores_))
       else
         let all_scores_0 :=
           match x_ with
           | RTensor x => if has_mask then None
                          else Some (classify_prev None x not_hidden)
           | _ => None
           end in
         l ← mapM (per_task_entry sc has_mask x_ classes_per_task not_hidden
                                  all_scores_0)
                  (seq 0 (task - 1));
         mret (Some (RList (l.*2)), Some (RList (l.*1)))
     else mret (y_in, scores_in));
  y_out ← (if String.eqb replay_targets "hard"
           then Curation.bound y_ else Ok RNone);
  scores_out ← (if String.eqb replay_targets "soft"
                then Curation.bound scores_ else Ok RNone);
  mret (y_out, scores_out).
(** [is_argmax r k]: [k] indexes an entry of [r] that no entry exceeds. *)
Definition is_argmax (r : list T) (k : nat) : Prop :=
  ∃ v, r !! k = Some v ∧ ∀ u, u ∈ r → a_leb ar u v = true.
End Labeler.
End TargetLabeler.

(** The comparison on scores is a total preorder. *)
Definition total_preorder {T} (leb : T → T → bool) : Prop :=
  (∀ a, leb a a = true)
  ∧ (∀ a b c, leb a b = true → leb b c = true → leb a c = true)
  ∧ (∀ a b, leb a b = false → leb b a = true).

(** ** Regularization Tracker: synaptic intelligence
       (train.py lines 125-133 and 499-521) *)

Module SI.
Section Importance.
Context {T : Type}.
Variable ar : arith T.

Definition tensor : Type := list T.

Record param := Param {
  requires_grad : bool;
  data : tensor;
  grad : option tensor
}.

(** A model as far as its parameters go: the child modules in registration
    order, each with what its own [named_parameters()] yields. *)
Record model := Model { children : list (string * list (string * param)) }.

(** [model.named_parameters()] *)
Definition named_parameters (m : model) : list (string * param) :=
  c ← children m; (λ np, (c.1 +:+ "." +:+ np.1, np.2)) <$> c.2.

(** [model.<name>] *)
Definition attr (m : model) (name : string)
  : result (list (string * param)) :=
  match list_find (λ c, c.1 = name) (children m) with
  | Some (_, c) => Ok c.2
  | None => Err AttributeError
  end.

(** [n.replace('.', '__')] *)
Fixpoint mangle (n : string) : string :=
  match n with
  | EmptyString => EmptyString
  | String c n' =>
      if Ascii.eqb c "."%char then String "_" (String "_" (mangle n'))
      else String c (mangle n')
  end.

Definition zero_ (t : tensor) : tensor := (λ _, a_zero ar) <$> t.
Definition tadd (a b : tensor) : tensor := zip_with (a_add ar) a b.
Definition tsub (a b : tensor) : tensor := zip_with (a_sub ar) a b.
Definition tmul (a b : tensor) : tensor := zip_with (a_mul ar) a b.
Definition tneg (a : tensor) : tensor := a_neg ar <$> a.

(** The two dicts. *)
Record si_state := SIState {
  W : gmap string tensor;
  p_old : gmap string tensor
}.

(** Lines 129-133: the body of the loop over [named_parameters()]. *)
Definition init_step (st : si_state) (np : string * param) : si_state :=
  if requires_grad np.2 then
    let n := mangle np.1 in
    SIState (<[n := zero_ (data np.2)]> (W st))
            (<[n := data np.2]> (p_old st))
  else st.

(** Lines 127-133. *)
Definition si_init (m : model) : si_state :=
  foldl init_step (SIState ∅ ∅) (named_parameters m).

(** Lines 126-133; [st] is what the names [W], [p_old] held before
    ([None]: unbound). *)
Definition task_start (si_enabled : bool) (m : model) (st : option si_state)
  : option si_state :=
  if si_enabled then Some (si_init m) else st.

Definition getitem (d : gmap string tensor) (n : string) : result tensor :=
  match d !! n with Some t => Ok t | None => Err KeyError end.

(** The body of each of the three loops at lines 501-521. *)
Definition update_param (prefix : string) (st : si_state) (np : string * param)
  : result si_state :=
  if requires_grad np.2 then
    let n := mangle (prefix +:+ np.1) in
    st1 ← (match grad np.2 with
           | Some g =>
               w ← getitem (W st) n;
               po ← getitem (p_old st) n;
               mret (SIState (<[n := tadd w (tmul (tneg g) (tsub (data np.2) po))]> (W st))
                             (p_old st))
           | None => mret st
           end);
    mret (SIState (W st1) (<[n := data np.2]> (p_old st1)))
  else mret st.

Fixpoint update_params (prefix : string) (st : si_state)
    (ps : list (string * param)) : result si_state :=
  match ps with
  | [] => mret st
  | np :: ps' => st1 ← update_param prefix st np; update_params prefix st1 ps'
  end.

Definition update_module (m : model) (name : string) (st : si_state)
  : result si_state :=
  ps ← attr m name;
  update_params (name +:+ ".") st ps.

(** Lines 500-521. *)
Definition si_update (si_enabled : bool) (m : model) (st : option si_state)
  : result (option si_state) :=
  if si_enabled then
    st0 ← Curation.bound st;
    st1 ← update_module m "convE" st0;
    st2 ← update_module m "fcE" st1;
    st3 ← update_module m "classifier" st2;
    mret (Some st3)
  else mret st.

(** The parameters the three loops visit, under their full names. *)
Definition keyed (prefix : string) (ps : list (string * param))
  : list (string * param) :=
  (λ np, (prefix +:+ np.1, np.2)) <$> ps.

Definition visited (m : model) : result (list (string * param)) :=
  ps1 ← attr m "convE";
  ps2 ← attr m "fcE";
  ps3 ← attr m "classifier";
  mret (keyed "convE." ps1 ++ keyed "fcE." ps2 ++ keyed "classifier." ps3).

Definition trainable (np : string * param) : Prop := requires_grad np.2 = true.

#[global] Instance trainable_dec (np : string * param) : Decision (trainable np).
Proof. unfold trainable. apply _. Defined.

(** [W[n]] after [W[n].add_(-p.grad*(p.detach()-p_old[n]))], or unchanged
    when the parameter has no gradient. *)
Definition accumulated (p : param) (w po : tensor) : tensor :=
  match grad p with
  | Some g => tadd w (tmul (tneg g) (tsub (data p) po))
  | None => w
  end.
Definition all_zero (t : tensor) : Prop := Forall (λ v, v = a_zero ar) t.

(** The key of a parameter in [W] and [p_old]. *)
Definition key_of (np : string * param) : string := mangle np.1.
End Importance.
End SI.

(** ** Training Loop Driver and Snapshot Manager
       (train.py lines 100-123, 144-162, 179, 559-589) *)

Module TaskLoop.
Section Loop.
(** State of an [nn.Module] other than its train/eval mode. *)
Context {St : Type}.

Record obj := Obj { payload : St; training : bool }.

Record config := Config {
  cfg_replay_mode : replay_mode;
  cfg_scenario : scenario;
  cfg_iters : nat;
  cfg_gen_iters : nat;
  cfg_feedback : bool;
  cfg_reinit : bool;
  cfg_only_last : bool;
  cfg_n_tasks : nat;        (* len(train_datasets) *)
  cfg_ewc : bool;           (* ContinualLearner with ewc_lambda > 0 *)
  cfg_si : bool             (* ContinualLearner with si_c > 0 *)
}.

(** The loop's variables that persist from task to task; objects are
    referenced through the heap. *)
Record loop_state := LoopState {
  heap : gmap nat obj;
  previous_model : option nat;
  previous_generator : option nat;
  Generative : bool;
  Current : bool;
  Offline_TaskIL : bool
}.

(** What one iteration of a task can read of them. *)
Record ctx := Ctx {
  ctx_task : nat;
  ctx_batch_index : nat;
  ctx_Generative : bool;
  ctx_Current : bool;
  ctx_Offline_TaskIL : bool;
  ctx_previous_model : option nat;
  ctx_previous_generator : option nat
}.

Variable model : nat.
Variable generator : option nat.

(** The body of the loop over [batch_index] (lines 179-556): it reads the
    context and works on the objects in place; it assigns none of
    [previous_model], [previous_generator], [Generative], [Current]. *)
Variable iteration : ctx → gmap nat obj → result (gmap nat obj).
(** [init_params], [estimate_fisher] (after [apply_XdGmask]) and
    [update_omega], on the state of the object they are given. *)
Variable init_params : St → St.
Variable estimate_fisher : nat → St → St.
Variable update_omega : St → St.

(** Lines 100-102. *)
Definition initial (σ : gmap nat obj) : loop_state :=
  LoopState σ None None false false false.

Definition on_payload (f : St → St) (o : obj) : obj :=
  Obj (f (payload o)) (training o).

(** [copy.deepcopy(o).eval()] *)
Definition copy_eval (o : nat) (σ : gmap nat obj)
  : result (nat * gmap nat obj) :=
  match σ !! o with
  | Some v => let l := fresh (dom σ) in
              Ok (l, <[l := Obj (payload v) false]> σ)
  | None => Err AttributeError
  end.

(** Lines 159-162. *)
Definition iters_to_use (cfg : config) (task : nat) : nat :=
  let n := match generator with
           | None => cfg_iters cfg
           | Some _ => cfg_iters cfg `max` cfg_gen_iters cfg
           end in
  if cfg_only_last cfg && negb (task =? cfg_n_tasks cfg) then 0 else n.

Definition ctx_of (st : loop_state) (offline : bool) (task batch_index : nat)
  : ctx :=
  Ctx task batch_index (Generative st) (Current st) offline
      (previous_model st) (previous_generator st).

(** [for batch_index in range(b, b+n)] *)
Fixpoint iterations (mk : nat → ctx) (b n : nat) (σ : gmap nat obj)
  : result (gmap nat obj) :=
  match n with
  | 0 => Ok σ
  | S n' => σ' ← iteration (mk b) σ; iterations mk (S b) n' σ'
  end.

(** Lines 144-149. *)
Definition reinit (cfg : config) (σ : gmap nat obj) : gmap nat obj :=
  if cfg_reinit cfg then
    let σ1 := alter (on_payload init_params) model σ in
    match generator with
    | Some g => alter (on_payload init_params) g σ1
    | None => σ1
    end
  else σ.

(** Lines 567-581. *)
Definition consolidate (cfg : config) (task : nat) (σ : gmap nat obj)
  : gmap nat obj :=
  let σ1 := if cfg_ewc cfg
            then alter (on_payload (estimate_fisher task)) model σ else σ in
  if cfg_si cfg then alter (on_payload update_omega) model σ1 else σ1.

(** Lines 583-589. *)
Definition refresh_snapshots (cfg : config) (offline : bool) (st : loop_state)
    (σ : gmap nat obj) : result loop_state :=
  '(pm, σ1) ← copy_eval model σ;
  match cfg_replay_mode cfg with
  | rm_generative =>
      '(pg, σ2) ← (if cfg_feedback cfg then Ok (pm, σ1)
                   else match generator with
                        | Some g => copy_eval g σ1
                        | None => Err AttributeError
                        end);
      mret (LoopState σ2 (Some pm) (Some pg) true (Current st) offline)
  | rm_current =>
      mret (LoopState σ1 (Some pm) (previous_generator st)
                      (Generative st) true offline)
  | _ =>
      mret (LoopState σ1 (Some pm) (previous_generator st)
                      (Generative st) (Current st) offline)
  end.

(** Lines 118-119. *)
Definition offline_of (cfg : config) (st : loop_state) : bool :=
  if bool_decide (cfg_replay_mode cfg = rm_offline ∧ cfg_scenario cfg = sc_task)
  then true else Offline_TaskIL st.

(** One pass of the loop over tasks (lines 112-589). *)
Definition run_task (cfg : config) (task : nat) (st : loop_state)
  : result loop_state :=
  let offline := offline_of cfg st in
  let σ1 := reinit cfg (heap st) in
  σ2 ← iterations (ctx_of st offline task) 1 (iters_to_use cfg task) σ1;
  refresh_snapshots cfg offline st (consolidate cfg task σ2).

(** Tasks [first .. first+k-1]. *)
Fixpoint run_tasks (cfg : config) (first k : nat) (st : loop_state)
  : result loop_state :=
  match k with
  | 0 => Ok st
  | S k' => st' ← run_task cfg first st; run_tasks cfg (S first) k' st'
  end.

(** [train_cl], as far as the task loop goes. *)
Definition train_cl (cfg : config) (σ : gmap nat obj) : result loop_state :=
  run_tasks cfg 1 (cfg_n_tasks cfg) (initial σ).

(** Lines 222-234: where the replayed inputs of an iteration come from. *)
Inductive replay_source :=
| NoReplay
| FromCurrentBatch
| FromGenerator (previous_generator : option nat)
| PerTaskBatches.

Definition replay_source_of (c : ctx) : replay_source :=
  if ctx_Generative c then FromGenerator (ctx_previous_generator c)
  else if ctx_Current c then FromCurrentBatch
  else if ctx_Offline_TaskIL c then PerTaskBatches
  else NoReplay.
(** [snapshot_of σ l o]: [l] holds a copy of [o], in evaluation mode. *)
Definition snapshot_of (σ : gmap nat obj) (l o : nat) : Prop :=
  l ≠ o ∧ ∃ v, σ !! o = Some v ∧ σ !! l = Some (Obj (payload v) false).

(** The state in which a task ends. *)
Definition task_end_ok (cfg : config) (st' : loop_state) : Prop :=
  ∃ pm, previous_model st' = Some pm
    ∧ snapshot_of (heap st') pm model
    ∧ (cfg_replay_mode cfg = rm_generative →
         Generative st' = true
         ∧ ∃ pg, previous_generator st' = Some pg
             ∧ (if cfg_feedback cfg then pg = pm
                else ∃ g, generator = Some g ∧ snapshot_of (heap st') pg g))
    ∧ (cfg_replay_mode cfg = rm_current → Current st' = true).

(** [loop_ctx cfg st task c]: [c] holds what an iteration of task [task]
    reads of the loop's variables when the task is entered in state [st]
    (the loop body assigns none of them, and [Offline_TaskIL] is set at
    lines 118-119 before the first iteration). *)
Definition loop_ctx (cfg : config) (st : loop_state) (task : nat) (c : ctx)
  : Prop :=
  ctx_task c = task
  ∧ 1 ≤ ctx_batch_index c ≤ iters_to_use cfg task
  ∧ ctx_Generative c = Generative st
  ∧ ctx_Current c = Current st
  ∧ ctx_Offline_TaskIL c = offline_of cfg st
  ∧ ctx_previous_model c = previous_model st
  ∧ ctx_previous_generator c = previous_generator st.
End Loop.
End TaskLoop.

(** ** Real-valued tensor entries *)

Module RealOps.
Open Scope R_scope.

Definition sum (v : list R) : R := foldr Rplus 0 v.

Definition real_arith : arith R :=
  Arith 0 1 Rplus Rminus Rmult Ropp (λ a b, if Rle_dec a b then true else false).

(** [nn.Softmax] *)
Definition softmax (v : list R) : list R :=
  (λ a, exp a / sum (exp <$> v)) <$> v.

(** [CrossEntropyLoss(reduction='none')] on one row of inputs:
    minus the log-softmax of the row at the target. *)
Definition cross_entropy (v : list R) (y : nat) : R :=
  - nth y v 0 + ln (sum (exp <$> v)).

(** [KLDivLoss(reduction='none')] on one entry:
    target * (log target - input), and 0 where the target is 0. *)
Definition kl_div (input target : R) : R :=
  if Req_dec_T target 0 then 0 else target * (ln target - input).

Definition mean (v : list R) : R := sum v / INR (length v).

Definition real_ops : tensor_ops R :=
  TensorOps real_arith softmax cross_entropy kl_div mean.
End RealOps.

Definition Z_arith : arith Z :=
  Arith 0%Z 1%Z Z.add Z.sub Z.mul Z.opp Z.leb.

(** ** Concrete instances used in examples *)

(** A generator that returns as many candidates as asked for. *)
Definition toy_sample (n : nat) (cls : list nat) : list nat * list nat * list nat :=
  (replicate n 0, replicate n (default 0 (head cls)), replicate n 0).

(** A two-weight example over the reals. *)
Module Toy.
(** A "model" is one weight [w]; its score for input [x] is [w * x] for
    class 0 and 0 for the three other classes. *)
Definition classify_fn (w : R) (xs : list R) (not_hidden : bool)
  : matrix R * R :=
  (Matrix 4 ((λ x, [w * x; 0; 0; 0]%R) <$> xs), w).

(** A training step moves the weight. *)
Definition train_a_batch_fn (w : R) (a : train_args R R) : R := (w + 1)%R.

Definition model : nat := 0.
Definition previous_model : nat := 1.

(** The current model has moved away from its snapshot. *)
Definition store : gmap nat R := {[model := 1%R; previous_model := 0%R]}.
End Toy.

(** A model before and after one training step: the encoder and classifier
    parameters are visited; [fcD.weight] (a decoder layer) is not. *)
Module SIExample.
Definition before : SI.model :=
  SI.Model [("convE", [("conv.weight", SI.Param true [1; 2]%Z None)]);
            ("fcE", [("fc.weight", SI.Param true [3]%Z None);
                     ("fc.bias", SI.Param false [0]%Z None)]);
            ("classifier", [("weight", SI.Param true [5]%Z None)]);
            ("fcD", [("weight", SI.Param true [7]%Z None)])].

Definition after : SI.model :=
  SI.Model [("convE", [("conv.weight", SI.Param true [2; 2]%Z (Some [1; 1]%Z))]);
            ("fcE", [("fc.weight", SI.Param true [3]%Z None);
                     ("fc.bias", SI.Param false [0]%Z None)]);
            ("classifier", [("weight", SI.Param true [4]%Z (Some [3]%Z))]);
            ("fcD", [("weight", SI.Param true [8]%Z (Some [1]%Z))])].
End SIExample.

(** Two tasks, only the last one trained, generative replay with a separate
    generator; a training iteration adds one to the model's state. *)
Module LoopExample.
Definition model : nat := 0.
Definition generator : option nat := Some 1.

Definition iteration (c : TaskLoop.ctx) (σ : gmap nat (@TaskLoop.obj nat))
  : result (gmap nat (@TaskLoop.obj nat)) :=
  Ok (alter (λ o, TaskLoop.Obj (S (TaskLoop.payload o)) true) model σ).

Definition cfg : TaskLoop.config :=
  TaskLoop.Config rm_generative sc_class 3 0 false false true 2 false false.

Definition heap0 : gmap nat (@TaskLoop.obj nat) :=
  {[0 := TaskLoop.Obj 10 true; 1 := TaskLoop.Obj 20 true]}.
End LoopExample.

(** Offline replay in the Task-IL scenario, one task of two iterations; the
    loop body records in the model where its replayed inputs come from. *)
Module OfflineExample.
Definition cfg : TaskLoop.config :=
  TaskLoop.Config rm_offline sc_task 2 0 false false false 1 false false.

Definition source_code (s : TaskLoop.replay_source) : nat :=
  match s with
  | TaskLoop.NoReplay => 0
  | TaskLoop.FromCurrentBatch => 1
  | TaskLoop.FromGenerator _ => 2
  | TaskLoop.PerTaskBatches => 3
  end.

Definition iteration (c : TaskLoop.ctx) (σ : gmap nat (@TaskLoop.obj nat))
  : result (gmap nat (@TaskLoop.obj nat)) :=
  Ok (alter (λ o, TaskLoop.Obj (source_code (TaskLoop.replay_source_of c)) true)
            LoopExample.model σ).
End OfflineExample.

(** ** Single-task training: [train] (train.py lines 11-58) *)

Module Train.
Section Loop.
Context {MS Batch : Type}.

(** [model.train_a_batch(data, y=y, freeze_convE=...)], on the model's state. *)
Variable train_a_batch_fn : MS → Batch → MS.
(** [train_loader]: the batches that the [e]-th pass over it yields. *)
Variable train_loader : nat → list Batch.
(** [loss_cbs] and [eval_cbs]: callbacks by name; [None] entries are skipped. *)
Variable loss_cbs : list (option nat).
Variable eval_cbs : list (option nat).

(** What the loop does, in order. *)
Inductive event :=
| Trained (iteration epoch : nat) (b : Batch)
| LossCb (cb iteration epoch : nat)
| EvalCb (cb iteration epoch : nat)
| Saved (iteration : nat)
| BarClosed.

Inductive outcome (A : Type) :=
| Returned (a : A)
| ZeroDivisionError (a : A)     (* [iteration % save_every] with save_every = 0 *)
| Diverges.                     (* the fuel ran out *)
Arguments Returned {A} a.
Arguments ZeroDivisionError {A} a.
Arguments Diverges {A}.

Record state := State { model : MS; iteration : nat; log : list event }.

Inductive flow := Continue | Break | Raise.

Definition fire (mk : nat → event) (cbs : list (option nat)) : list event :=
  mk <$> omap (λ cb, cb) cbs.

(** Lines 35-58: the body of the loop over the batches of an epoch. *)
Definition body (iters : nat) (save_every : option nat) (epoch : nat)
    (s : state) (b : Batch) : flow * state :=
  let iteration := S (iteration s) in
  let m := train_a_batch_fn (model s) b in
  let l := log s ++ [Trained iteration epoch b]
                 ++ fire (λ cb, LossCb cb iteration epoch) loss_cbs
                 ++ fire (λ cb, EvalCb cb iteration epoch) eval_cbs in
  if iteration =? iters then (Break, State m iteration (l ++ [BarClosed]))
  else match save_every with
       | None => (Continue, State m iteration l)
       | Some k =>
           if k =? 0 then (Raise, State m iteration l)
           else if iteration `mod` k =? 0
                then (Continue, State m iteration (l ++ [Saved iteration]))
                else (Continue, State m iteration l)
       end.

(** Line 34: [for batch_idx, (data, y) in enumerate(train_loader)]. *)
Fixpoint epoch_loop (iters : nat) (save_every : option nat) (epoch : nat)
    (s : state) (bs : list Batch) : flow * state :=
  match bs with
  | [] => (Continue, s)
  | b :: bs' =>
      match body iters save_every epoch s b with
      | (Continue, s') => epoch_loop iters save_every epoch s' bs'
      | r => r
      end
  end.

(** Lines 29-31: [while iteration < iters], at most [fuel] epochs. *)
Fixpoint while_loop (fuel : nat) (iters : nat) (save_every : option nat)
    (epoch : nat) (s : state) : outcome state :=
  if iteration s <? iters then
    match fuel with
    | 0 => Diverges
    | S fuel' =>
        let epoch := S epoch in
        match epoch_loop iters save_every epoch s (train_loader epoch) with
        | (Raise, s') => ZeroDivisionError s'
        | (_, s') => while_loop fuel' iters save_every epoch s'
        end
    end
  else Returned s.

Definition train (fuel : nat) (m : MS) (iters : nat) (save_every : option nat)
  : outcome state :=
  while_loop fuel iters save_every 0 (State m 0 []).

(** The batches trained on, the iterations checkpointed. *)
Definition trained_on (l : list event) : list Batch :=
  omap (λ e, match e with Trained _ _ b => Some b | _ => None end) l.

Definition saved_at (l : list event) : list nat :=
  omap (λ e, match e with Saved i => Some i | _ => None end) l.

(** The callback invocations. *)
Definition callbacks_of (l : list event) : list event :=
  omap (λ e, match e with
             | LossCb _ _ _ | EvalCb _ _ _ => Some e
             | _ => None
             end) l.

(** One pass through the loop body, and the (epoch, batch) pairs that the
    passes [first .. first+epochs-1] over the loader yield. *)
Definition step (iters : nat) (save_every : option nat) (s : state)
    (eb : nat * Batch) : state :=
  (body iters save_every eb.1 s eb.2).2.

Definition schedule (first epochs : nat) : list (nat * Batch) :=
  e ← seq first epochs; (λ b, (e, b)) <$> train_loader e.

(** Lines 42-49: the callbacks fired at iteration [i] of epoch [e]. *)
Definition fired (i e : nat) : list event :=
  fire (λ cb, LossCb cb i e) loss_cbs ++ fire (λ cb, EvalCb cb i e) eval_cbs.

(** Lines 52-58: what ends iteration [i]. *)
Definition closing (iters : nat) (save_every : option nat) (i : nat)
  : list event :=
  if i =? iters then [BarClosed]
  else match save_every with
       | Some k => if k =? 0 then []
                   else if i `mod` k =? 0 then [Saved i] else []
       | None => []
       end.
End Loop.
Arguments Returned {A} a.
Arguments ZeroDivisionError {A} a.
Arguments Diverges {A}.
End Train.

(** ** The mask of [curated_classVariety] (train.py lines 164-176) *)

Module ClassVariety.
(** [indexList]: for each row, the columns of the same class. *)
Definition indexList (sampleAmt classNum : nat) : list (list nat) :=
  (λ rowIdx, filter (λ idx, idx `mod` classNum = rowIdx `mod` classNum)
                    (seq 0 sampleAmt))
    <$> seq 0 sampleAmt.

(** [curRow = [0] * sampleAmt; for idx in rowIdxList: curRow[idx] = 1] *)
Definition row_of (sampleAmt : nat) (rowIdxList : list nat) : list nat :=
  foldl (λ curRow idx, <[idx := 1]> curRow) (replicate sampleAmt 0) rowIdxList.

(** What line 165-176 leave in [mask]. *)
Inductive built :=
| NoMask                       (* mask = None *)
| Mask (m : list (list nat))
| MaskZeroDivisionError.       (* idx % classNum with classNum = 0 *)

Definition mask (sm : sample_method)
    (batch_size_replay curated_multiplier classes_per_task task : nat) : built :=
  if bool_decide (sm = sm_curated_classVariety) && (0 <? task - 1) then
    let sampleAmt := batch_size_replay * curated_multiplier in
    let classNum := classes_per_task * (task - 1) in
    if (classNum =? 0) && negb (sampleAmt =? 0) then MaskZeroDivisionError
    else Mask (row_of sampleAmt <$> indexList sampleAmt classNum)
  else NoMask.
End ClassVariety.

(** ** Class probabilities of the [softmax] sample methods
       (train.py lines 262-273 and 307-317) *)

Module SoftmaxSampling.
Section Probs.
Context {T : Type}.
Variable ops : tensor_ops T.

(** [m[:, j]] *)
Definition column (m : matrix T) (j : nat) : list T :=
  omap (λ r, r !! j) (rows m).

(** [torch.mean(m, dim=0)] *)
Definition mean_dim0 (m : matrix T) : list T :=
  (λ j, t_mean ops (column m j)) <$> seq 0 (ncols m).

(** [sampleProbs = zeros(C); sampleProbs[:k] = avgError[:k]], where [C]
    is the number of columns of the model's output. *)
Definition sampleProbs (newScores_og : matrix T) (classes_per_task task : nat)
  : list T :=
  let curTaskID := (Z.of_nat task - 2)%Z in
  let k := Z.to_nat (Z.of_nat classes_per_task * (curTaskID + 1)) in
  let newScores := slice_cols k newScores_og in
  let scores_old := Matrix (ncols newScores) (t_softmax ops <$> rows newScores) in
  let avgError := mean_dim0 scores_old in
  take k avgError ++ drop k (replicate (ncols newScores_og) (t_zero ops)).
End Probs.
End SoftmaxSampling.

(** ** EWC: the classes the Fisher information is estimated on
       (train.py lines 568-572) *)

(** [list(range(a, b))] *)
Definition range (a b : nat) : list nat := seq a (b - a).

Definition ewc_allowed_classes (sc : scenario) (classes_per_task task : nat)
  : option (list nat) :=
  match sc with
  | sc_task => Some (range (classes_per_task * (task - 1)) (classes_per_task * task))
  | sc_class => Some (range 0 (classes_per_task * task))
  | sc_domain => None
  end.

(** ** Order of a ranking *)

(** [descending leb vs]: no value of [vs] is exceeded by a later one. *)
Fixpoint descending {T} (leb : T → T → bool) (vs : list T) : Prop :=
  match vs with
  | [] => True
  | v :: vs' => Forall (λ u, leb u v = true) vs' ∧ descending leb vs'
  end.

(** ** Synaptic intelligence: the buffers registered before the first task
       (train.py lines 105-109) *)

Module SIBuffers.
Section Buffers.
Context {T : Type}.

(** The calls [model.register_buffer(name, p.detach().clone())], in order. *)
Definition prev_task_buffers (si_enabled : bool) (m : @SI.model T)
  : list (string * list T) :=
  if si_enabled then
    omap (λ np, if SI.requires_grad np.2
                then Some (SI.mangle np.1 +:+ "_SI_prev_task", SI.data np.2)
                else None)
         (SI.named_parameters m)
  else [].
End Buffers.
End SIBuffers.

(** ** Which model is trained at which iteration
       (train.py lines 152-162, 179, 484 and 539) *)

Module Steps.
Definition batch_indices (generator : option nat) (cfg : TaskLoop.config)
    (task : nat) : list nat :=
  seq 1 (TaskLoop.iters_to_use generator cfg task).

(** [batch_index <= iters_main] *)
Definition trains_main (cfg : TaskLoop.config) (batch_index : nat) : bool :=
  batch_index <=? TaskLoop.cfg_iters cfg.

(** [generator is not None and batch_index <= iters_gen] *)
Definition trains_generator (generator : option nat) (cfg : TaskLoop.config)
    (batch_index : nat) : bool :=
  match generator with
  | Some _ => batch_index <=? TaskLoop.cfg_gen_iters cfg
  | None => false
  end.

Definition main_steps (generator : option nat) (cfg : TaskLoop.config)
    (task : nat) : list nat :=
  filter (λ b, trains_main cfg b = true) (batch_indices generator cfg task).

Definition generator_steps (generator : option nat) (cfg : TaskLoop.config)
    (task : nat) : list nat :=
  filter (λ b, trains_generator generator cfg b = true)
         (batch_indices generator cfg task).
End Steps.

(* ===================================================================== *)
(** * Part II: properties *)
(* ===================================================================== *)

(** ** The [result] monad *)

Lemma bind_Ok {A B} (a : A) (f : A → result B) : (Ok a ≫= f) = f a.
Proof. done. Qed.

(** ** Arithmetic of the ceiling quotient *)

Lemma ceil_div_bounds (a b : nat) :
  0 < b → a ≤ b * ceil_div a b ∧ b * ceil_div a b < a + b.
Proof.
  intros Hb. unfold ceil_div.
  pose proof (Nat.div_mod_eq a b) as Hdm.
  pose proof (Nat.mod_upper_bound a b ltac:(lia)) as Hlt.
  destruct (Nat.eqb_spec (a `mod` b) 0) as [H0|H0]; nia.
Qed.

Lemma ceil_div_exact (a b : nat) :
  0 < b → (b * ceil_div a b = a ↔ a `mod` b = 0).
Proof.
  intros Hb. unfold ceil_div.
  pose proof (Nat.div_mod_eq a b) as Hdm.
  pose proof (Nat.mod_upper_bound a b ltac:(lia)) as Hlt.
  destruct (Nat.eqb_spec (a `mod` b) 0) as [H0|H0]; split; intros; try nia; try lia.
Qed.

Section ConditionalFacts.
Import Conditional.
Context {X : Type}.
Variable sample : nat → list nat → list X * list nat * list nat.
Hypothesis sample_count : ∀ n cls, length (sample n cls).1.1 = n.

Lemma requests_length cpt B task :
  length (requests cpt B task) = task - 1.
Proof. unfold requests. by rewrite length_fmap, length_seq. Qed.

Lemma total_generated_const (l : list (nat * list nat)) c :
  Forall (λ r, r.1 = c) l →
  total_generated ((λ o : list X * list nat * list nat, o.1.1) <$> ((λ r, sample r.1 r.2) <$> l))
  = length l * c.
Proof.
  unfold total_generated.
  induction 1 as [|r l Hr _ IH]; [done|].
  change (length (sample r.1 r.2).1.1
          + sum_list (length <$> ((λ o : list X * list nat * list nat, o.1.1)
                                    <$> ((λ r, sample r.1 r.2) <$> l)))
          = S (length l) * c).
  rewrite sample_count, IH, Hr. lia.
Qed.

Lemma requests_sizes cpt B task :
  Forall (λ r, r.1 = ceil_div B (task - 1)) (requests cpt B task).
Proof.
  unfold requests, batch_size_replay_to_use.
  apply Forall_fmap, Forall_forall. by intros.
Qed.
End ConditionalFacts.

Theorem C4_conditional_generation_total
    {X : Type} (sample : nat → list nat → list X * list nat * list nat)
    (classes_per_task batch_size_replay task : nat) :
  (∀ n cls, length (sample n cls).1.1 = n) →
  2 ≤ task →
  let reqs := Conditional.requests classes_per_task batch_size_replay task in
  let total := Conditional.total_generated
                 (Conditional.generate sample classes_per_task batch_size_replay task).1 in
  length reqs = task - 1
  ∧ (∀ task_id, task_id < task - 1 →
       reqs !! task_id =
         Some (ceil_div batch_size_replay (task - 1),
               seq (classes_per_task * task_id) classes_per_task))
  ∧ total = (task - 1) * ceil_div batch_size_replay (task - 1)
  ∧ batch_size_replay ≤ total < batch_size_replay + (task - 1)
  ∧ (total = batch_size_replay ↔ batch_size_replay `mod` (task - 1) = 0).
Proof.
  intros Hs Ht reqs total.
  assert (Htot : total = (task - 1) * ceil_div batch_size_replay (task - 1)).
  { subst total. unfold Conditional.generate. simpl.
    rewrite (total_generated_const sample Hs _ _ (requests_sizes _ _ _)).
    by rewrite requests_length. }
  split; [apply requests_length|].
  split.
  { intros task_id Hid. subst reqs. unfold Conditional.requests.
    rewrite list_lookup_fmap, lookup_seq_lt by done. done. }
  split; [done|].
  rewrite Htot.
  pose proof (ceil_div_bounds batch_size_replay (task - 1) ltac:(lia)).
  split; [lia|]. apply ceil_div_exact. lia.
Qed.

Lemma C4_conditional_generation_total_witness :
  Conditional.total_generated (Conditional.generate toy_sample 2 32 3).1 = 32.
Proof.
  pose proof (C4_conditional_generation_total toy_sample 2 32 3) as H.
  simpl in H.
  destruct H as (_ & _ & _ & _ & H).
  - intros n cls. unfold toy_sample. simpl. apply length_replicate.
  - lia.
  - apply H. reflexivity.
Defined.

Lemma C4_total_exceeds_replay_size :
  Conditional.requests 2 32 4 = [(11, [0; 1]); (11, [2; 3]); (11, [4; 5])]
  ∧ Conditional.total_generated (Conditional.generate toy_sample 2 32 4).1 = 33
  ∧ Conditional.total_generated (Conditional.generate toy_sample 2 32 4).1 ≠ 32.
Proof. vm_compute. repeat split; lia. Qed.

(** ** Zero padding of the previous scores *)

Section PadFacts.
Context {T : Type}.

Lemma zeros_like_rows (z : T) (m : matrix T) i :
  i < nrows m → rows (zeros_like z m) !! i = Some (replicate (ncols m) z).
Proof.
  intros Hi. unfold zeros_like, nrows in *. simpl.
  rewrite list_lookup_fmap.
  destruct (lookup_lt_is_Some_2 (rows m) i Hi) as [r ->]. done.
Qed.

Lemma wf_matrix_row (m : matrix T) i r :
  wf_matrix m → rows m !! i = Some r → length r = ncols m.
Proof. intros Hwf Hr. by apply (Forall_lookup_1 _ _ _ _ Hwf Hr). Qed.
End PadFacts.

(** C6. For [interfered], with [scores_old] no wider than [scores_new] (and
    one row per candidate in both), the padded tensor has the shape of
    [scores_new], repeats [scores_old] in the columns [scores_old] has, and is
    zero in the remaining columns. *)
Theorem C6_kl_padding
    {T : Type} (ops : tensor_ops T) (scores_old scores_new : matrix T) :
  wf_matrix scores_old →
  wf_matrix scores_new →
  nrows scores_old = nrows scores_new →
  ncols scores_old ≤ ncols scores_new →
  ∃ padded_scores,
    Curation.pad_scores ops scores_old scores_new = Ok padded_scores
    ∧ nrows padded_scores = nrows scores_new
    ∧ ncols padded_scores = ncols scores_new
    ∧ wf_matrix padded_scores
    ∧ ∀ i j, i < nrows scores_new →
        (j < ncols scores_old →
           entry padded_scores i j = entry scores_old i j)
        ∧ (ncols scores_old ≤ j < ncols scores_new →
           entry padded_scores i j = Some (t_zero ops)).
Proof.
  intros Hold Hnew Hrows Hcols.
  unfold Curation.pad_scores, assign_cols.
  rewrite bool_decide_eq_true_2; last first.
  { split; [unfold nrows, zeros_like in *; simpl; by rewrite length_fmap|].
    simpl. lia. }
  eexists. split; [reflexivity|].
  assert (Hrow : ∀ i, i < nrows scores_new →
            ∃ r, rows scores_old !! i = Some r ∧ length r = ncols scores_old
              ∧ zip_with (λ d s : list T, s ++ drop (ncols scores_old) d)
                  (rows (zeros_like (t_zero ops) scores_new)) (rows scores_old) !! i
                = Some (r ++ replicate (ncols scores_new - ncols scores_old) (t_zero ops))).
  { intros i Hi.
    destruct (lookup_lt_is_Some_2 (rows scores_old) i) as [r Hr];
      [unfold nrows in *; lia|].
    exists r. split; [done|]. split; [by eapply wf_matrix_row|].
    rewrite lookup_zip_with, zeros_like_rows, Hr by done. simpl.
    by rewrite drop_replicate. }
  split; [|split; [done|split]].
  - unfold nrows, zeros_like in *. simpl.
    rewrite length_zip_with, length_fmap. lia.
  - unfold wf_matrix. cbn [rows ncols]. apply Forall_lookup_2. intros i r Hi.
    assert (Hlt : i < nrows scores_new).
    { apply lookup_lt_Some in Hi. rewrite length_zip_with in Hi.
      unfold nrows, zeros_like in *. cbn [rows] in Hi.
      rewrite length_fmap in Hi. lia. }
    destruct (Hrow i Hlt) as (r' & _ & Hlen & Hz).
    rewrite Hz in Hi. injection Hi as <-.
    rewrite length_app, length_replicate. unfold zeros_like. cbn [ncols]. lia.
  - intros i j Hi. destruct (Hrow i Hi) as (r & Hr & Hlen & Hz).
    unfold entry. cbn [rows ncols]. rewrite Hz, Hr. simpl. split; intros Hj.
    + by rewrite lookup_app_l by lia.
    + rewrite lookup_app_r by lia.
      apply lookup_replicate_2. lia.
Qed.

Lemma C6_kl_padding_witness :
  ∃ padded_scores,
    Curation.pad_scores RealOps.real_ops
      (Matrix 4 [[1; 2; 3; 4]; [5; 6; 7; 8]]%R)
      (Matrix 6 [[1; 1; 1; 1; 1; 1]; [2; 2; 2; 2; 2; 2]]%R) = Ok padded_scores
    ∧ rows padded_scores = [[1; 2; 3; 4; 0; 0]; [5; 6; 7; 8; 0; 0]]%R.
Proof.
  destruct (C6_kl_padding RealOps.real_ops
              (Matrix 4 [[1; 2; 3; 4]; [5; 6; 7; 8]]%R)
              (Matrix 6 [[1; 1; 1; 1; 1; 1]; [2; 2; 2; 2; 2; 2]]%R))
    as (p & Hp & _).
  - repeat constructor.
  - repeat constructor.
  - reflexivity.
  - simpl. lia.
  - exists p. split; [exact Hp|].
    unfold Curation.pad_scores, assign_cols in Hp.
    rewrite bool_decide_eq_true_2 in Hp by (split; reflexivity).
    injection Hp as <-. reflexivity.
Defined.

(** ** The cyclic task iterator *)

Lemma div_mod_succ (L g : nat) :
  0 < L →
  ((g + L - 1) `div` L = if g `mod` L =? 0 then g `div` L else S (g `div` L))
  ∧ (S g `div` L = if S (g `mod` L) =? L then S (g `div` L) else g `div` L)
  ∧ (S g `mod` L = if S (g `mod` L) =? L then 0 else S (g `mod` L)).
Proof.
  intros HL.
  pose proof (Nat.div_mod_eq g L) as Hg.
  pose proof (Nat.mod_upper_bound g L ltac:(lia)) as Hr.
  set (q := g `div` L) in *. set (r := g `mod` L) in *.
  split; [|split].
  - destruct (Nat.eqb_spec r 0) as [H0|H0].
    + symmetry. apply (Nat.div_unique _ _ _ (L - 1)); lia.
    + symmetry. apply (Nat.div_unique _ _ _ (r - 1)); lia.
  - destruct (Nat.eqb_spec (S r) L) as [H0|H0].
    + symmetry. apply (Nat.div_unique _ _ _ 0); lia.
    + symmetry. apply (Nat.div_unique _ _ _ (S r)); lia.
  - destruct (Nat.eqb_spec (S r) L) as [H0|H0].
    + symmetry. apply (Nat.mod_unique _ _ (S q)); lia.
    + symmetry. apply (Nat.mod_unique _ _ q); lia.
Qed.

Section BatchFacts.
Import TaskIterator.
Context {X : Type}.
Variable bs : nat.

Lemma batches_length (l : list (@sample X)) n : length (batches bs l n) = n.
Proof. revert l. induction n as [|n IH]; intros l; simpl; [done|]. by rewrite IH. Qed.

Lemma batches_sizes (l : list (@sample X)) n :
  n * bs ≤ length l → Forall (λ b, length b = bs) (batches bs l n).
Proof.
  revert l. induction n as [|n IH]; intros l Hl; simpl; constructor.
  - rewrite length_take. lia.
  - apply IH. rewrite length_drop. lia.
Qed.
End BatchFacts.

Section IteratorFacts.
Import TaskIterator.
Context {X : Type}.
Variable shuffle : nat → nat → list (@sample X) → list (@sample X).
Variables (slot : nat) (ds : list (@sample X)) (bs : nat).

Let L := length ds `div` bs.

Abbreviation all_batches := (TaskIterator.all_batches shuffle slot ds bs).
Abbreviation cursor_at := (TaskIterator.cursor_at shuffle slot ds bs).

Lemma cursor_at_task_start dl k : 0 < L → cursor_at (k * L) (task_start dl k).
Proof.
  intros HL. unfold TaskIterator.cursor_at, task_start. cbv zeta. fold L. simpl.
  rewrite Nat.Div0.mod_mul, Nat.eqb_refl.
  split; [|split; [done|done]].
  apply (Nat.div_unique _ _ _ (L - 1)); lia.
Qed.

Lemma fetch_at g s :
  0 < L → cursor_at g s →
  ∃ b s', next_batch (refresh shuffle slot ds bs s) = Ok (b, s')
          ∧ all_batches (g `div` L) !! (g `mod` L) = Some b
          ∧ cursor_at (S g) s'.
Proof.
  intros HL (Hk & Hil & Hdl). fold L in Hk, Hil, Hdl.
  destruct (div_mod_succ L g HL) as (Hc & Hq & Hr).
  destruct (div_mod_succ L (S g) HL) as (Hc' & _ & _).
  replace (S g + L - 1) with (g + L) in Hc' by lia.
  pose proof (Nat.mod_upper_bound g L ltac:(lia)) as Hlt.
  unfold refresh. rewrite Hil.
  destruct (Nat.eqb_spec (g `mod` L) 0) as [H0|H0].
  - (* the loader is rebuilt *)
    simpl. unfold next_batch, get_data_loader. simpl. fold L.
    change (batches bs (shuffle slot (rebuilds s) ds) L)
      with (all_batches (rebuilds s)).
    rewrite Hk, Hc. rewrite H0 in *.
    destruct (all_batches (g `div` L)) as [|b rest] eqn:Hab.
    { exfalso. apply (f_equal length) in Hab. unfold TaskIterator.all_batches in Hab. fold L in Hab.
      rewrite batches_length in Hab. simpl in Hab. lia. }
    exists b. eexists. split; [reflexivity|]. split; [done|].
    unfold TaskIterator.cursor_at. cbv zeta. fold L.
    cbn [rebuilds iters_left data_loader].
    replace (S g + L - 1) with (g + L) by lia.
    rewrite Hc', Hr, Hq.
    apply (f_equal length) in Hab as Hlen. unfold TaskIterator.all_batches in Hlen. fold L in Hlen.
    rewrite batches_length in Hlen. simpl in Hlen.
    destruct (Nat.eqb_spec 1 L) as [H1|H1]; simpl.
    + split; [done|]. split; [lia|]. done.
    + split; [done|]. split; [lia|]. intros _. by rewrite Hab.
  - (* the loader in use still has a batch *)
    replace ((Z.of_nat (L - g `mod` L) + 1 - 1 =? 0)%Z) with false
      by (symmetry; apply Z.eqb_neq; lia).
    unfold next_batch. simpl. rewrite (Hdl H0). simpl.
    destruct (drop (g `mod` L) (all_batches (g `div` L))) as [|b rest] eqn:Hab.
    { exfalso. apply (f_equal length) in Hab. unfold TaskIterator.all_batches in Hab. fold L in Hab.
      rewrite length_drop, batches_length in Hab. simpl in Hab. lia. }
    exists b. eexists. split; [reflexivity|].
    assert (Hb : all_batches (g `div` L) !! (g `mod` L) = Some b).
    { rewrite <- (Nat.add_0_r (g `mod` L)), <- lookup_drop, Hab. done. }
    split; [done|].
    unfold TaskIterator.cursor_at. cbv zeta. fold L.
    cbn [rebuilds iters_left data_loader].
    replace (S g + L - 1) with (g + L) by lia.
    rewrite Hk, Hc, Hc', Hr, Hq.
    destruct (Nat.eqb_spec (S (g `mod` L)) L) as [H1|H1]; simpl.
    + split; [done|]. split; [lia|]. done.
    + split; [done|]. split; [lia|]. intros _.
      do 2 f_equal.
      replace (S (g `mod` L)) with (g `mod` L + 1) by lia.
      rewrite <- drop_drop, Hab. done.
Qed.

Lemma run_single_at sc cpt task n g s :
  slot = task - 1 →
  0 < L → cursor_at g s →
  ∃ out s', run_single shuffle sc cpt task ds bs n s = Ok (out, s')
    ∧ length out = n
    ∧ cursor_at (g + n) s'
    ∧ ∀ i, i < n →
        ∃ b, all_batches ((g + i) `div` L) !! ((g + i) `mod` L) = Some b
           ∧ out !! i = Some (collate
               (if sc then (Z.of_nat cpt * (Z.of_nat task - 1))%Z else 0%Z) b).
Proof.
  intros Hslot HL. revert g s.
  induction n as [|n IH]; intros g s Hs.
  - exists [], s. simpl. rewrite Nat.add_0_r.
    split; [done|]. split; [done|]. split; [done|]. intros i Hi. lia.
  - destruct (fetch_at g s HL Hs) as (b & s1 & Hf & Hb & Hs1).
    destruct (IH (S g) s1 Hs1) as (out & s' & Hrun & Hlen & Hs' & Hout).
    eexists _, s'. simpl. unfold fetch_single. rewrite <- Hslot, Hf. simpl.
    rewrite Hrun. simpl. split; [reflexivity|].
    split; [simpl; lia|].
    split; [by replace (g + S n) with (S g + n) by lia|].
    intros [|i] Hi.
    + rewrite Nat.add_0_r. exists b. done.
    + replace (g + S i) with (S g + i) by lia. apply Hout. lia.
Qed.
End IteratorFacts.

(** [mapM] in the [result] monad succeeds when every element does. *)
Lemma mapM_indexed_ok {A B} (f : nat * A → result B) (P : nat → B → Prop)
    (l : list A) (n : nat) :
  (∀ i a, l !! i = Some a → ∃ b, f (n + i, a) = Ok b ∧ P (n + i) b) →
  ∃ k, mapM f (imap (λ i a, (n + i, a)) l) = Ok k
       ∧ length k = length l
       ∧ ∀ i b, k !! i = Some b → P (n + i) b.
Proof.
  revert n. induction l as [|a l IH]; intros n H.
  - exists []. split; [done|]. split; [done|].
    intros i b Hi. by rewrite lookup_nil in Hi.
  - destruct (H 0 a eq_refl) as (b & Hb & HP).
    destruct (IH (S n)) as (k & Hk & Hlen & HPk).
    { intros i a' Hi. destruct (H (S i) a' Hi) as (b' & Hb' & HP').
      exists b'. by replace (S n + i) with (n + S i) by lia. }
    exists (b :: k). rewrite imap_cons. split; [|split].
    + change (mapM f ((n + 0, a) :: imap ((λ i a, (n + i, a)) ∘ S) l))
        with (y ← f (n + 0, a);
              r ← mapM f (imap ((λ i a, (n + i, a)) ∘ S) l); mret (y :: r)).
      rewrite Hb. simpl.
      rewrite (imap_ext _ (λ i a, (S n + i, a))); last first.
      { intros i x _. simpl. f_equal. lia. }
      rewrite Hk. done.
    + simpl. by rewrite Hlen.
    + intros [|i] b' Hi.
      * injection Hi as <-. done.
      * replace (n + S i) with (S n + i) by lia. by apply HPk.
Qed.

Section OfflineFacts.
Import TaskIterator.
Context {X : Type}.
Variable shuffle : nat → nat → list (@sample X) → list (@sample X).
Variables (classes_per_task : nat) (train_datasets : list (list (@sample X))).
Variables (batch_size task : nat) (ks : list nat).

Let bsu := batch_size_to_use batch_size task.
Let dataset (task_id : nat) := default [] (train_datasets !! task_id).
Let len (task_id : nat) := length (dataset task_id) `div` bsu.
Let start (task_id : nat) := default 0 (ks !! task_id) * len task_id.

Abbreviation cursors_at :=
  (TaskIterator.cursors_at shuffle train_datasets batch_size task ks).

Hypothesis full_batch : ∀ task_id, task_id < task → 0 < len task_id.

Lemma cursors_at_task_start : cursors_at 0 (offline_task_start task ks).
Proof.
  unfold TaskIterator.cursors_at, offline_task_start. split.
  - by rewrite length_fmap, length_seq.
  - intros task_id s Hs. rewrite list_lookup_fmap in Hs.
    destruct (seq 0 task !! task_id) as [j|] eqn:Hj; [|done].
    apply lookup_seq in Hj as [-> Hlt]. simpl in Hs. injection Hs as <-.
    rewrite Nat.add_0_r. apply cursor_at_task_start. by apply full_batch.
Qed.

Lemma fetch_offline_at g ss :
  cursors_at g ss →
  ∃ out ss', fetch_offline shuffle classes_per_task train_datasets batch_size task ss
             = Ok (out, ss')
    ∧ length out = task
    ∧ cursors_at (S g) ss'.
Proof.
  intros [Hlen Hss]. unfold fetch_offline, refresh_all.
  fold bsu.
  set (f := λ '(task_id, s), _).
  destruct (mapM_indexed_ok f
    (λ task_id (r : batch * iter_state),
       TaskIterator.cursor_at shuffle task_id (dataset task_id) bsu
         (start task_id + S g) r.2)
    (imap (λ task_id s,
             refresh shuffle task_id (default [] (train_datasets !! task_id)) bsu s) ss)
    0) as (k & Hk & Hklen & HP).
  { intros i s1 Hi. rewrite list_lookup_imap in Hi.
    destruct (ss !! i) as [s|] eqn:Hs; [|done]. simpl in Hi. injection Hi as <-.
    assert (Hlt : i < task) by (rewrite <- Hlen; by eapply lookup_lt_Some).
    destruct (fetch_at shuffle i (dataset i) bsu _ s (full_batch i Hlt) (Hss i s Hs))
      as (b & s' & Hf & _ & Hs').
    eexists. simpl. fold (dataset i). rewrite Hf. simpl. split; [reflexivity|].
    simpl. by replace (start i + S g) with (S (start i + g)) by lia. }
  simpl in Hk. rewrite Hk. simpl.
  eexists _, _. split; [reflexivity|].
  rewrite length_imap in Hklen.
  split; [by rewrite length_fmap, Hklen|].
  split; [by rewrite length_fmap, Hklen|].
  intros task_id s Hs. rewrite list_lookup_fmap in Hs.
  destruct (k !! task_id) as [r|] eqn:Hr; [|done].
  simpl in Hs. injection Hs as <-. by apply (HP task_id r).
Qed.

Lemma run_offline_at n g ss :
  cursors_at g ss →
  ∃ outs ss', run_offline shuffle classes_per_task train_datasets batch_size task n ss
              = Ok (outs, ss')
    ∧ length outs = n
    ∧ Forall (λ out, length out = task) outs
    ∧ cursors_at (g + n) ss'.
Proof.
  revert g ss. induction n as [|n IH]; intros g ss Hss.
  - exists [], ss. simpl. rewrite Nat.add_0_r.
    split; [done|]. split; [done|]. split; [constructor|done].
  - destruct (fetch_offline_at g ss Hss) as (out & ss1 & Hf & Hlen & Hss1).
    destruct (IH (S g) ss1 Hss1) as (outs & ss' & Hrun & Hn & Hall & Hss').
    eexists _, ss'. simpl. rewrite Hf. simpl. rewrite Hrun. simpl.
    split; [reflexivity|]. split; [simpl; lia|].
    split; [by constructor|].
    by replace (g + S n) with (S g + n) by lia.
Qed.
End OfflineFacts.

Lemma cursor_at_counts {X} shuffle slot (ds : list (@TaskIterator.sample X)) bs k n s :
  0 < length ds `div` bs →
  TaskIterator.cursor_at shuffle slot ds bs (k * (length ds `div` bs) + n) s →
  TaskIterator.rebuilds s
    = k + (n + length ds `div` bs - 1) `div` (length ds `div` bs)
  ∧ TaskIterator.iters_left s
    = (if n `mod` (length ds `div` bs) =? 0 then 1%Z
       else (Z.of_nat (length ds `div` bs - n `mod` (length ds `div` bs)) + 1)%Z).
Proof.
  unfold TaskIterator.cursor_at. cbv zeta. set (L := length ds `div` bs).
  intros HL (Hk & Hil & _).
  rewrite Hk, Hil. split.
  - replace (k * L + n + L - 1) with (k * L + (n + L - 1)) by lia.
    rewrite Nat.div_add_l by lia. done.
  - replace (k * L + n) with (n + k * L) by lia.
    by rewrite Nat.Div0.mod_add.
Qed.

Lemma ceil_div_pos (a b : nat) : 0 < a → 0 < b → 0 < ceil_div a b.
Proof.
  intros Ha Hb. destruct (ceil_div_bounds a b Hb) as [H _]. nia.
Qed.

Lemma collate_sizes {X} shift (b : list (@TaskIterator.sample X)) :
  length (TaskIterator.collate shift b).1 = length b
  ∧ length (TaskIterator.collate shift b).2 = length b.
Proof. unfold TaskIterator.collate. simpl. by rewrite !length_fmap. Qed.



(** ** Curation: ranking and class-balanced selection *)

Lemma mapM_result_fmap {A B} (f : A → result B) (g : A → B) (l : list A) :
  (∀ a, a ∈ l → f a = Ok (g a)) → mapM f l = Ok (g <$> l).
Proof.
  induction l as [|a l IH]; intros H; [done|].
  change (mapM f (a :: l)) with (y ← f a; r ← mapM f l; mret (y :: r)).
  rewrite (H a) by left. simpl.
  rewrite IH by (intros a' Ha'; apply H; by right). done.
Qed.

Lemma mapM_index_ok {A} (v : list A) (idx : list nat) :
  Forall (λ j, j < length v) idx →
  ∃ labels, mapM (index v) idx = Ok labels
            ∧ Forall2 (λ j a, v !! j = Some a) idx labels.
Proof.
  induction 1 as [|j idx Hj _ (labels & Hm & Hl)].
  - exists []. split; [done|constructor].
  - destruct (lookup_lt_is_Some_2 v j Hj) as [a Ha].
    exists (a :: labels).
    change (mapM (index v) (j :: idx))
      with (y ← index v j; r ← mapM (index v) idx; mret (y :: r)).
    replace (index v j) with (Ok a) by (unfold index; by rewrite Ha).
    simpl. rewrite Hm. simpl.
    split; [done|]. by constructor.
Qed.

Section SelectionFacts.
Import Selection.
Context {T : Type}.
Variable leb : T → T → bool.
Variable shuffle : list nat → list nat.

Lemma insert_desc_perm p l : insert_desc leb p l ≡ₚ p :: l.
Proof.
  induction l as [|q l IH]; simpl; [done|].
  destruct (leb q.2 p.2); [done|]. rewrite IH. apply Permutation_swap.
Qed.

Lemma sort_desc_perm l : foldr (insert_desc leb) [] l ≡ₚ l.
Proof.
  induction l as [|p l IH]; simpl; [done|].
  by rewrite insert_desc_perm, IH.
Qed.

Lemma fst_imap_pair (metric : list T) :
  (imap pair metric).*1 = seq 0 (length metric).
Proof.
  apply list_eq. intros i.
  rewrite list_lookup_fmap, list_lookup_imap.
  destruct (metric !! i) as [a|] eqn:Ha; simpl.
  - symmetry. apply lookup_seq. split; [done|]. by eapply lookup_lt_Some.
  - symmetry. apply lookup_seq_ge. by apply lookup_ge_None.
Qed.

Lemma argsort_desc_perm metric :
  argsort_desc leb metric ≡ₚ seq 0 (length metric).
Proof.
  unfold argsort_desc. rewrite sort_desc_perm. by rewrite fst_imap_pair.
Qed.

Lemma ranked_perm sm metric :
  (∀ l, shuffle l ≡ₚ l) →
  ranked leb shuffle sm metric ≡ₚ seq 0 (length metric).
Proof.
  intros Hsh. unfold ranked. case_bool_decide.
  - rewrite Hsh. apply argsort_desc_perm.
  - apply argsort_desc_perm.
Qed.

Lemma masked_filter (y_used : list nat) indices labels i :
  Forall2 (λ j a, y_used !! j = Some a) indices labels →
  masked indices labels i = filter (λ j, y_used !! j = Some i) indices.
Proof.
  unfold masked. induction 1 as [|j a indices labels Hj _ IH]; [done|].
  change (zip (j :: indices) (a :: labels)) with ((j, a) :: zip indices labels).
  rewrite (filter_cons (λ j, y_used !! j = Some i)).
  destruct (decide (a = i)) as [->|Hne].
  - rewrite filter_cons_True by done. rewrite decide_True by done.
    by rewrite fmap_cons, IH.
  - rewrite filter_cons_False by done. rewrite decide_False by congruence.
    done.
Qed.

(** *** The per-class quota *)

Lemma uniform_dist_S B n :
  uniform_dist (S B) n = uniform_dist B n ++ [B `mod` n].
Proof. unfold uniform_dist. by rewrite seq_S, fmap_app. Qed.

Lemma quota_S B n i :
  quota (S B) n i = quota B n i + (if decide (B `mod` n = i) then 1 else 0).
Proof.
  unfold quota. rewrite uniform_dist_S, filter_app, length_app.
  f_equal. rewrite filter_cons, filter_nil. by destruct (decide _).
Qed.

Lemma quota_formula B n i :
  0 < n → i < n →
  quota B n i = B `div` n + (if i <? B `mod` n then 1 else 0).
Proof.
  intros Hn Hi. induction B as [|B IH].
  - rewrite Nat.Div0.div_0_l, Nat.Div0.mod_0_l. done.
  - rewrite quota_S, IH.
    destruct (div_mod_succ n B Hn) as (_ & -> & ->).
    pose proof (Nat.mod_upper_bound B n ltac:(lia)).
    destruct (Nat.eqb_spec (S (B `mod` n)) n);
      destruct (decide (B `mod` n = i));
      destruct (Nat.ltb_spec i (B `mod` n));
      repeat match goal with
             | |- context [?a <? ?b] => destruct (Nat.ltb_spec a b)
             end; lia.
Qed.

Lemma elem_of_uniform_dist B n v :
  0 < n → n ≤ B → v ∈ uniform_dist B n ↔ v < n.
Proof.
  intros Hn HB. unfold uniform_dist. rewrite list_elem_of_fmap. split.
  - intros (j & -> & _). apply Nat.mod_upper_bound. lia.
  - intros Hv. exists v. split; [by rewrite Nat.mod_small|].
    apply elem_of_seq. lia.
Qed.

Lemma filter_seq_below (P : nat → Prop) `{∀ v, Decision (P v)} n m :
  (∀ v, P v ↔ v < n) → n ≤ m → filter P (seq 0 m) = seq 0 n.
Proof.
  intros HP Hnm. replace m with (n + (m - n)) by lia.
  rewrite seq_app, filter_app. simpl.
  replace (filter P (seq n (m - n))) with (@nil nat).
  - rewrite app_nil_r.
    assert (Hall : Forall P (seq 0 n)).
    { apply Forall_seq. intros j Hj. apply HP. lia. }
    induction Hall as [|x l Hx _ IH]; [done|].
    by rewrite filter_cons_True, IH.
  - symmetry.
    assert (Hnone : Forall (λ v, ¬ P v) (seq n (m - n))).
    { apply Forall_seq. intros j Hj. rewrite HP. lia. }
    induction Hnone as [|x l Hx _ IH]; [done|].
    by rewrite filter_cons_False.
Qed.

Lemma unique_counts_uniform B n :
  0 < n → n ≤ B →
  unique_counts (uniform_dist B n) = quota B n <$> seq 0 n.
Proof.
  intros Hn HB. unfold unique_counts.
  rewrite (filter_seq_below _ n); [done| |].
  - intros v. by apply elem_of_uniform_dist.
  - assert (n - 1 ∈ uniform_dist B n) as Hin
      by (apply elem_of_uniform_dist; lia).
    apply max_list_elem_of_le in Hin. lia.
Qed.

(** *** Selecting per class *)

Lemma filter_take_other (y_used : list nat) (l : list nat) c i k :
  c ≠ i →
  filter (λ j, y_used !! j = Some i)
         (take k (filter (λ j, y_used !! j = Some c) l)) = [].
Proof.
  intros Hne.
  assert (Hall : Forall (λ j, y_used !! j = Some c)
                   (take k (filter (λ j, y_used !! j = Some c) l))).
  { apply Forall_take, Forall_forall. intros j Hj.
    by apply list_elem_of_filter in Hj as [? _]. }
  induction Hall as [|x l' Hx _ IH]; [done|].
  rewrite filter_cons_False by congruence. done.
Qed.

Lemma filter_take_same (y_used : list nat) (l : list nat) i k :
  filter (λ j, y_used !! j = Some i)
         (take k (filter (λ j, y_used !! j = Some i) l))
  = take k (filter (λ j, y_used !! j = Some i) l).
Proof.
  assert (Hall : Forall (λ j, y_used !! j = Some i)
                   (take k (filter (λ j, y_used !! j = Some i) l))).
  { apply Forall_take, Forall_forall. intros j Hj.
    by apply list_elem_of_filter in Hj as [? _]. }
  induction Hall as [|x l' Hx _ IH]; [done|].
  by rewrite filter_cons_True, IH.
Qed.

Lemma filter_concat_classes (y_used l : list nat) (q : nat → nat) n i :
  filter (λ j, y_used !! j = Some i)
    (concat ((λ c, take (q c) (filter (λ j, y_used !! j = Some c) l))
               <$> seq 0 n))
  = if decide (i < n)
    then take (q i) (filter (λ j, y_used !! j = Some i) l) else [].
Proof.
  induction n as [|n IH]; [done|].
  rewrite seq_S, fmap_app, concat_app, filter_app, IH. simpl.
  rewrite app_nil_r.
  destruct (decide (i < n)), (decide (i < S n)); try lia.
  - rewrite filter_take_other by lia. by rewrite app_nil_r.
  - replace n with i by lia. by rewrite filter_take_same.
  - rewrite filter_take_other by lia. done.
Qed.
End SelectionFacts.

Lemma quota_within_one B n i :
  0 < n → i < n → Selection.within_one (Selection.quota B n i) B n.
Proof.
  intros Hn Hi. unfold Selection.within_one.
  rewrite (quota_formula B n i Hn Hi).
  pose proof (Nat.div_mod_eq B n) as Hdm.
  pose proof (Nat.mod_upper_bound B n ltac:(lia)) as Hlt.
  destruct (i <? B `mod` n); nia.
Qed.

(** With class balancing, the selected indices are the per-class prefixes of
    the ranking, class after class. *)
Lemma select_indices_balanced {T} (leb : T → T → bool) shuffle sm
    (metric : list T) (y_used : list nat) batch_size_replay allowed_classes :
  sm ≠ sm_random_large →
  sm ≠ sm_curated_softmax →
  (∀ l, shuffle l ≡ₚ l) →
  length y_used = length metric →
  1 ≤ length allowed_classes ≤ batch_size_replay →
  Selection.select_indices leb shuffle sm metric y_used batch_size_replay
    (Some allowed_classes)
  = Ok (concat ((λ c, take (Selection.quota batch_size_replay
                              (length allowed_classes) c)
                        (filter (λ j, y_used !! j = Some c)
                                (Selection.ranked leb shuffle sm metric)))
                  <$> seq 0 (length allowed_classes))).
Proof.
  intros Hrl Hcs Hsh Hlen [Hn HB].
  set (n := length allowed_classes) in *.
  set (ranking := Selection.ranked leb shuffle sm metric).
  pose proof (ranked_perm leb shuffle sm metric Hsh) as Hperm.
  fold ranking in Hperm.
  assert (Hbound : Forall (λ j, j < length y_used) ranking).
  { apply Forall_forall. intros j Hj. rewrite Hperm in Hj.
    apply elem_of_seq in Hj. lia. }
  destruct (mapM_index_ok y_used ranking Hbound) as (labels & Hlabels & Hl2).
  unfold Selection.select_indices. fold ranking. fold n.
  rewrite bool_decide_eq_true_2 by done.
  replace (n =? 0) with false by (symmetry; apply Nat.eqb_neq; lia).
  rewrite Hlabels. simpl.
  rewrite (mapM_result_fmap _
             (λ c, take (Selection.quota batch_size_replay n c)
                     (filter (λ j, y_used !! j = Some c) ranking))); [done|].
  intros c Hc. apply elem_of_seq in Hc.
  rewrite unique_counts_uniform by lia.
  unfold index. rewrite list_lookup_fmap, lookup_seq_lt by lia. simpl.
  by rewrite (masked_filter y_used ranking labels c Hl2).
Qed.

(** C2 (amended). For every sample method other than [random_large] and
    [curated_softmax] - [uniform_large] included, which shuffles the ranking
    first - and [1 <= n <= replay_size] allowed classes, selection succeeds
    and, for each class [i < n], keeps exactly the first [quota i] candidates
    of class [i] in the (possibly shuffled) ranking, or all of them when the
    pool holds fewer.  The quota is [replay_size // n], plus one for the first
    [replay_size mod n] classes, so the count is within one of
    [replay_size / n] whenever the pool holds [quota i] candidates of class
    [i].  The ranking is a permutation of the pool. *)
Theorem C2_balanced_selection
    {T : Type} (leb : T → T → bool) (shuffle : list nat → list nat)
    (sm : sample_method) (metric : list T) (y_used : list nat)
    (batch_size_replay : nat) (allowed_classes : list nat) :
  sm ≠ sm_random_large →
  sm ≠ sm_curated_softmax →
  (∀ l, shuffle l ≡ₚ l) →
  length y_used = length metric →
  1 ≤ length allowed_classes ≤ batch_size_replay →
  let n := length allowed_classes in
  let ranking := Selection.ranked leb shuffle sm metric in
  ranking ≡ₚ seq 0 (length metric)
  ∧ ∃ idx,
      Selection.select_indices leb shuffle sm metric y_used batch_size_replay
        (Some allowed_classes) = Ok idx
      ∧ ∀ i, i < n →
          let quota := Selection.quota batch_size_replay n i in
          filter (λ j, y_used !! j = Some i) idx
          = take quota (filter (λ j, y_used !! j = Some i) ranking)
          ∧ Selection.class_count y_used idx i
            = quota `min` Selection.class_count y_used ranking i
          ∧ quota = batch_size_replay `div` n
                    + (if i <? batch_size_replay `mod` n then 1 else 0)
          ∧ (quota ≤ Selection.class_count y_used ranking i →
             Selection.within_one (Selection.class_count y_used idx i)
                                  batch_size_replay n).
Proof.
  intros Hrl Hcs Hsh Hlen [Hn HB] n ranking.
  pose proof (ranked_perm leb shuffle sm metric Hsh) as Hperm.
  fold ranking in Hperm. split; [done|].
  exists (concat ((λ c, take (Selection.quota batch_size_replay n c)
                          (filter (λ j, y_used !! j = Some c) ranking)) <$> seq 0 n)).
  split.
  - by apply select_indices_balanced.
  - intros i Hi quota.
    assert (Hf : filter (λ j, y_used !! j = Some i)
                   (concat ((λ c, take (Selection.quota batch_size_replay n c)
                                    (filter (λ j, y_used !! j = Some c) ranking)) <$> seq 0 n))
                 = take quota (filter (λ j, y_used !! j = Some i) ranking)).
    { rewrite filter_concat_classes.
      by rewrite decide_True by done. }
    split; [done|].
    assert (Hc : Selection.class_count y_used
                   (concat ((λ c, take (Selection.quota batch_size_replay n c)
                                    (filter (λ j, y_used !! j = Some c) ranking)) <$> seq 0 n)) i
                 = quota `min` Selection.class_count y_used ranking i).
    { unfold Selection.class_count. rewrite Hf.
      by rewrite length_take. }
    split; [done|].
    split; [apply quota_formula; lia|].
    intros Hq. rewrite Hc, Nat.min_l by done.
    apply quota_within_one; lia.
Qed.

Lemma C2_balanced_selection_witness :
  ∃ idx,
    Selection.select_indices Z.leb (λ l, l) sm_uniform_large [4; 3; 2; 1; 8; 7; 6; 5]%Z
      [0; 0; 0; 1; 1; 0; 1; 1] 3 (Some [0; 1]) = Ok idx
    ∧ Selection.class_count [0; 0; 0; 1; 1; 0; 1; 1] idx 0 = 2
    ∧ Selection.class_count [0; 0; 0; 1; 1; 0; 1; 1] idx 1 = 1.
Proof.
  destruct (C2_balanced_selection Z.leb (λ l, l) sm_uniform_large
              [4; 3; 2; 1; 8; 7; 6; 5]%Z [0; 0; 0; 1; 1; 0; 1; 1] 3 [0; 1])
    as (_ & idx & Hidx & Hcls).
  - discriminate.
  - discriminate.
  - intros l. reflexivity.
  - reflexivity.
  - simpl. lia.
  - exists idx. split; [exact Hidx|].
    destruct (Hcls 0) as (_ & H0 & _); [simpl; lia|].
    destruct (Hcls 1) as (_ & H1 & _); [simpl; lia|].
    split; [exact H0|exact H1].
Defined.

(** C2 as stated fails three ways (metric and labels of a pool of 4 or 8,
    two allowed classes, identity shuffle):
    - [curated_softmax] is not balanced: it keeps the whole ranked pool, here
      3 candidates of class 0 where 2/2 = 1 is asked for;
    - [uniform_large] is balanced rather than a prefix of the shuffled
      ranking: it returns candidates 0 and 3, not 0 and 1;
    - [curated] on a pool without candidates of class 1 returns none of that
      class, where 4/2 = 2 are asked for. *)
Lemma C2_balanced_selection_counterexample :
  (Selection.select_indices Z.leb (λ l, l) sm_curated_softmax [4; 3; 2; 1]%Z
     [0; 0; 0; 1] 2 (Some [0; 1]) = Ok [0; 1; 2; 3]
   ∧ Selection.class_count [0; 0; 0; 1] [0; 1; 2; 3] 0 = 3
   ∧ ¬ Selection.within_one 3 2 2)
  ∧ (Selection.select_indices Z.leb (λ l, l) sm_uniform_large [4; 3; 2; 1]%Z
       [0; 0; 0; 1] 2 (Some [0; 1]) = Ok [0; 3]
     ∧ take 2 (Selection.ranked Z.leb (λ l, l) sm_uniform_large [4; 3; 2; 1]%Z) = [0; 1])
  ∧ (Selection.select_indices Z.leb (λ l, l) sm_curated [8; 7; 6; 5; 4; 3; 2; 1]%Z
       [0; 0; 0; 0; 0; 0; 0; 0] 4 (Some [0; 1]) = Ok [0; 1]
     ∧ Selection.class_count [0; 0; 0; 0; 0; 0; 0; 0] [0; 1] 1 = 0
     ∧ ¬ Selection.within_one 0 4 2).
Proof.
  unfold Selection.within_one.
  split; [|split]; (split; [vm_compute; reflexivity|]);
    try (split; [vm_compute; reflexivity|]); try (vm_compute; reflexivity); lia.
Qed.

(** *** Size of the selected batch *)

Lemma mapM_index_perm {A} (x_ : list A) (idx : list nat) :
  idx ≡ₚ seq 0 (length x_) →
  ∃ l, mapM (index x_) idx = Ok l ∧ length l = length x_.
Proof.
  intros Hperm.
  destruct (mapM_index_ok x_ idx) as (l & Hl & Hl2).
  { apply Forall_forall. intros j Hj. rewrite Hperm in Hj.
    apply elem_of_seq in Hj. lia. }
  exists l. split; [done|].
  rewrite <- (Forall2_length _ _ _ Hl2), (Permutation_length Hperm).
  apply length_seq.
Qed.

(** Without class balancing the whole pool is kept, whatever
    [batch_size_replay] is. *)
Lemma select_unbalanced_size {T X} (leb : T → T → bool) shuffle sm
    (x_ : list X) (metric : list T) y_used batch_size_replay allowed_classes :
  sm = sm_random_large ∨ sm = sm_curated_softmax →
  (∀ l, shuffle l ≡ₚ l) →
  length metric = length x_ →
  ∃ l, Selection.select leb shuffle sm x_ metric y_used batch_size_replay
         allowed_classes = Ok l
       ∧ length l = length x_.
Proof.
  intros Hsm Hsh Hlen. unfold Selection.select, Selection.select_indices.
  rewrite bool_decide_eq_false_2 by (intros [? ?]; destruct Hsm; done).
  simpl. apply mapM_index_perm. rewrite <- Hlen. by apply ranked_perm.
Qed.

(** With class balancing and enough candidates of every class in the pool,
    the batch has [batch_size_replay] elements. *)
Lemma sum_list_indicator_upto (r m : nat) :
  sum_list ((λ i, if decide (r = i) then 1 else 0) <$> seq 0 m)
  = if decide (r < m) then 1 else 0.
Proof.
  induction m as [|m IH]; [done|].
  rewrite seq_S, fmap_app, sum_list_with_app, IH. simpl.
  destruct (decide (r < m)), (decide (r = m)), (decide (r < S m)); lia.
Qed.

Lemma sum_list_indicator (r n : nat) :
  r < n → sum_list ((λ i, if decide (r = i) then 1 else 0) <$> seq 0 n) = 1.
Proof. intros Hr. rewrite sum_list_indicator_upto. by rewrite decide_True. Qed.

Lemma length_concat_sum {A} (ls : list (list A)) :
  length (concat ls) = sum_list (length <$> ls).
Proof.
  induction ls as [|l ls IH]; [done|]. simpl. rewrite length_app, IH. done.
Qed.

Lemma Forall_concat_2 {A} (P : A → Prop) (ls : list (list A)) :
  Forall (Forall P) ls → Forall P (concat ls).
Proof.
  induction 1 as [|l ls Hl _ IH]; simpl; [constructor|]. by apply Forall_app.
Qed.

Lemma quota_sum (B n : nat) :
  0 < n → sum_list (Selection.quota B n <$> seq 0 n) = B.
Proof.
  intros Hn. induction B as [|B IH].
  - rewrite (sum_list_fmap_same 0); [lia|]. by apply Forall_forall.
  - assert (H : ∀ l : list nat,
              sum_list (Selection.quota (S B) n <$> l)
              = sum_list (Selection.quota B n <$> l)
                + sum_list ((λ i, if decide (B `mod` n = i) then 1 else 0) <$> l)).
    { induction l as [|a l IHl]; [done|]. csimpl. rewrite IHl, quota_S. lia. }
    rewrite H, IH, sum_list_indicator; [lia|].
    apply Nat.mod_upper_bound. lia.
Qed.

Lemma select_balanced_size {T X} (leb : T → T → bool) shuffle sm
    (x_ : list X) (metric : list T) y_used batch_size_replay allowed_classes :
  sm ≠ sm_random_large →
  sm ≠ sm_curated_softmax →
  (∀ l, shuffle l ≡ₚ l) →
  length y_used = length metric →
  length metric = length x_ →
  1 ≤ length allowed_classes ≤ batch_size_replay →
  (∀ i, i < length allowed_classes →
     Selection.quota batch_size_replay (length allowed_classes) i
     ≤ Selection.class_count y_used (Selection.ranked leb shuffle sm metric) i) →
  ∃ l, Selection.select leb shuffle sm x_ metric y_used batch_size_replay
         (Some allowed_classes) = Ok l
       ∧ length l = batch_size_replay.
Proof.
  intros Hrl Hcs Hsh Hlen Hx Hn Hpool.
  pose proof (select_indices_balanced leb shuffle sm metric y_used
                batch_size_replay allowed_classes Hrl Hcs Hsh Hlen Hn) as Hidx.
  pose proof (ranked_perm leb shuffle sm metric Hsh) as Hperm.
  set (n := length allowed_classes) in *.
  set (ranking := Selection.ranked leb shuffle sm metric) in *.
  unfold Selection.select. rewrite Hidx. rewrite bind_Ok.
  destruct (mapM_index_ok x_
              (concat ((λ c, take (Selection.quota batch_size_replay n c)
                               (filter (λ j, y_used !! j = Some c) ranking))
                         <$> seq 0 n))) as (l & Hl & Hl2).
  { apply Forall_concat_2, Forall_fmap, Forall_forall. intros c _. simpl.
    apply Forall_take, Forall_forall. intros j Hj.
    apply list_elem_of_filter in Hj as [_ Hj]. rewrite Hperm in Hj.
    apply elem_of_seq in Hj. lia. }
  exists l. split; [done|].
  rewrite <- (Forall2_length _ _ _ Hl2), length_concat_sum.
  rewrite <- list_fmap_compose.
  transitivity (sum_list (Selection.quota batch_size_replay n <$> seq 0 n));
    [|apply quota_sum; lia].
  f_equal. apply list_fmap_ext. intros k c Hc. simpl.
  apply lookup_seq in Hc as [-> Hc].
  rewrite length_take. simpl. specialize (Hpool k Hc).
  unfold Selection.class_count in Hpool. lia.
Qed.

(** C3 at a failing input: [random_large] (and [curated_softmax]) with
    [batch_size_replay = 2] and [curated_multiplier = 2].  The generator is
    asked for 4 candidates, and all 4 are handed on as the replay batch. *)
Theorem C3_unbalanced_methods_keep_whole_pool :
  ReplaySampler.req_count
    (ReplaySampler.request sm_random_large 2 2 (Some [0; 1]) [0] ([] : list Z)) = 4
  ∧ Selection.select Z.leb (λ l, l) sm_random_large ["a"; "b"; "c"; "d"]
      [4; 3; 2; 1]%Z [0; 0; 1; 1] 2 (Some [0; 1])
    = Ok ["a"; "b"; "c"; "d"]
  ∧ Selection.select Z.leb (λ l, l) sm_curated_softmax ["a"; "b"; "c"; "d"]
      [1; 2; 3; 4]%Z [0; 0; 1; 1] 2 (Some [0; 1])
    = Ok ["d"; "c"; "b"; "a"]
  ∧ length ["a"; "b"; "c"; "d"] ≠ 2.
Proof. vm_compute. repeat split; lia. Qed.

(** ** Curation: the store during one curation step *)

Section CurationFacts.
Import Curation.
Context {T Input MS : Type}.
Variable ops : tensor_ops T.
Variable classify_fn : MS → list Input → bool → matrix T * MS.
Variable train_a_batch_fn : MS → train_args T Input → MS.
Variable shuffle : list nat → list nat.

Abbreviation M := (@M MS).
Abbreviation scores_old_of := (Curation.scores_old_of ops classify_fn).
Abbreviation clone_state := (Curation.clone_state classify_fn train_a_batch_fn).

Lemma bind_lift_store {A B} (r : result A) (g : A → M B) σ :
  (∀ a, (g a σ).2 = σ) → (bind (lift r) g σ).2 = σ.
Proof. intros Hg. unfold bind, lift. destruct r; [apply Hg|done]. Qed.

Lemma classify_run (obj : nat) x_ nh (σ : gmap nat MS) (m : MS) :
  σ !! obj = Some m →
  classify classify_fn obj x_ nh σ
  = (Ok (classify_fn m x_ nh).1, <[obj := (classify_fn m x_ nh).2]> σ).
Proof. intros H. unfold classify. rewrite H. by destruct (classify_fn m x_ nh). Qed.

Lemma score_old_run (model : nat) x_ y_used cpt task G (σ : gmap nat MS) (m : MS) :
  σ !! model = Some m →
  score_old ops classify_fn model x_ y_used cpt task G σ
  = ((λ loss_old, (scores_old_of m x_ cpt task G, loss_old))
       <$> cross_entropy ops (scores_old_of m x_ cpt task G) y_used,
     <[model := (classify_fn m x_ (if G then false else true)).2]> σ).
Proof.
  intros H. unfold score_old, bind. rewrite (classify_run _ _ _ _ _ H).
  unfold lift, Curation.scores_old_of.
  by destruct (cross_entropy _ _ _).
Qed.

Lemma forget_step_run (model : nat) x y task_used ac task rnt fc G
    (σ : gmap nat MS) (m : MS) :
  σ !! model = Some m →
  forget_step train_a_batch_fn model x y task_used ac task rnt fc G σ
  = (Ok (fresh (dom σ)),
     <[fresh (dom σ) :=
         train_a_batch_fn m (forget_args x y task_used ac task rnt fc G)]> σ).
Proof.
  intros H. unfold forget_step, bind, deepcopy, train_a_batch, ret.
  rewrite H, lookup_insert_eq. by rewrite insert_insert_eq.
Qed.

Lemma score_new_run (model_tmp : nat) x_ cpt task G (σ : gmap nat MS) (m : MS) :
  σ !! model_tmp = Some m →
  score_new ops classify_fn model_tmp x_ cpt task G σ
  = (Ok (softmax_rows ops
           (slice_cols (Z.to_nat (Z.of_nat cpt * (Z.of_nat task - 2 + 2)))
                       (classify_fn m x_ (if G then false else true)).1)),
     <[model_tmp := (classify_fn m x_ (if G then false else true)).2]> σ).
Proof.
  intros H. unfold score_new, bind, ret. by rewrite (classify_run _ _ _ _ _ H).
Qed.

Lemma curation_eq sm (model : nat) x y x_ y_used task_used vv ac cpt task rnt
    fc (G : bool) B allowed w mir (σ : gmap nat MS) (m : MS) loss_old :
  σ !! model = Some m →
  cross_entropy ops (scores_old_of m x_ cpt task G) y_used = Ok loss_old →
  let nh := if G then false else true in
  let σ1 := <[model := (classify_fn m x_ nh).2]> σ in
  let a := forget_args x y task_used ac task rnt fc G in
  let scores_new :=
    softmax_rows ops
      (slice_cols (Z.to_nat (Z.of_nat cpt * (Z.of_nat task - 2 + 2)))
         (classify_fn (train_a_batch_fn (classify_fn m x_ nh).2 a) x_ nh).1) in
  curation ops classify_fn train_a_batch_fn shuffle sm model x y x_
    y_used task_used vv ac cpt task rnt fc G B allowed w mir σ
  = (metric ← compute_metric ops sm (scores_old_of m x_ cpt task G) scores_new
                loss_old y_used vv w mir;
     x_new ← Selection.select (t_leb ops) shuffle sm x_ metric y_used B allowed;
     mret (Curated loss_old metric x_new),
     <[fresh (dom σ1) := clone_state m x_ a G]> σ1).
Proof.
  intros H Hce nh σ1 a scores_new. unfold curation.
  unfold bind at 1. rewrite (score_old_run _ _ _ _ _ _ _ _ H), Hce. simpl.
  fold nh. fold σ1.
  assert (H1 : σ1 !! model = Some (classify_fn m x_ nh).2)
    by apply lookup_insert_eq.
  unfold bind at 1. rewrite (forget_step_run _ _ _ _ _ _ _ _ _ _ _ H1).
  unfold bind at 1.
  rewrite (score_new_run _ _ _ _ _ _ _ (lookup_insert_eq _ _ _)).
  rewrite insert_insert_eq.
  fold a. fold nh. fold scores_new. fold (clone_state m x_ a G).
  unfold bind, lift, ret.
  destruct (compute_metric _ _ _ _ _ _ _ _ _) as [metric|e]; [|done].
  simpl. by destruct (Selection.select _ _ _ _ _ _ _ _).
Qed.

Lemma curation_run sm (model : nat) x y x_ y_used task_used vv ac cpt task rnt
    fc (G : bool) B allowed w mir (σ : gmap nat MS) (m : MS) :
  σ !! model = Some m →
  let nh := if G then false else true in
  let σ1 := <[model := (classify_fn m x_ nh).2]> σ in
  let r := curation ops classify_fn train_a_batch_fn shuffle sm model x y x_
             y_used task_used vv ac cpt task rnt fc G B allowed w mir σ in
  match cross_entropy ops (scores_old_of m x_ cpt task G) y_used with
  | Err e => r = (Err e, σ1)
  | Ok loss_old =>
      r.2 = <[fresh (dom σ1) :=
                clone_state m x_ (forget_args x y task_used ac task rnt fc G) G]> σ1
      ∧ ∀ c : @curated T Input, r.1 = Ok c → cur_loss_old c = loss_old
  end.
Proof.
  intros H nh σ1 r.
  destruct (cross_entropy ops _ y_used) as [loss_old|e] eqn:Hce.
  - subst r. rewrite (curation_eq _ _ _ _ _ _ _ _ _ _ _ _ _ _ _ _ _ _ _ _ _ H Hce).
    split; [done|]. simpl. intros c.
    destruct (compute_metric _ _ _ _ _ _ _ _ _) as [metric|e]; [|done].
    simpl. destruct (Selection.select _ _ _ _ _ _ _ _); [|done].
    simpl. by intros [= <-].
  - subst r. unfold curation. unfold bind at 1.
    by rewrite (score_old_run _ _ _ _ _ _ _ _ H), Hce.
Qed.
End CurationFacts.

(** C9. Whatever the inputs, after the curation block the object [model]
    refers to is in the state in which the scoring pass of line 335 left it,
    that is, its state when the copy was made; every other object that
    existed before is untouched; and the only object the block adds or writes
    after line 335 is the copy, which is fresh and is the one the training
    step was run on. *)
Theorem C9_clone_never_touches_model
    {T Input MS : Type} (ops : tensor_ops T)
    (classify_fn : MS → list Input → bool → matrix T * MS)
    (train_a_batch_fn : MS → train_args T Input → MS)
    (shuffle : list nat → list nat)
    sm (model : nat) x y x_ y_used task_used varietyVector active_classes
    classes_per_task task rnt freeze_convE (Generative : bool) batch_size_replay
    allowed_classes variety_weight mir_coef (σ : gmap nat MS) (m : MS) :
  σ !! model = Some m →
  let not_hidden := if Generative then false else true in
  let before_copy := (classify_fn m x_ not_hidden).2 in
  let σ' := (Curation.curation ops classify_fn train_a_batch_fn shuffle sm model
               x y x_ y_used task_used varietyVector active_classes
               classes_per_task task rnt freeze_convE Generative
               batch_size_replay allowed_classes variety_weight mir_coef σ).2 in
  σ' !! model = Some before_copy
  ∧ (∀ l, l ≠ model → l ∈ dom σ → σ' !! l = σ !! l)
  ∧ (∀ l, l ∉ dom σ → is_Some (σ' !! l) →
       l = fresh (dom σ)
       ∧ σ' !! l = Some (Curation.clone_state classify_fn train_a_batch_fn m x_
                           (Curation.forget_args x y task_used active_classes task
                              rnt freeze_convE Generative) Generative)).
Proof.
  intros H nh before_copy σ'.
  pose proof (curation_run ops classify_fn train_a_batch_fn shuffle sm model x y
                x_ y_used task_used varietyVector active_classes classes_per_task
                task rnt freeze_convE Generative batch_size_replay allowed_classes
                variety_weight mir_coef σ m H) as Hrun.
  simpl in Hrun. fold nh in Hrun. fold before_copy in Hrun. fold σ' in Hrun.
  set (σ1 := <[model := before_copy]> σ) in *.
  assert (Hdom : dom σ1 = dom σ).
  { subst σ1. rewrite dom_insert_L.
    apply elem_of_dom_2 in H. apply leibniz_equiv.
    rewrite subseteq_union_1; [done|]. by apply singleton_subseteq_l. }
  assert (Hfresh : fresh (dom σ1) ∉ dom σ) by (rewrite <- Hdom; apply is_fresh).
  assert (Hmodel : model ∈ dom σ) by (apply elem_of_dom; eauto).
  assert (Hσ' : σ' = σ1 ∨ ∃ c, σ' = <[fresh (dom σ1) := c]> σ1
                             ∧ c = Curation.clone_state classify_fn train_a_batch_fn
                                     m x_
                                     (Curation.forget_args x y task_used
                                        active_classes task rnt freeze_convE
                                        Generative) Generative).
  { destruct (Curation.cross_entropy _ _ _) as [loss_old|e].
    - right. destruct Hrun as [Hrun _]. rewrite Hrun. eauto.
    - left. subst σ'. by rewrite Hrun. }
  destruct Hσ' as [->|(c & -> & Hc)].
  - subst σ1. split; [apply lookup_insert_eq|]. split.
    + intros l Hl _. by apply lookup_insert_ne.
    + intros l Hl [v Hv]. exfalso. apply Hl.
      destruct (decide (model = l)) as [<-|Hne]; [done|].
      rewrite lookup_insert_ne in Hv by done. apply elem_of_dom. eauto.
  - assert (fresh (dom σ1) ≠ model) by (intros Heq; by rewrite Heq in Hfresh).
    split; [|split].
    + rewrite lookup_insert_ne by done. subst σ1. apply lookup_insert_eq.
    + intros l Hl Hin.
      rewrite lookup_insert_ne by (intros <-; done).
      subst σ1. by apply lookup_insert_ne.
    + intros l Hl [v Hv].
      destruct (decide (fresh (dom σ1) = l)) as [<-|Hne].
      * split; [by rewrite Hdom|]. by rewrite lookup_insert_eq, Hc.
      * exfalso. apply Hl. rewrite lookup_insert_ne in Hv by done.
        rewrite <- Hdom. apply elem_of_dom. eauto.
Qed.

Section RealFacts.
Open Scope R_scope.

Lemma cross_entropy_pair (p q : R) :
  RealOps.cross_entropy [p; q] 0 = ln (1 + exp (q - p)).
Proof.
  unfold RealOps.cross_entropy, RealOps.sum. simpl.
  replace (exp p + (exp q + 0)) with (exp p * (1 + exp (q - p))).
  - rewrite ln_mult.
    + rewrite ln_exp. lra.
    + apply exp_pos.
    + pose proof (exp_pos (q - p)). lra.
  - rewrite Rmult_plus_distr_l, <- exp_plus.
    replace (p + (q - p)) with q by lra. lra.
Qed.

Lemma cross_entropy_softmax_pair (a b : R) :
  RealOps.cross_entropy (RealOps.softmax [a; b]) 0
  = ln (1 + exp ((exp b - exp a) / (exp a + exp b))).
Proof.
  unfold RealOps.softmax, RealOps.sum. simpl.
  rewrite cross_entropy_pair. do 3 f_equal.
  pose proof (exp_pos a). pose proof (exp_pos b).
  replace (exp a + (exp b + 0)) with (exp a + exp b) by lra.
  field. lra.
Qed.

Lemma loss_differs :
  RealOps.cross_entropy (RealOps.softmax [1 * 1; 0]) 0
  < RealOps.cross_entropy (RealOps.softmax [0 * 1; 0]) 0.
Proof.
  rewrite !cross_entropy_softmax_pair.
  rewrite Rmult_1_l, Rmult_0_l.
  pose proof (exp_pos 0) as H0. pose proof (exp_pos 1) as H1.
  assert (Hlt : exp 0 < exp 1) by (apply exp_increasing; lra).
  replace ((exp 0 - exp 0) / (exp 0 + exp 0)) with 0 by (field; lra).
  apply ln_increasing.
  - pose proof (exp_pos ((exp 0 - exp 1) / (exp 1 + exp 0))). lra.
  - apply Rplus_lt_compat_l, exp_increasing.
    apply Rmult_lt_reg_r with (exp 1 + exp 0); [lra|].
    unfold Rdiv. rewrite Rmult_assoc, Rinv_l by lra. lra.
Qed.
End RealFacts.

Lemma toy_scored_by (obj : nat) (w : R) :
  Toy.store !! obj = Some w →
  (Curation.score_old RealOps.real_ops Toy.classify_fn obj [1%R] [0] 2 2 true
     Toy.store).1
  = Ok (Matrix 2 [RealOps.softmax [w * 1; 0]%R],
        [RealOps.cross_entropy (RealOps.softmax [w * 1; 0]%R) 0]).
Proof.
  intros H. rewrite (score_old_run _ _ _ _ _ _ _ _ _ _ H). reflexivity.
Qed.

(** C1 at a failing input: task 2 with two classes per task, one candidate
    [x_ = [1]] labelled 0, after the model (weight 1) has moved away from its
    snapshot [previous_model] (weight 0).  The [loss_old] the curation block
    computes is the cross-entropy under the current model; it differs from
    the cross-entropy under the frozen snapshot, which the block never
    queries. *)
Theorem C1_loss_old_scored_by_current_model :
  let scored_by obj :=
    (Curation.score_old RealOps.real_ops Toy.classify_fn obj [1%R] [0] 2 2 true
       Toy.store).1 in
  ∃ l_cur l_prev : R,
    (∃ s, scored_by Toy.model = Ok (s, [l_cur]))
    ∧ (∃ s, scored_by Toy.previous_model = Ok (s, [l_prev]))
    ∧ l_cur ≠ l_prev
    ∧ (∀ shuffle sm x y task_used vv ac rnt fc B allowed w mir c σ',
         Curation.curation RealOps.real_ops Toy.classify_fn Toy.train_a_batch_fn
           shuffle sm Toy.model x y [1%R] [0] task_used vv ac 2 2 rnt fc true
           B allowed w mir Toy.store = (Ok c, σ') →
         Curation.cur_loss_old c = [l_cur])
    ∧ ∃ c σ',
        Curation.curation RealOps.real_ops Toy.classify_fn Toy.train_a_batch_fn
          (λ l, l) sm_curated Toy.model (Some [2%R]) (Some [2%Z]) [1%R] [0]
          RNone None (ActiveFlat [0; 1; 2; 3]) 2 2 None false true
          1 (Some [0]) (1 / 2)%R (1 / 10)%R Toy.store = (Ok c, σ').
Proof.
  intros scored_by.
  exists (RealOps.cross_entropy (RealOps.softmax [1 * 1; 0]%R) 0),
         (RealOps.cross_entropy (RealOps.softmax [0 * 1; 0]%R) 0).
  split; [eexists; by apply toy_scored_by|].
  split; [eexists; by apply toy_scored_by|].
  split; [apply Rlt_not_eq, loss_differs|].
  split.
  - intros shuffle sm x y task_used vv ac rnt fc B allowed w mir c σ' Hrun.
    pose proof (curation_run RealOps.real_ops Toy.classify_fn
                  Toy.train_a_batch_fn shuffle sm Toy.model x y [1%R] [0]
                  task_used vv ac 2 2 rnt fc true B allowed w mir Toy.store 1%R
                  eq_refl) as H.
    change (Curation.cross_entropy RealOps.real_ops
              (Curation.scores_old_of RealOps.real_ops Toy.classify_fn 1%R [1%R] 2 2 true) [0])
      with (Ok [RealOps.cross_entropy (RealOps.softmax [1 * 1; 0]%R) 0]) in H.
    simpl in H. destruct H as [_ H]. apply H. by rewrite Hrun.
  - assert (Hce : Curation.cross_entropy RealOps.real_ops
                    (Curation.scores_old_of RealOps.real_ops Toy.classify_fn 1%R [1%R] 2 2 true)
                    [0]
                  = Ok [RealOps.cross_entropy (RealOps.softmax [1 * 1; 0]%R) 0])
      by reflexivity.
    rewrite (curation_eq RealOps.real_ops Toy.classify_fn Toy.train_a_batch_fn
               (λ l, l) sm_curated Toy.model (Some [2%R]) (Some [2%Z]) [1%R] [0]
               RNone None (ActiveFlat [0; 1; 2; 3]) 2 2 None false true
               1 (Some [0]) (1 / 2)%R (1 / 10)%R Toy.store 1%R _ eq_refl Hce).
    eexists _, _. reflexivity.
Qed.

Lemma C9_clone_never_touches_model_witness :
  let σ' :=
    (Curation.curation RealOps.real_ops Toy.classify_fn Toy.train_a_batch_fn
       (λ l, l) sm_curated Toy.model (Some [2%R]) (Some [2%Z]) [1%R] [0]
       RNone None (ActiveFlat [0; 1; 2; 3]) 2 2 None false true
       1 (Some [0]) (1 / 2)%R (1 / 10)%R Toy.store).2 in
  σ' !! Toy.model = Some 1%R
  ∧ σ' !! Toy.previous_model = Some 0%R
  ∧ σ' !! 2 = Some (1 + 1)%R.
Proof.
  intros σ'.
  destruct (C9_clone_never_touches_model RealOps.real_ops Toy.classify_fn
              Toy.train_a_batch_fn (λ l, l) sm_curated Toy.model
              (Some [2%R]) (Some [2%Z]) [1%R] [0]
              RNone None (ActiveFlat [0; 1; 2; 3]) 2 2 None false true
              1 (Some [0]) (1 / 2)%R (1 / 10)%R Toy.store 1%R)
    as (Hmodel & Hframe & Hnew).
  - reflexivity.
  - split; [exact Hmodel|]. split.
    + apply (Hframe Toy.previous_model); [discriminate|].
      apply elem_of_dom. exists 0%R. reflexivity.
    + reflexivity.
Defined.

(** ** Target Labeler *)

Lemma mapM_result_Forall {A B} (f : A → result B) (P : A → B → Prop) (l : list A) :
  Forall (λ a, ∃ b, f a = Ok b ∧ P a b) l →
  ∃ k, mapM f l = Ok k ∧ Forall2 P l k.
Proof.
  induction 1 as [|a l (b & Hb & HP) _ (k & Hk & HPk)].
  - exists []. split; [done|constructor].
  - exists (b :: k).
    change (mapM f (a :: l)) with (y ← f a; r ← mapM f l; mret (y :: r)).
    rewrite Hb. simpl. rewrite Hk. simpl. split; [done|by constructor].
Qed.

Section LabelerFacts.
Import TargetLabeler.
Context {T : Type}.
Variable ar : arith T.
Hypothesis leb_order : total_preorder (a_leb ar).

Abbreviation is_argmax := (TargetLabeler.is_argmax ar).

Lemma argmax_from_max (r pre : list T) (b : T) (bi : nat) :
  pre !! bi = Some b →
  (∀ u, u ∈ pre → a_leb ar u b = true) →
  ∃ v, (pre ++ r) !! argmax_from ar bi b (length pre) r = Some v
       ∧ ∀ u, u ∈ pre ++ r → a_leb ar u v = true.
Proof.
  destruct leb_order as (Hrefl & Htrans & Htotal).
  revert pre b bi. induction r as [|a r IH]; intros pre b bi Hb Hmax.
  - exists b. simpl. rewrite app_nil_r. done.
  - simpl. destruct (a_leb ar a b) eqn:Hab.
    + destruct (IH (pre ++ [a]) b bi) as (v & Hv & Hall).
      * by apply lookup_app_l_Some.
      * intros u Hu. apply elem_of_app in Hu as [Hu|Hu]; [by apply Hmax|].
        apply list_elem_of_singleton in Hu as ->. done.
      * rewrite length_app in Hv. simpl in Hv.
        rewrite Nat.add_1_r, <- app_assoc in Hv. simpl in Hv.
        exists v. split; [done|]. intros u Hu. apply Hall.
        by rewrite <- app_assoc.
    + destruct (IH (pre ++ [a]) a (length pre)) as (v & Hv & Hall).
      * rewrite lookup_app_r by lia. by rewrite Nat.sub_diag.
      * intros u Hu. apply elem_of_app in Hu as [Hu|Hu].
        -- apply (Htrans _ b); [by apply Hmax|by apply Htotal].
        -- apply list_elem_of_singleton in Hu as ->. apply Hrefl.
      * rewrite length_app in Hv. simpl in Hv.
        rewrite Nat.add_1_r, <- app_assoc in Hv. simpl in Hv.
        exists v. split; [done|]. intros u Hu. apply Hall.
        by rewrite <- app_assoc.
Qed.

Lemma argmax_ok (r : list T) :
  r ≠ [] → ∃ k, argmax ar r = Ok k ∧ is_argmax r k.
Proof.
  destruct r as [|a r]; [done|]. intros _.
  eexists. split; [reflexivity|].
  destruct leb_order as (Hrefl & _).
  apply (argmax_from_max r [a] a 0); [done|].
  intros u Hu. apply list_elem_of_singleton in Hu as ->. apply Hrefl.
Qed.

Lemma argmax_rows_ok (scores : matrix T) :
  wf_matrix scores → 1 ≤ ncols scores →
  ∃ y_, argmax_rows ar scores = Ok y_ ∧ Forall2 is_argmax (rows scores) y_.
Proof.
  intros Hwf Hn. unfold argmax_rows.
  replace (ncols scores =? 0) with false by (symmetry; apply Nat.eqb_neq; lia).
  apply mapM_result_Forall.
  eapply Forall_impl; [exact Hwf|]. intros r Hr. simpl in Hr.
  apply argmax_ok. intros ->. simpl in Hr. lia.
Qed.

Lemma slice_cols_wf k (m : matrix T) : wf_matrix m → wf_matrix (slice_cols k m).
Proof.
  unfold wf_matrix, slice_cols. simpl. intros Hwf.
  apply Forall_fmap. eapply Forall_impl; [exact Hwf|].
  intros r Hr. simpl in *. rewrite length_take. lia.
Qed.
End LabelerFacts.

(** C8. With generative or current replay in the class-incremental scenario
    and no task masks, the previous model scores the replay batch in one
    pass; the scores are cut to the first [classes_per_task*(task-1)] columns;
    the hard label of each row is the index of a largest entry of the cut row
    (so it is below [classes_per_task*(task-1)]); and the training step
    receives the hard labels and no scores when [replay_targets] is "hard",
    the cut scores and no labels when it is "soft". *)
Theorem C8_class_incremental_targets
    {T Input : Type} (ar : arith T)
    (classify_prev : option nat → list Input → bool → matrix T)
    (Generative Current : bool) (x_ : list Input) (classes_per_task task : nat)
    (y_in : option (replay_data (list nat)))
    (scores_in : option (replay_data (matrix T))) :
  total_preorder (a_leb ar) →
  Generative || Current = true →
  let all_scores_ := classify_prev None x_ (if Generative then false else true) in
  let scores_ := slice_cols (classes_per_task * (task - 1)) all_scores_ in
  wf_matrix all_scores_ →
  1 ≤ ncols all_scores_ →
  1 ≤ classes_per_task * (task - 1) →
  ncols scores_ = (classes_per_task * (task - 1)) `min` ncols all_scores_
  ∧ rows scores_ = take (classes_per_task * (task - 1)) <$> rows all_scores_
  ∧ ∃ y_,
      Forall2 (TargetLabeler.is_argmax ar) (rows scores_) y_
      ∧ Forall (λ l, l < classes_per_task * (task - 1)) y_
      ∧ TargetLabeler.targets ar classify_prev Generative Current sc_class false
          (RTensor x_) classes_per_task task y_in scores_in "hard"
        = Ok (RTensor y_, RNone)
      ∧ TargetLabeler.targets ar classify_prev Generative Current sc_class false
          (RTensor x_) classes_per_task task y_in scores_in "soft"
        = Ok (RNone, RTensor scores_).
Proof.
  intros Hord Hreplay all_scores_ scores_ Hwf Hcols Hk.
  split; [done|]. split; [done|].
  destruct (argmax_rows_ok ar Hord scores_) as (y_ & Hy & Hmax).
  { by apply slice_cols_wf. }
  { subst scores_. simpl. lia. }
  exists y_. split; [done|]. split.
  - apply Forall_forall. intros l Hl.
    apply list_elem_of_lookup in Hl as [i Hi].
    destruct (Forall2_lookup_r _ _ _ _ _ Hmax Hi) as (r & Hr & v & Hv & _).
    apply lookup_lt_Some in Hv.
    subst scores_. simpl in Hr. rewrite list_lookup_fmap in Hr.
    destruct (rows all_scores_ !! i) as [r0|]; [|done].
    simpl in Hr. injection Hr as <-. rewrite length_take in Hv. lia.
  - unfold TargetLabeler.targets. rewrite Hreplay. simpl.
    fold all_scores_. fold scores_. rewrite Hy. simpl. done.
Qed.

Lemma Z_leb_total_preorder : total_preorder (a_leb Z_arith).
Proof.
  unfold total_preorder. simpl. split; [|split].
  - intros a. apply Z.leb_refl.
  - intros a b c H1 H2. apply Z.leb_le in H1, H2. apply Z.leb_le. lia.
  - intros a b H. apply Z.leb_gt in H. apply Z.leb_le. lia.
Qed.

Lemma C8_class_incremental_targets_witness :
  let classify_prev := λ (_ : option nat) (xs : list Z) (_ : bool),
    Matrix 6 ((λ x, [x; 2 * x; 3; 0; 9; 9]%Z) <$> xs) in
  TargetLabeler.targets Z_arith classify_prev true false sc_class false
    (RTensor [1; 5]%Z) 2 3 None None "hard"
  = Ok (RTensor [2; 1], RNone)
  ∧ TargetLabeler.targets Z_arith classify_prev true false sc_class false
      (RTensor [1; 5]%Z) 2 3 None None "soft"
    = Ok (RNone, RTensor (Matrix 4 [[1; 2; 3; 0]; [5; 10; 3; 0]]%Z)).
Proof.
  intros classify_prev.
  destruct (C8_class_incremental_targets Z_arith classify_prev true false
              [1; 5]%Z 2 3 None None)
    as (_ & _ & y_ & _ & _ & Hhard & Hsoft).
  - exact Z_leb_total_preorder.
  - reflexivity.
  - repeat constructor.
  - simpl. lia.
  - simpl. lia.
  - split; [reflexivity|exact Hsoft].
Defined.

(** ** Synaptic intelligence: the importance accumulator *)

Section ImportanceFacts.
Import SI.
Context {T : Type}.
Variable ar : arith T.

Abbreviation si_state := (@si_state T).
Abbreviation param := (@param T).
Abbreviation all_zero := (SI.all_zero ar).

Lemma zero__all_zero (t : list T) : all_zero (zero_ ar t).
Proof. unfold SI.all_zero, zero_. apply Forall_fmap, Forall_forall. done. Qed.

(** *** Task start *)

Lemma init_fold_zero (l : list (string * param)) (st : si_state) :
  (∀ key t, W st !! key = Some t → all_zero t) →
  ∀ key t, W (foldl (init_step ar) st l) !! key = Some t → all_zero t.
Proof.
  revert st. induction l as [|np l IH]; intros st Hst; [done|].
  simpl. apply IH. unfold init_step.
  destruct (requires_grad np.2); [|done]. simpl.
  intros key t. rewrite lookup_insert.
  case_decide; [|by apply Hst].
  intros [= <-]. apply zero__all_zero.
Qed.

Lemma init_fold_keeps (l : list (string * param)) (st : si_state) key :
  is_Some (W st !! key) ∧ is_Some (p_old st !! key) →
  is_Some (W (foldl (init_step ar) st l) !! key)
  ∧ is_Some (p_old (foldl (init_step ar) st l) !! key).
Proof.
  revert st. induction l as [|np l IH]; intros st Hst; [done|].
  simpl. apply IH. unfold init_step.
  destruct (requires_grad np.2); [|done]. simpl.
  rewrite !lookup_insert. by case_decide.
Qed.

Lemma init_fold_covers (l : list (string * param)) (st : si_state) np :
  np ∈ l → requires_grad np.2 = true →
  is_Some (W (foldl (init_step ar) st l) !! mangle np.1)
  ∧ is_Some (p_old (foldl (init_step ar) st l) !! mangle np.1).
Proof.
  revert st. induction l as [|np' l IH]; intros st Hin Hg.
  - by apply elem_of_nil in Hin.
  - simpl. apply elem_of_cons in Hin as [->|Hin]; [|by apply IH].
    apply init_fold_keeps. unfold init_step. rewrite Hg. simpl.
    rewrite !lookup_insert_eq. eauto.
Qed.

(** *** After a training step *)

Lemma update_param_keyed prefix (st : si_state) (np : string * param) :
  update_param ar prefix st np = update_param ar "" st (prefix +:+ np.1, np.2).
Proof. done. Qed.

Lemma update_params_keyed prefix (ps : list (string * param)) (st : si_state) :
  update_params ar prefix st ps = update_params ar "" st (keyed prefix ps).
Proof.
  revert st. induction ps as [|np ps IH]; intros st; [done|].
  simpl. rewrite update_param_keyed.
  destruct (update_param ar "" st _) as [st1|e]; simpl; [apply IH|done].
Qed.

Lemma update_params_app (l1 l2 : list (string * param)) (st : si_state) :
  update_params ar "" st (l1 ++ l2)
  = st1 ← update_params ar "" st l1; update_params ar "" st1 l2.
Proof.
  revert st. induction l1 as [|np l1 IH]; intros st; [done|].
  simpl. destruct (update_param ar "" st np) as [st1|e]; simpl; [apply IH|done].
Qed.

Lemma si_update_visited (m : model) (st : si_state) vis :
  visited m = Ok vis →
  si_update ar true m (Some st) = Some <$> update_params ar "" st vis.
Proof.
  unfold visited, si_update, update_module. simpl.
  destruct (attr m "convE") as [ps1|e]; simpl; [|done].
  destruct (attr m "fcE") as [ps2|e]; simpl; [|done].
  destruct (attr m "classifier") as [ps3|e]; simpl; [|done].
  intros [= <-].
  rewrite update_params_app, (update_params_keyed _ ps1).
  destruct (update_params ar "" st _) as [st1|e]; simpl; [|done].
  rewrite update_params_app, (update_params_keyed _ ps2).
  destruct (update_params ar "" st1 _) as [st2|e]; simpl; [|done].
  rewrite (update_params_keyed _ ps3).
  by destruct (update_params ar "" st2 _).
Qed.

Lemma update_param_ok (st : si_state) (np : string * param) w po :
  requires_grad np.2 = true →
  W st !! key_of np = Some w →
  p_old st !! key_of np = Some po →
  update_param ar "" st np
  = Ok (SIState (<[key_of np := accumulated ar np.2 w po]> (W st))
                (<[key_of np := data np.2]> (p_old st))).
Proof.
  intros Hg Hw Hpo. unfold update_param, accumulated, getitem, key_of in *.
  rewrite Hg. change ("" +:+ np.1) with np.1.
  destruct (grad np.2) as [g|]; simpl.
  - rewrite Hw, Hpo. done.
  - by rewrite (insert_id _ _ _ Hw).
Qed.

Lemma update_params_spec (l : list (string * param)) (st : si_state) :
  NoDup (key_of <$> filter trainable l) →
  (∀ np, np ∈ l → trainable np →
     is_Some (W st !! key_of np) ∧ is_Some (p_old st !! key_of np)) →
  ∃ st', update_params ar "" st l = Ok st'
    ∧ (∀ key, key ∉ key_of <$> filter trainable l →
         W st' !! key = W st !! key ∧ p_old st' !! key = p_old st !! key)
    ∧ (∀ np, np ∈ l → trainable np →
         ∃ w po, W st !! key_of np = Some w
                 ∧ p_old st !! key_of np = Some po
                 ∧ W st' !! key_of np = Some (accumulated ar np.2 w po)
                 ∧ p_old st' !! key_of np = Some (data np.2)).
Proof.
  revert st. induction l as [|np l IH]; intros st Hnd Hkeys.
  - exists st. split; [done|]. split; [done|].
    intros np Hin. by apply elem_of_nil in Hin.
  - destruct (decide (trainable np)) as [Hg|Hg].
    + rewrite filter_cons_True, fmap_cons in Hnd by done.
      apply NoDup_cons in Hnd as [Hfresh Hnd].
      destruct (Hkeys np) as [[w Hw] [po Hpo]]; [left|done|].
      set (st1 := SIState (<[key_of np := accumulated ar np.2 w po]> (W st))
                          (<[key_of np := data np.2]> (p_old st))).
      destruct (IH st1 Hnd) as (st' & Hrun & Hframe & Hupd).
      { intros np' Hin' Hg'. subst st1. simpl. rewrite !lookup_insert.
        case_decide; [eauto|]. apply Hkeys; [by right|done]. }
      exists st'. simpl. rewrite (update_param_ok st np w po Hg Hw Hpo). simpl.
      fold st1. split; [done|]. split.
      * intros key Hkey. rewrite filter_cons_True, fmap_cons in Hkey by done.
        apply not_elem_of_cons in Hkey as [Hne Hkey].
        destruct (Hframe key Hkey) as [-> ->]. subst st1. simpl.
        by rewrite !lookup_insert_ne.
      * intros np' Hin' Hg'.
        destruct (decide (key_of np' = key_of np)) as [Heq|Hne].
        -- (* only [np] itself carries this key *)
           apply elem_of_cons in Hin' as [->|Hin'].
           ++ exists w, po. split; [done|]. split; [done|].
              destruct (Hframe (key_of np) Hfresh) as [-> ->].
              subst st1. simpl. by rewrite !lookup_insert_eq.
           ++ exfalso. apply Hfresh. rewrite <- Heq.
              apply list_elem_of_fmap_2, list_elem_of_filter. done.
        -- apply elem_of_cons in Hin' as [->|Hin']; [done|].
           destruct (Hupd np' Hin' Hg') as (w' & po' & Hw' & Hpo' & Hres).
           subst st1. simpl in Hw', Hpo'.
           rewrite lookup_insert_ne in Hw', Hpo' by done.
           exists w', po'. done.
    + rewrite filter_cons_False in Hnd by done.
      destruct (IH st Hnd) as (st' & Hrun & Hframe & Hupd).
      { intros np' Hin' Hg'. apply Hkeys; [by right|done]. }
      exists st'. simpl.
      replace (update_param ar "" st np) with (Ok st : result si_state).
      2: { unfold update_param. unfold trainable in Hg.
           by destruct (requires_grad np.2). }
      simpl. split; [done|]. split.
      * intros key Hkey. rewrite filter_cons_False in Hkey by done.
        by apply Hframe.
      * intros np' Hin' Hg'.
        apply elem_of_cons in Hin' as [->|Hin']; [done|]. by apply Hupd.
Qed.
End ImportanceFacts.

(** C7 (amended). With synaptic intelligence enabled, every task starts with
    a fresh [W] that has an entry for every trainable parameter of the model
    and holds only zeros, whatever [W] held before.  After a training step of
    the main model, for every trainable parameter [n] of the sub-modules
    [convE], [fcE] and [classifier] (distinct keys, all present in [W] and
    [p_old]): [p_old[n]] is the parameter's value after the step, and [W[n]]
    has grown by [-grad(n) * (p(n) - p_old[n])] when the parameter has a
    gradient and is unchanged when it has none.  Entries of all other
    parameters are left as they were. *)
Theorem C7_importance_accumulator
    {T : Type} (ar : arith T) :
  (* task start *)
  (∀ (m : SI.model) (before : option SI.si_state),
     SI.task_start ar true m before = Some (SI.si_init ar m)
     ∧ (∀ key t, SI.W (SI.si_init ar m) !! key = Some t → SI.all_zero ar t)
     ∧ (∀ np, np ∈ SI.named_parameters m → SI.trainable np →
          is_Some (SI.W (SI.si_init ar m) !! SI.mangle np.1)
          ∧ is_Some (SI.p_old (SI.si_init ar m) !! SI.mangle np.1)))
  (* after a training step *)
  ∧ (∀ (m : SI.model) (st : SI.si_state) vis,
       SI.visited m = Ok vis →
       NoDup (SI.key_of <$> filter SI.trainable vis) →
       (∀ np, np ∈ vis → SI.trainable np →
          is_Some (SI.W st !! SI.key_of np) ∧ is_Some (SI.p_old st !! SI.key_of np)) →
       ∃ st',
         SI.si_update ar true m (Some st) = Ok (Some st')
         ∧ (∀ np, np ∈ vis → SI.trainable np →
              ∃ w po, SI.W st !! SI.key_of np = Some w
                      ∧ SI.p_old st !! SI.key_of np = Some po
                      ∧ SI.W st' !! SI.key_of np = Some (SI.accumulated ar np.2 w po)
                      ∧ SI.p_old st' !! SI.key_of np = Some (SI.data np.2))
         ∧ (∀ key, key ∉ SI.key_of <$> filter SI.trainable vis →
              SI.W st' !! key = SI.W st !! key
              ∧ SI.p_old st' !! key = SI.p_old st !! key)).
Proof.
  split.
  - intros m before. split; [done|]. split.
    + intros key t. unfold SI.si_init. apply init_fold_zero.
      intros key' t'. simpl. by rewrite lookup_empty.
    + intros np Hin Hg. unfold SI.si_init. by apply init_fold_covers.
  - intros m st vis Hvis Hnd Hkeys.
    destruct (update_params_spec ar vis st Hnd Hkeys) as (st' & Hrun & Hframe & Hupd).
    exists st'. rewrite (si_update_visited ar m st vis Hvis), Hrun.
    split; [done|]. split; [exact Hupd|exact Hframe].
Qed.

Lemma C7_importance_accumulator_witness :
  ∃ st',
    SI.si_update Z_arith true SIExample.after
      (Some (SI.si_init Z_arith SIExample.before)) = Ok (Some st')
    ∧ SI.W st' !! "convE__conv__weight" = Some [-1; 0]%Z
    ∧ SI.p_old st' !! "convE__conv__weight" = Some [2; 2]%Z
    ∧ SI.W st' !! "classifier__weight" = Some [3]%Z
    ∧ SI.W st' !! "fcE__fc__weight" = Some [0]%Z.
Proof.
  destruct (C7_importance_accumulator Z_arith) as [_ Hupd].
  destruct (Hupd SIExample.after (SI.si_init Z_arith SIExample.before)
              [("convE.conv.weight", SI.Param true [2; 2]%Z (Some [1; 1]%Z));
               ("fcE.fc.weight", SI.Param true [3]%Z None);
               ("fcE.fc.bias", SI.Param false [0]%Z None);
               ("classifier.weight", SI.Param true [4]%Z (Some [3]%Z))])
    as (st' & Hrun & Hvis & _).
  - reflexivity.
  - apply (bool_decide_unpack _). vm_compute. exact I.
  - intros np Hin Hg. repeat (apply elem_of_cons in Hin as [->|Hin]);
      try (by apply elem_of_nil in Hin); try discriminate Hg;
      split; eexists; vm_compute; reflexivity.
  - exists st'. split; [exact Hrun|].
    destruct (Hvis ("convE.conv.weight", SI.Param true [2; 2]%Z (Some [1; 1]%Z)))
      as (w & po & Hw & Hpo & HW & HP); [repeat constructor|done|].
    vm_compute in Hw, Hpo. injection Hw as <-. injection Hpo as <-.
    destruct (Hvis ("classifier.weight", SI.Param true [4]%Z (Some [3]%Z)))
      as (w & po & Hw & Hpo & HW2 & _); [repeat constructor|done|].
    vm_compute in Hw, Hpo. injection Hw as <-. injection Hpo as <-.
    destruct (Hvis ("fcE.fc.weight", SI.Param true [3]%Z None))
      as (w & po & Hw & Hpo & HW3 & _); [repeat constructor|done|].
    vm_compute in Hw, Hpo. injection Hw as <-. injection Hpo as <-.
    split; [exact HW|]. split; [exact HP|]. split; [exact HW2|exact HW3].
Defined.

(** C7 as stated fails for a trainable parameter outside [convE], [fcE] and
    [classifier]: [fcD.weight] moved from 7 to 8 with gradient 1, so the
    stated update makes [W] equal to [0 + -1 * (8 - 7) = -1] and [p_old]
    equal to 8; the loop leaves both at their task-start values 0 and 7. *)
Lemma C7_importance_accumulator_counterexample :
  ∃ st',
    SI.si_update Z_arith true SIExample.after
      (Some (SI.si_init Z_arith SIExample.before)) = Ok (Some st')
    ∧ ("fcD.weight", SI.Param true [8]%Z (Some [1]%Z))
        ∈ SI.named_parameters SIExample.after
    ∧ SI.W st' !! "fcD__weight" = Some [0]%Z
    ∧ SI.p_old st' !! "fcD__weight" = Some [7]%Z
    ∧ SI.accumulated Z_arith (SI.Param true [8]%Z (Some [1]%Z)) [0]%Z [7]%Z
      = [-1]%Z.
Proof.
  eexists. split; [vm_compute; reflexivity|].
  split; [vm_compute; set_solver|].
  split; [vm_compute; reflexivity|].
  split; vm_compute; reflexivity.
Qed.

(** ** The loop over tasks and the snapshots *)

Section SnapshotFacts.
Import TaskLoop.
Context {St : Type}.
Variable model : nat.
Variable generator : option nat.

Abbreviation heap_t := (gmap nat (@obj St)).

Lemma copy_eval_inv (o : nat) (σ : heap_t) l σ' :
  copy_eval o σ = Ok (l, σ') →
  ∃ v, σ !! o = Some v
       ∧ l = fresh (dom σ)
       ∧ σ' = <[l := Obj (payload v) false]> σ.
Proof.
  unfold copy_eval. destruct (σ !! o) as [v|]; [|done].
  intros [= <- <-]. eauto.
Qed.

Lemma fresh_not_in (σ : heap_t) l v : σ !! l = Some v → fresh (dom σ) ≠ l.
Proof.
  intros Hl Heq. apply (is_fresh (dom σ)). rewrite Heq.
  apply elem_of_dom. eauto.
Qed.

Lemma refresh_snapshots_inv cfg offline (st st' : @loop_state St) (σ : heap_t) :
  refresh_snapshots model generator cfg offline st σ = Ok st' →
  ∃ pm, previous_model st' = Some pm
    ∧ (pm ∉ dom σ)
    ∧ snapshot_of (heap st') pm model
    ∧ heap st' !! model = σ !! model
    ∧ Offline_TaskIL st' = offline
    ∧ match cfg_replay_mode cfg with
      | rm_generative =>
          Generative st' = true ∧ Current st' = Current st
          ∧ ∃ pg, previous_generator st' = Some pg
              ∧ (if cfg_feedback cfg then pg = pm
                 else ∃ g, generator = Some g ∧ (pg ∉ dom σ)
                           ∧ snapshot_of (heap st') pg g)
      | rm_current =>
          Current st' = true ∧ Generative st' = Generative st
          ∧ previous_generator st' = previous_generator st
      | _ =>
          Current st' = Current st ∧ Generative st' = Generative st
          ∧ previous_generator st' = previous_generator st
      end.
Proof.
  unfold refresh_snapshots.
  destruct (copy_eval model σ) as [[pm σ1]|e] eqn:Hpm; simpl; [|done].
  apply copy_eval_inv in Hpm as (v & Hv & -> & ->).
  set (pm := fresh (dom σ)).
  assert (Hpm : pm ∉ dom σ) by apply is_fresh.
  assert (Hne : pm ≠ model) by by apply (fresh_not_in σ model v).
  assert (Hsnap : snapshot_of (<[pm := Obj (payload v) false]> σ) pm model).
  { split; [done|]. exists v.
    rewrite lookup_insert_ne by done. by rewrite lookup_insert_eq. }
  destruct (cfg_replay_mode cfg) eqn:Hrm.
  1,2,3: intros [= <-]; exists pm; simpl;
    (split; [done|]); (split; [done|]); (split; [done|]);
    (split; [by rewrite lookup_insert_ne|]); done.
  destruct (cfg_feedback cfg) eqn:Hfb; simpl.
  - intros [= <-]. exists pm. simpl.
    split; [done|]. split; [done|]. split; [done|].
    split; [by rewrite lookup_insert_ne|]. split; [done|].
    split; [done|]. split; [done|]. by exists pm.
  - destruct generator as [g|]; [|done].
    destruct (copy_eval g _) as [[pg σ2]|e] eqn:Hpg; simpl; [|done].
    apply copy_eval_inv in Hpg as (vg & Hvg & -> & ->).
    set (σ1 := <[pm := Obj (payload v) false]> σ) in *.
    set (pg := fresh (dom σ1)).
    assert (Hpg1 : pg ∉ dom σ1) by apply is_fresh.
    assert (Hpg : pg ∉ dom σ).
    { intros Hin. apply Hpg1. subst σ1. rewrite dom_insert. set_solver. }
    assert (Hpgpm : pg ≠ pm).
    { intros Heq. apply Hpg1. rewrite Heq. subst σ1.
      rewrite dom_insert. set_solver. }
    assert (Hpgm : pg ≠ model).
    { intros Heq. apply Hpg. rewrite Heq. apply elem_of_dom. eauto. }
    assert (Hpgg : pg ≠ g) by by apply (fresh_not_in σ1 g vg).
    intros [= <-]. exists pm. simpl.
    split; [done|]. split; [done|]. split.
    { destruct Hsnap as [_ (v' & Hv' & Hs)]. split; [done|]. exists v'.
      rewrite !lookup_insert_ne by done. done. }
    split.
    { rewrite lookup_insert_ne by done. subst σ1.
      by rewrite lookup_insert_ne. }
    split; [done|]. split; [done|]. split; [done|].
    exists pg. split; [done|]. exists g.
    split; [done|]. split; [done|]. split; [done|].
    exists vg. rewrite lookup_insert_ne by done.
    by rewrite lookup_insert_eq.
Qed.

End SnapshotFacts.

Section TaskLoopFacts.
Import TaskLoop.
Context {St : Type}.
Variable model : nat.
Variable generator : option nat.
Variable iteration : ctx → gmap nat (@obj St) → result (gmap nat (@obj St)).
Variable init_params : St → St.
Variable estimate_fisher : nat → St → St.
Variable update_omega : St → St.

Lemma run_tasks_snoc cfg first k (st : @loop_state St) :
  run_tasks model generator iteration init_params estimate_fisher update_omega
    cfg first (S k) st
  = st' ← run_tasks model generator iteration init_params estimate_fisher
            update_omega cfg first k st;
    run_task model generator iteration init_params estimate_fisher update_omega
      cfg (first + k) st'.
Proof.
  revert first st. induction k as [|k IH]; intros first st.
  - simpl. rewrite Nat.add_0_r.
    by destruct (run_task _ _ _ _ _ _ _ _ _).
  - change (run_tasks model generator iteration init_params estimate_fisher
              update_omega cfg first (S (S k)) st)
      with (st' ← run_task model generator iteration init_params estimate_fisher
                    update_omega cfg first st;
            run_tasks model generator iteration init_params estimate_fisher
              update_omega cfg (S first) (S k) st').
    change (run_tasks model generator iteration init_params estimate_fisher
              update_omega cfg first (S k) st)
      with (st' ← run_task model generator iteration init_params estimate_fisher
                    update_omega cfg first st;
            run_tasks model generator iteration init_params estimate_fisher
              update_omega cfg (S first) k st').
    destruct (run_task _ _ _ _ _ _ cfg first st) as [st1|e]; [|done].
    rewrite !bind_Ok, IH. by replace (S first + k) with (first + S k) by lia.
Qed.
End TaskLoopFacts.

Section TaskLoopTheorem.
Import TaskLoop.
Context {St : Type}.
Variable model : nat.
Variable generator : option nat.
Variable iteration : ctx → gmap nat (@obj St) → result (gmap nat (@obj St)).
Variable init_params : St → St.
Variable estimate_fisher : nat → St → St.
Variable update_omega : St → St.

Abbreviation run_task' :=
  (run_task model generator iteration init_params estimate_fisher update_omega).
Abbreviation run_tasks' :=
  (run_tasks model generator iteration init_params estimate_fisher update_omega).
Abbreviation task_end_ok := (TaskLoop.task_end_ok model generator).

Lemma run_task_end cfg task (st st' : @loop_state St) :
  run_task' cfg task st = Ok st' → task_end_ok cfg st'.
Proof.
  unfold run_task.
  destruct (iterations _ _ _ _ _) as [σ2|e]; [|done].
  rewrite bind_Ok. intros Hr.
  apply refresh_snapshots_inv in Hr
    as (pm & Hpm & _ & Hsnap & _ & _ & Hmode).
  exists pm. split; [done|]. split; [done|].
  destruct (cfg_replay_mode cfg); (split; [intros [=]|intros [=]]).
  - by destruct Hmode as (? & _).
  - destruct Hmode as (HG & _ & pg & Hpg & Hfb). split; [done|].
    exists pg. split; [done|]. destruct (cfg_feedback cfg); [done|].
    destruct Hfb as (g & Hg & _ & Hs). by exists g.
Qed.

Lemma alter_is_Some (f : @obj St → @obj St) (k l : nat) (σ : gmap nat (@obj St)) :
  is_Some (σ !! l) → is_Some (alter f k σ !! l).
Proof.
  intros [v Hv]. destruct (decide (k = l)) as [->|Hne].
  - rewrite lookup_alter_eq, Hv. simpl. eauto.
  - rewrite lookup_alter_ne by done. eauto.
Qed.

Lemma prepared_is_Some cfg task (σ : gmap nat (@obj St)) l :
  is_Some (σ !! l) →
  is_Some (consolidate model estimate_fisher update_omega cfg task
             (reinit model generator init_params cfg σ) !! l).
Proof.
  intros Hl. unfold consolidate, reinit.
  destruct (cfg_si cfg), (cfg_ewc cfg), (cfg_reinit cfg), generator;
    repeat apply alter_is_Some; done.
Qed.

Lemma refresh_snapshots_total cfg offline (st : @loop_state St)
    (σ : gmap nat (@obj St)) :
  is_Some (σ !! model) →
  (cfg_replay_mode cfg = rm_generative → cfg_feedback cfg = false →
     ∃ g, generator = Some g ∧ is_Some (σ !! g)) →
  is_ok (refresh_snapshots model generator cfg offline st σ) = true.
Proof.
  intros [v Hv] Hgen. unfold refresh_snapshots, copy_eval. rewrite Hv.
  rewrite bind_Ok.
  destruct (cfg_replay_mode cfg); try done.
  destruct (cfg_feedback cfg); [done|].
  destruct Hgen as (g & -> & [vg Hvg]); [done..|].
  rewrite lookup_insert_ne by by apply (fresh_not_in σ g vg).
  by rewrite Hvg.
Qed.
End TaskLoopTheorem.

Section LoopBodyFacts.
Import TaskLoop.
Context {St : Type}.
Variable model : nat.
Variable generator : option nat.
Variables iteration iteration' :
  ctx → gmap nat (@obj St) → result (gmap nat (@obj St)).
Variable init_params : St → St.
Variable estimate_fisher : nat → St → St.
Variable update_omega : St → St.

(** The loop over [batch_index] runs the body at [mk b] for the indices
    [b] of the range, and nowhere else. *)
Lemma iterations_ext (mk : nat → ctx) b n (σ : gmap nat (@obj St)) :
  (∀ i h, b ≤ i < b + n → iteration (mk i) h = iteration' (mk i) h) →
  iterations iteration mk b n σ = iterations iteration' mk b n σ.
Proof.
  revert b σ. induction n as [|n IH]; intros b σ Hext; [done|].
  simpl. rewrite (Hext b σ) by lia.
  destruct (iteration' (mk b) σ) as [σ'|e]; [|done].
  rewrite !bind_Ok. apply IH. intros i h Hi. apply Hext. lia.
Qed.

Lemma ctx_of_loop_ctx cfg (st : @loop_state St) task b :
  1 ≤ b ≤ iters_to_use generator cfg task →
  loop_ctx generator cfg st task (ctx_of st (offline_of cfg st) task b).
Proof. intros Hb. unfold loop_ctx, ctx_of. simpl. done. Qed.

Lemma run_task_ext cfg task (st : @loop_state St) :
  (∀ c h, loop_ctx generator cfg st task c → iteration c h = iteration' c h) →
  run_task model generator iteration init_params estimate_fisher update_omega
    cfg task st
  = run_task model generator iteration' init_params estimate_fisher update_omega
      cfg task st.
Proof.
  intros Hext. unfold run_task.
  rewrite (iterations_ext (ctx_of st (offline_of cfg st) task) 1
             (iters_to_use generator cfg task)); [done|].
  intros i h Hi. apply Hext, ctx_of_loop_ctx. lia.
Qed.

Lemma run_task_body_fails cfg task (st : @loop_state St) e :
  1 ≤ iters_to_use generator cfg task →
  (∀ c h, loop_ctx generator cfg st task c → iteration c h = Err e) →
  run_task model generator iteration init_params estimate_fisher update_omega
    cfg task st = Err e.
Proof.
  intros Hn Hfail. unfold run_task.
  destruct (iters_to_use generator cfg task) as [|n] eqn:Hiters; [lia|].
  simpl. rewrite Hfail; [done|].
  apply ctx_of_loop_ctx. rewrite Hiters. lia.
Qed.
End LoopBodyFacts.




(* ===================================================================== *)
(** * Part III: further properties of the code *)
(* ===================================================================== *)

(** ** [train]: the single-task loop *)

Section TrainFacts.
Import Train.
Context {MS Batch : Type}.
Variable train_a_batch_fn : MS → Batch → MS.
Variable train_loader : nat → list Batch.
Variable loss_cbs : list (option nat).
Variable eval_cbs : list (option nat).
Variables (iters : nat) (save_every : option nat).

Abbreviation body := (Train.body train_a_batch_fn loss_cbs eval_cbs iters save_every).
Abbreviation step := (Train.step train_a_batch_fn loss_cbs eval_cbs iters save_every).
Abbreviation epoch_loop :=
  (Train.epoch_loop train_a_batch_fn loss_cbs eval_cbs iters save_every).
Abbreviation while_loop :=
  (Train.while_loop train_a_batch_fn train_loader loss_cbs eval_cbs).
Abbreviation schedule := (Train.schedule train_loader).

Lemma step_iteration (s : @state MS Batch) eb : iteration (step s eb) = S (iteration s).
Proof.
  unfold Train.step, Train.body.
  destruct (S (iteration s) =? iters); [done|].
  destruct save_every as [k|]; [|done].
  destruct (k =? 0); [done|]. by destruct (_ =? 0).
Qed.

Lemma steps_iteration (s : @state MS Batch) l :
  iteration (foldl step s l) = iteration s + length l.
Proof.
  revert s. induction l as [|eb l IH]; intros s; simpl; [lia|].
  rewrite IH, step_iteration. lia.
Qed.

Lemma body_flow (s : @state MS Batch) e b :
  save_every ≠ Some 0 →
  body e s b
  = (if S (iteration s) =? iters then Break else Continue, step s (e, b)).
Proof.
  intros Hse. unfold Train.step, Train.body. cbn [fst snd].
  destruct (S (iteration s) =? iters); [done|].
  destruct save_every as [k|]; [|done].
  destruct (Nat.eqb_spec k 0) as [->|_]; [done|].
  by destruct (_ =? 0).
Qed.

Lemma epoch_loop_steps e (bs : list Batch) (s : @state MS Batch) :
  save_every ≠ Some 0 →
  iteration s < iters →
  epoch_loop e s bs
  = if length bs <? iters - iteration s
    then (Continue, foldl step s ((λ b, (e, b)) <$> bs))
    else (Break, foldl step s (take (iters - iteration s) ((λ b, (e, b)) <$> bs))).
Proof.
  intros Hse. revert s. induction bs as [|b bs IH]; intros s Hlt.
  - simpl. destruct (Nat.ltb_spec 0 (iters - iteration s)); [done|lia].
  - cbn [Train.epoch_loop]. rewrite body_flow by done.
    destruct (Nat.eqb_spec (S (iteration s)) iters) as [Heq|Hne].
    + replace (iters - iteration s) with 1 by lia.
      destruct (Nat.ltb_spec (length (b :: bs)) 1) as [H|H]; [simpl in H; lia|].
      simpl. by rewrite ?take_0.
    + rewrite IH by (rewrite step_iteration; lia).
      rewrite step_iteration.
      replace (iters - iteration s) with (S (iters - S (iteration s))) by lia.
      simpl length.
      destruct (Nat.ltb_spec (length bs) (iters - S (iteration s)));
        destruct (Nat.ltb_spec (S (length bs)) (S (iters - S (iteration s))));
        try lia; done.
Qed.

Lemma schedule_S first epochs :
  schedule first (S epochs)
  = ((λ b, (first, b)) <$> train_loader first) ++ schedule (S first) epochs.
Proof. done. Qed.

Lemma schedule_length_ge first epochs :
  (∀ e, train_loader e ≠ []) → epochs ≤ length (schedule first epochs).
Proof.
  intros Hne. revert first. induction epochs as [|n IH]; intros first; [simpl; lia|].
  rewrite schedule_S, length_app, length_fmap.
  specialize (IH (S first)). specialize (Hne first).
  destruct (train_loader first); [done|]. simpl. lia.
Qed.

(** The run is the loop body folded over the first [iters] batches. *)
Lemma while_loop_steps fuel epoch (s : @state MS Batch) :
  (∀ e, train_loader e ≠ []) →
  save_every ≠ Some 0 →
  iteration s ≤ iters →
  iters - iteration s ≤ fuel →
  while_loop fuel iters save_every epoch s
  = Returned (foldl step s (take (iters - iteration s) (schedule (S epoch) fuel))).
Proof.
  intros Hne Hse. revert epoch s.
  induction fuel as [|fuel IH]; intros epoch s Hle Hfuel.
  - simpl. destruct (Nat.ltb_spec (iteration s) iters); [lia|].
    by replace (iters - iteration s) with 0 by lia.
  - cbn [Train.while_loop].
    destruct (Nat.ltb_spec (iteration s) iters) as [Hlt|Hge].
    2:{ replace (iters - iteration s) with 0 by lia. by rewrite take_0. }
    rewrite epoch_loop_steps by done.
    rewrite schedule_S.
    pose proof (Hne (S epoch)) as Hbs.
    set (bs := train_loader (S epoch)) in *.
    assert (0 < length bs) by (destruct bs; [done|simpl; lia]).
    destruct (Nat.ltb_spec (length bs) (iters - iteration s)) as [Hl|Hl].
    + rewrite IH; rewrite ?steps_iteration, ?length_fmap; try lia.
      rewrite take_app_ge by (rewrite length_fmap; lia).
      rewrite foldl_app, length_fmap.
      do 3 f_equal. lia.
    + rewrite take_app_le by (rewrite length_fmap; lia).
      set (s1 := foldl step s _).
      assert (iteration s1 = iters) as Hs1.
      { subst s1. rewrite steps_iteration, length_take, length_fmap. lia. }
      destruct fuel; simpl; rewrite Hs1, Nat.ltb_irrefl; done.
Qed.

(** *** What one pass through the body appends to the log *)

Abbreviation fired := (Train.fired (Batch:=Batch) loss_cbs eval_cbs).
Abbreviation closing := (Train.closing (Batch:=Batch) iters save_every).

Lemma step_log (s : @state MS Batch) eb :
  log (step s eb)
  = log s ++ [Trained (S (iteration s)) eb.1 eb.2]
          ++ fired (S (iteration s)) eb.1 ++ closing (S (iteration s)).
Proof.
  unfold Train.step, Train.body, Train.fired, Train.closing. cbn [fst snd].
  destruct (S (iteration s) =? iters); cbn [log snd].
  { by rewrite <- !(assoc_L (++)). }
  destruct save_every as [k|]; cbn [log snd]; [|by rewrite app_nil_r].
  destruct (k =? 0); cbn [log snd]; [by rewrite app_nil_r|].
  destruct (_ =? 0); cbn [log snd]; [|by rewrite app_nil_r].
  by rewrite <- !(assoc_L (++)).
Qed.

Lemma omap_fire_None {B} (g : @event Batch → option B) mk cbs :
  (∀ cb, g (mk cb) = None) → omap g (fire mk cbs) = [].
Proof.
  intros Hg. unfold fire.
  induction (omap (λ cb, cb) cbs) as [|cb l IH]; [done|].
  csimpl. by rewrite Hg.
Qed.

Lemma omap_fire_Some (g : @event Batch → option (@event Batch)) mk cbs :
  (∀ cb, g (mk cb) = Some (mk cb)) → omap g (fire mk cbs) = fire mk cbs.
Proof.
  intros Hg. unfold fire.
  induction (omap (λ cb, cb) cbs) as [|cb l IH]; [done|].
  csimpl. by rewrite Hg, IH.
Qed.

Lemma omap_closing_None {B} (g : @event Batch → option B) i :
  g BarClosed = None → (∀ j, g (Saved j) = None) → omap g (closing i) = [].
Proof.
  intros Hb Hs. unfold Train.closing.
  destruct (i =? iters); [by csimpl; rewrite Hb|].
  destruct save_every as [k|]; [|done].
  destruct (k =? 0); [done|].
  destruct (_ =? 0); [|done]. csimpl. by rewrite Hs.
Qed.

Lemma step_trained (s : @state MS Batch) eb :
  trained_on (log (step s eb)) = trained_on (log s) ++ [eb.2].
Proof.
  rewrite step_log. unfold trained_on, Train.fired.
  rewrite !omap_app, !omap_fire_None, omap_closing_None by done.
  done.
Qed.

Lemma steps_trained (s : @state MS Batch) l :
  trained_on (log (foldl step s l)) = trained_on (log s) ++ l.*2.
Proof.
  revert s. induction l as [|eb l IH]; intros s; simpl; [by rewrite app_nil_r|].
  by rewrite IH, step_trained, <- (assoc_L (++)).
Qed.

Lemma steps_model (s : @state MS Batch) l :
  model (foldl step s l) = foldl train_a_batch_fn (model s) l.*2.
Proof.
  revert s. induction l as [|eb l IH]; intros s; simpl; [done|].
  rewrite IH. f_equal.
  unfold Train.step, Train.body.
  destruct (_ =? iters); [done|].
  destruct save_every as [k|]; [|done].
  destruct (k =? 0); [done|]. by destruct (_ =? 0).
Qed.

Lemma step_saved (s : @state MS Batch) eb k :
  save_every = Some k → 0 < k →
  saved_at (log (step s eb))
  = saved_at (log s)
    ++ filter (λ i, i ≠ iters ∧ i `mod` k = 0) [S (iteration s)].
Proof.
  intros Hse Hk. rewrite step_log. unfold saved_at, Train.fired.
  rewrite !omap_app, !omap_fire_None by done.
  f_equal. unfold Train.closing. rewrite Hse.
  replace (k =? 0) with false by (symmetry; apply Nat.eqb_neq; lia).
  destruct (Nat.eqb_spec (S (iteration s)) iters) as [Heq|Hne].
  { rewrite filter_cons_False by (intros [? _]; done). done. }
  destruct (Nat.eqb_spec (S (iteration s) `mod` k) 0) as [H0|H0].
  - by rewrite filter_cons_True.
  - rewrite filter_cons_False by (intros [_ ?]; done). done.
Qed.

Lemma steps_saved (s : @state MS Batch) l k :
  save_every = Some k → 0 < k →
  saved_at (log (foldl step s l))
  = saved_at (log s)
    ++ filter (λ i, i ≠ iters ∧ i `mod` k = 0) (seq (S (iteration s)) (length l)).
Proof.
  intros Hse Hk. revert s.
  induction l as [|eb l IH]; intros s; simpl; [by rewrite app_nil_r|].
  rewrite IH, (step_saved _ _ k), step_iteration, <- (assoc_L (++)) by done.
  f_equal.
  change (S (iteration s) :: seq (S (S (iteration s))) (length l))
    with ([S (iteration s)] ++ seq (S (S (iteration s))) (length l)).
  by rewrite filter_app.
Qed.

Lemma step_callbacks (s : @state MS Batch) eb :
  callbacks_of (log (step s eb))
  = callbacks_of (log s) ++ fired (S (iteration s)) eb.1.
Proof.
  rewrite step_log. unfold callbacks_of, Train.fired.
  rewrite !omap_app, !omap_fire_Some, omap_closing_None by done.
  by rewrite app_nil_r.
Qed.

Lemma steps_callbacks (s : @state MS Batch) l :
  callbacks_of (log (foldl step s l))
  = callbacks_of (log s)
    ++ concat (imap (λ j eb, fired (S (iteration s + j)) eb.1) l).
Proof.
  revert s. induction l as [|eb l IH]; intros s; simpl; [by rewrite app_nil_r|].
  rewrite IH, step_callbacks, step_iteration, <- (assoc_L (++)).
  f_equal. rewrite Nat.add_0_r. f_equal. f_equal.
  apply imap_ext. intros j eb' _. simpl. f_equal. lia.
Qed.

(** *** The batches of the passes *)

Lemma schedule_batches first epochs :
  (schedule first epochs).*2 = concat (train_loader <$> seq first epochs).
Proof.
  revert first. induction epochs as [|n IH]; intros first; [done|].
  rewrite schedule_S, fmap_app, IH. csimpl. f_equal.
  rewrite <- list_fmap_compose. apply list_fmap_id.
Qed.

Lemma take_schedule_fuel fuel :
  (∀ e, train_loader e ≠ []) →
  iters ≤ fuel →
  take iters (schedule 1 fuel) = take iters (schedule 1 iters).
Proof.
  intros Hne Hle.
  replace fuel with (iters + (fuel - iters)) by lia.
  unfold Train.schedule. rewrite seq_app, bind_app.
  rewrite take_app_le; [done|].
  apply (schedule_length_ge 1 iters Hne).
Qed.

Lemma schedule_epoch L first epochs j eb :
  (∀ e, length (train_loader e) = L) →
  0 < L →
  schedule first epochs !! j = Some eb →
  eb.1 = first + j `div` L.
Proof.
  intros HL HL0. revert first j.
  induction epochs as [|n IH]; intros first j; [done|].
  rewrite schedule_S. intros Hj.
  apply lookup_app_Some in Hj as [Hj|[Hge Hj]].
  - apply lookup_lt_Some in Hj as Hlt. rewrite length_fmap, HL in Hlt.
    rewrite list_lookup_fmap in Hj.
    destruct (train_loader first !! j); [|done].
    injection Hj as <-. simpl. rewrite Nat.div_small by done. lia.
  - rewrite length_fmap, HL in Hge, Hj.
    rewrite (IH _ _ Hj).
    replace j with ((j - L) + 1 * L) at 2 by lia.
    rewrite Nat.div_add by lia. lia.
Qed.
End TrainFacts.

Lemma filter_ext_in {A} (P Q : A → Prop) `{∀ x, Decision (P x)}
    `{∀ x, Decision (Q x)} (l : list A) :
  (∀ x, x ∈ l → P x ↔ Q x) → filter P l = filter Q l.
Proof.
  induction l as [|x l IH]; intros HPQ; [done|].
  assert (filter P l = filter Q l) as Hl.
  { apply IH. intros y Hy. apply HPQ. by right. }
  destruct (decide (P x)) as [HP|HP].
  - rewrite !filter_cons_True, Hl; [done| |done]. apply HPQ; [left|done].
  - rewrite !filter_cons_False, Hl; [done| |done].
    intros HQ. apply HP, HPQ; [left|done].
Qed.

Lemma concat_imap_seq {A B} (g : nat → A → list B) (h : nat → list B)
    (l : list A) (a : nat) :
  (∀ j x, l !! j = Some x → g j x = h (a + j)) →
  concat (imap g l) = seq a (length l) ≫= h.
Proof.
  revert g a. induction l as [|x l IH]; intros g a Hg; [done|].
  csimpl. rewrite (Hg 0 x eq_refl), Nat.add_0_r. f_equal.
  apply IH. intros j y Hj. unfold compose. rewrite (Hg (S j) y Hj). f_equal. lia.
Qed.

(** X1. [train] returns after exactly [iters] training steps whenever every
    pass over the loader yields at least one batch (and [save_every] is not
    0): the batches trained on are the first [iters] batches of the
    successive passes, in order, the model is the result of the training
    steps on them, and [iters] passes of fuel are always enough. *)
Theorem train_runs_exactly_iters
    {MS Batch : Type} (train_a_batch_fn : MS → Batch → MS)
    (train_loader : nat → list Batch) (loss_cbs eval_cbs : list (option nat))
    (m : MS) (iters : nat) (save_every : option nat) (fuel : nat) :
  (∀ e, train_loader e ≠ []) →
  save_every ≠ Some 0 →
  iters ≤ fuel →
  ∃ s,
    Train.train train_a_batch_fn train_loader loss_cbs eval_cbs fuel m iters
      save_every = Train.Returned s
    ∧ Train.iteration s = iters
    ∧ Train.trained_on (Train.log s)
      = take iters (concat (train_loader <$> seq 1 iters))
    ∧ Train.model s = foldl train_a_batch_fn m (Train.trained_on (Train.log s)).
Proof.
  intros Hne Hse Hfuel. unfold Train.train.
  eexists. split.
  { apply while_loop_steps; simpl; try done; lia. }
  cbn [Train.iteration]. rewrite Nat.sub_0_r.
  rewrite take_schedule_fuel by done.
  assert (Hlen : iters ≤ length (Train.schedule train_loader 1 iters))
    by (by apply schedule_length_ge).
  rewrite steps_iteration, steps_trained, steps_model, length_take.
  cbn [Train.iteration Train.log Train.model Train.trained_on omap].
  rewrite fmap_take, schedule_batches.
  split; [lia|]. split; [done|]. done.
Qed.

Lemma train_runs_exactly_iters_witness :
  ∃ s,
    Train.train Nat.add (λ e, [e; 10 * e]) [Some 0; None] [] 5 0 5 (Some 2)
    = Train.Returned s
    ∧ Train.iteration s = 5
    ∧ Train.trained_on (Train.log s) = [1; 10; 2; 20; 3]
    ∧ Train.model s = 36.
Proof.
  destruct (train_runs_exactly_iters Nat.add (λ e, [e; 10 * e]) [Some 0; None] []
              0 5 (Some 2) 5) as (s & Hrun & Hit & Htr & Hm).
  - intros e. discriminate.
  - discriminate.
  - lia.
  - exists s. split; [exact Hrun|]. split; [exact Hit|].
    split; [exact Htr|]. rewrite Hm, Htr. reflexivity.
Defined.

(** X2. With [save_every = k > 0], [train] saves a checkpoint after exactly
    those iterations below [iters] that are multiples of [k]; the last
    iteration is never checkpointed, even when [iters] is a multiple of
    [k], because the loop is left before the checkpoint test. *)
Theorem train_checkpoints
    {MS Batch : Type} (train_a_batch_fn : MS → Batch → MS)
    (train_loader : nat → list Batch) (loss_cbs eval_cbs : list (option nat))
    (m : MS) (iters k : nat) (fuel : nat) :
  (∀ e, train_loader e ≠ []) →
  0 < k →
  iters ≤ fuel →
  ∃ s,
    Train.train train_a_batch_fn train_loader loss_cbs eval_cbs fuel m iters
      (Some k) = Train.Returned s
    ∧ Train.saved_at (Train.log s)
      = filter (λ i, i `mod` k = 0) (seq 1 (iters - 1)).
Proof.
  intros Hne Hk Hfuel. unfold Train.train.
  eexists. split.
  { apply while_loop_steps; simpl; try done; [|lia|lia].
    intros [= ->]. lia. }
  cbn [Train.iteration]. rewrite Nat.sub_0_r.
  assert (Hlen : iters ≤ length (Train.schedule train_loader 1 fuel)).
  { pose proof (schedule_length_ge train_loader 1 fuel Hne). lia. }
  rewrite (steps_saved _ _ _ _ _ _ _ k) by done.
  rewrite length_take. cbn [Train.iteration Train.log Train.saved_at omap app].
  replace (iters `min` _) with iters by lia.
  destruct iters as [|n]; [done|].
  replace (S n - 1) with n by lia.
  rewrite seq_S, filter_app.
  rewrite (filter_cons_False _ (1 + n)) by (intros [? _]; lia).
  rewrite filter_nil, app_nil_r.
  apply filter_ext_in. intros i Hi.
  apply elem_of_seq in Hi. split; [intros [_ ?]; done|]. intros ?. split; [lia|done].
Qed.

Lemma train_checkpoints_witness :
  ∃ s,
    Train.train Nat.add (λ e, [e; 10 * e]) [] [] 6 0 6 (Some 2) = Train.Returned s
    ∧ Train.saved_at (Train.log s) = [2; 4].
Proof.
  destruct (train_checkpoints Nat.add (λ e, [e; 10 * e]) [] [] 0 6 2 6)
    as (s & Hrun & Hsaved).
  - intros e. discriminate.
  - lia.
  - lia.
  - exists s. split; [exact Hrun|]. rewrite Hsaved. reflexivity.
Defined.

(** X3. A loader that yields no batch (for instance a dataset smaller than
    one batch with [drop_last]) makes [train] loop forever as soon as
    [iters > 0]: no number of passes lets it return. *)
Theorem train_empty_loader_never_returns
    {MS Batch : Type} (train_a_batch_fn : MS → Batch → MS)
    (train_loader : nat → list Batch) (loss_cbs eval_cbs : list (option nat))
    (m : MS) (iters : nat) (save_every : option nat) :
  (∀ e, train_loader e = []) →
  0 < iters →
  ∀ fuel,
    Train.train train_a_batch_fn train_loader loss_cbs eval_cbs fuel m iters
      save_every = Train.Diverges.
Proof.
  intros Hempty Hiters fuel. unfold Train.train.
  generalize 0 at 1. intros epoch.
  revert epoch. induction fuel as [|fuel IH]; intros epoch.
  - simpl. by destruct (Nat.ltb_spec 0 iters); [|lia].
  - cbn [Train.while_loop Train.iteration].
    destruct (Nat.ltb_spec 0 iters); [|lia].
    rewrite Hempty. simpl. apply IH.
Qed.

Lemma train_empty_loader_never_returns_witness :
  Train.train Nat.add (λ _, []) [Some 0] [Some 1] 50 0 3 None = Train.Diverges.
Proof.
  apply (train_empty_loader_never_returns Nat.add (λ _, []) [Some 0] [Some 1] 0 3 None).
  - intros e. reflexivity.
  - lia.
Defined.

(** X4. With [save_every = 0] and a first batch [b], [train] runs one
    training step and its callbacks; it then returns if [iters = 1] (the
    loop is left before the checkpoint test) and raises ZeroDivisionError
    in [iteration % save_every] if [iters > 1]. *)
Theorem train_save_every_zero
    {MS Batch : Type} (train_a_batch_fn : MS → Batch → MS)
    (train_loader : nat → list Batch) (loss_cbs eval_cbs : list (option nat))
    (m : MS) (iters fuel : nat) (b : Batch) (bs : list Batch) :
  train_loader 1 = b :: bs →
  0 < iters →
  Train.train train_a_batch_fn train_loader loss_cbs eval_cbs (S fuel) m iters
    (Some 0)
  = if iters =? 1
    then Train.Returned
           (Train.State (train_a_batch_fn m b) 1
              ([Train.Trained 1 1 b] ++ Train.fired loss_cbs eval_cbs 1 1
                 ++ [Train.BarClosed]))
    else Train.ZeroDivisionError
           (Train.State (train_a_batch_fn m b) 1
              ([Train.Trained 1 1 b] ++ Train.fired loss_cbs eval_cbs 1 1)).
Proof.
  intros Hb Hiters. unfold Train.train.
  cbn [Train.while_loop Train.iteration].
  destruct (Nat.ltb_spec 0 iters); [|lia].
  rewrite Hb. cbn [Train.epoch_loop]. unfold Train.body, Train.fired.
  cbn [Train.iteration Train.model Train.log app].
  destruct (Nat.eqb_spec 1 iters) as [<-|Hne].
  - simpl. rewrite <- (assoc_L (++)). by destruct fuel.
  - destruct (Nat.eqb_spec iters 1); [lia|]. done.
Qed.

Lemma train_save_every_zero_witness :
  Train.train Nat.add (λ e, [e; 10 * e]) [Some 7] [] 1 0 4 (Some 0)
  = Train.ZeroDivisionError
      (Train.State 1 1 [Train.Trained 1 1 1; Train.LossCb 7 1 1]).
Proof.
  apply (train_save_every_zero Nat.add (λ e, [e; 10 * e]) [Some 7] [] 0 4 0 1 [10]).
  - reflexivity.
  - lia.
Defined.

(** X5. When every pass yields [L > 0] batches, the callbacks run at each
    of the iterations 1..[iters] and at no other time: first the loss
    callbacks, then the evaluation callbacks, each in list order with the
    [None] entries skipped, and all are given the iteration number [i] and
    the epoch number [(i-1) // L + 1]. *)
Theorem train_callbacks
    {MS Batch : Type} (train_a_batch_fn : MS → Batch → MS)
    (train_loader : nat → list Batch) (loss_cbs eval_cbs : list (option nat))
    (m : MS) (iters : nat) (save_every : option nat) (fuel L : nat) :
  (∀ e, length (train_loader e) = L) →
  0 < L →
  save_every ≠ Some 0 →
  iters ≤ fuel →
  ∃ s,
    Train.train train_a_batch_fn train_loader loss_cbs eval_cbs fuel m iters
      save_every = Train.Returned s
    ∧ Train.callbacks_of (Train.log s)
      = i ← seq 1 iters;
        Train.fired loss_cbs eval_cbs i (S ((i - 1) `div` L)).
Proof.
  intros HL HL0 Hse Hfuel.
  assert (Hne : ∀ e, train_loader e ≠ []).
  { intros e He. specialize (HL e). rewrite He in HL. simpl in HL. lia. }
  unfold Train.train. eexists. split.
  { apply while_loop_steps; simpl; try done; lia. }
  cbn [Train.iteration]. rewrite Nat.sub_0_r.
  pose proof (schedule_length_ge train_loader 1 fuel Hne) as Hlen.
  rewrite steps_callbacks. cbn [Train.iteration Train.log Train.callbacks_of omap app].
  rewrite (concat_imap_seq _
             (λ i, Train.fired loss_cbs eval_cbs i (S ((i - 1) `div` L))) _ 1).
  - rewrite length_take. by replace (iters `min` _) with iters by lia.
  - intros j eb Hj. apply lookup_take_Some in Hj as [Hj _].
    rewrite (schedule_epoch train_loader L 1 fuel j eb HL HL0 Hj).
    simpl. by rewrite Nat.sub_0_r.
Qed.

Lemma train_callbacks_witness :
  ∃ s,
    Train.train Nat.add (λ e, [e; 10 * e]) [Some 7; None] [Some 8] 3 0 3 None
    = Train.Returned s
    ∧ Train.callbacks_of (Train.log s)
      = [Train.LossCb 7 1 1; Train.EvalCb 8 1 1;
         Train.LossCb 7 2 1; Train.EvalCb 8 2 1;
         Train.LossCb 7 3 2; Train.EvalCb 8 3 2].
Proof.
  destruct (train_callbacks Nat.add (λ e, [e; 10 * e]) [Some 7; None] [Some 8]
              0 3 None 3 2) as (s & Hrun & Hcb).
  - intros e. reflexivity.
  - lia.
  - discriminate.
  - lia.
  - exists s. split; [exact Hrun|]. rewrite Hcb. reflexivity.
Defined.

(** ** The class-variety mask *)

Lemma foldl_insert_one_length (idxs : list nat) (acc : list nat) :
  length (foldl (λ curRow idx, <[idx := 1]> curRow) acc idxs) = length acc.
Proof.
  revert acc. induction idxs as [|i idxs IH]; intros acc; simpl; [done|].
  by rewrite IH, length_insert.
Qed.

Lemma foldl_insert_one_lookup (idxs : list nat) (acc : list nat) (c : nat) :
  c < length acc →
  foldl (λ curRow idx, <[idx := 1]> curRow) acc idxs !! c
  = if decide (c ∈ idxs) then Some 1 else acc !! c.
Proof.
  revert acc. induction idxs as [|i idxs IH]; intros acc Hc; cbn [foldl].
  - rewrite decide_False; [done|]. apply not_elem_of_nil.
  - rewrite IH by (by rewrite length_insert).
    destruct (decide (c ∈ idxs)) as [Hin|Hin].
    + rewrite decide_True; [done|]. by right.
    + destruct (decide (c = i)) as [->|Hne].
      * rewrite decide_True by left. by rewrite list_lookup_insert_eq.
      * rewrite decide_False by (intros [?|?]%elem_of_cons; done).
        by rewrite list_lookup_insert_ne.
Qed.

(** X6. For [curated_classVariety] from the second task on (with
    [classes_per_task > 0]) the mask is a square 0/1 matrix with
    [batch_size_replay * curated_multiplier] rows, and its entry at row
    [r], column [c] is 1 exactly when [r] and [c] are congruent modulo the
    number [classes_per_task * (task-1)] of classes seen so far. *)
Theorem classVariety_mask_entries
    (batch_size_replay curated_multiplier classes_per_task task : nat) :
  0 < classes_per_task →
  2 ≤ task →
  let sampleAmt := batch_size_replay * curated_multiplier in
  let classNum := classes_per_task * (task - 1) in
  ∃ m,
    ClassVariety.mask sm_curated_classVariety batch_size_replay
      curated_multiplier classes_per_task task = ClassVariety.Mask m
    ∧ length m = sampleAmt
    ∧ Forall (λ row, length row = sampleAmt) m
    ∧ ∀ r c, r < sampleAmt → c < sampleAmt →
        (row ← m !! r; row !! c)
        = Some (if decide (c `mod` classNum = r `mod` classNum) then 1 else 0).
Proof.
  intros Hcpt Htask sampleAmt classNum.
  unfold ClassVariety.mask. fold sampleAmt classNum.
  rewrite bool_decide_eq_true_2 by done.
  destruct (Nat.ltb_spec 0 (task - 1)); [|lia]. cbn [andb].
  destruct (Nat.eqb_spec classNum 0) as [H0|_]; [subst classNum; nia|].
  cbn [andb]. eexists. split; [reflexivity|].
  unfold ClassVariety.indexList, ClassVariety.row_of.
  split; [by rewrite !length_fmap, length_seq|].
  split.
  - apply Forall_fmap, Forall_fmap, Forall_forall. intros r _. simpl.
    by rewrite foldl_insert_one_length, length_replicate.
  - intros r c Hr Hc.
    rewrite !list_lookup_fmap, lookup_seq_lt by done. simpl.
    rewrite foldl_insert_one_lookup by (by rewrite length_replicate).
    rewrite lookup_replicate_2 by done.
    destruct (decide (c `mod` classNum = r `mod` classNum)) as [Heq|Hne].
    + rewrite decide_True; [done|].
      apply list_elem_of_filter. split; [done|]. apply elem_of_seq. lia.
    + rewrite decide_False; [done|].
      intros [? _]%list_elem_of_filter. done.
Qed.

Lemma classVariety_mask_entries_witness :
  ∃ m,
    ClassVariety.mask sm_curated_classVariety 2 2 1 3 = ClassVariety.Mask m
    ∧ length m = 4
    ∧ (row ← m !! 1; row !! 3) = Some 1
    ∧ (row ← m !! 1; row !! 2) = Some 0.
Proof.
  destruct (classVariety_mask_entries 2 2 1 3) as (m & Hm & Hlen & _ & Hentry);
    [lia|lia|].
  exists m. split; [exact Hm|]. split; [exact Hlen|].
  split; [apply (Hentry 1 3); simpl; lia|apply (Hentry 1 2); simpl; lia].
Defined.

(** ** Class probabilities of the softmax sample methods *)

Section SoftmaxFacts.
Open Scope R_scope.

Lemma sum_app (a b : list R) : RealOps.sum (a ++ b) = RealOps.sum a + RealOps.sum b.
Proof. induction a as [|x a IH]; simpl; [lra|]. rewrite IH. lra. Qed.

Lemma sum_replicate_0 (n : nat) : RealOps.sum (replicate n 0) = 0.
Proof. induction n as [|n IH]; simpl; [done|]. rewrite IH. lra. Qed.

Lemma sum_nonneg (v : list R) : Forall (λ a, 0 <= a) v → 0 <= RealOps.sum v.
Proof. induction 1 as [|x v Hx _ IH]; simpl; lra. Qed.

Lemma sum_fmap_div {A} (f : A → R) (d : R) (l : list A) :
  RealOps.sum ((λ a, f a / d) <$> l) = RealOps.sum (f <$> l) / d.
Proof. induction l as [|x l IH]; csimpl; [lra|]. rewrite IH. lra. Qed.

Lemma sum_fmap_plus {A} (f g : A → R) (l : list A) :
  RealOps.sum ((λ a, f a + g a) <$> l)
  = RealOps.sum (f <$> l) + RealOps.sum (g <$> l).
Proof. induction l as [|x l IH]; csimpl; [lra|]. rewrite IH. lra. Qed.

Lemma sum_fmap_const {A} (c : R) (l : list A) :
  RealOps.sum ((λ _, c) <$> l) = INR (length l) * c.
Proof.
  induction l as [|x l IH]; [simpl; lra|].
  rewrite fmap_cons. unfold RealOps.sum in *. cbn [foldr length].
  rewrite IH, S_INR. lra.
Qed.

Lemma sum_exp_pos (v : list R) : v ≠ [] → 0 < RealOps.sum (exp <$> v).
Proof.
  destruct v as [|a v]; [done|]. intros _. csimpl.
  pose proof (exp_pos a).
  assert (0 <= RealOps.sum (exp <$> v)); [|lra].
  apply sum_nonneg, Forall_fmap, Forall_forall. intros b _. simpl.
  pose proof (exp_pos b). lra.
Qed.

(** A softmax is a probability vector. *)
Lemma softmax_sum (v : list R) : v ≠ [] → RealOps.sum (RealOps.softmax v) = 1.
Proof.
  intros Hv. unfold RealOps.softmax.
  rewrite (sum_fmap_div exp). pose proof (sum_exp_pos v Hv). field. lra.
Qed.

Lemma softmax_nonneg (v : list R) : Forall (λ a, 0 <= a) (RealOps.softmax v).
Proof.
  destruct v as [|a v]; [constructor|].
  pose proof (sum_exp_pos (a :: v) ltac:(done)) as Hpos.
  unfold RealOps.softmax. apply Forall_fmap, Forall_forall. intros b _. simpl.
  pose proof (exp_pos b). apply Rlt_le, Rdiv_lt_0_compat; done.
Qed.

Lemma softmax_length (v : list R) : length (RealOps.softmax v) = length v.
Proof. unfold RealOps.softmax. by rewrite length_fmap. Qed.

(** Summing a vector entry by entry. *)
Lemma sum_by_index (r : list R) :
  RealOps.sum ((λ j, default 0 (r !! j)) <$> seq 0 (length r)) = RealOps.sum r.
Proof.
  induction r as [|a r IH]; [done|].
  cbn [length seq]. csimpl. rewrite <- fmap_S_seq, <- list_fmap_compose.
  f_equal. exact IH.
Qed.

Lemma column_cons (r : list R) (rs : list (list R)) (c j : nat) :
  (j < length r)%nat →
  SoftmaxSampling.column (Matrix c (r :: rs)) j
  = default 0 (r !! j) :: SoftmaxSampling.column (Matrix c rs) j.
Proof.
  intros Hj. unfold SoftmaxSampling.column. csimpl.
  destruct (lookup_lt_is_Some_2 r j Hj) as [a ->]. done.
Qed.

Lemma column_length (rs : list (list R)) (c w j : nat) :
  Forall (λ r, length r = w) rs → (j < w)%nat →
  length (SoftmaxSampling.column (Matrix c rs) j) = length rs.
Proof.
  intros Hrs Hj. induction Hrs as [|r rs Hr _ IH]; [done|].
  rewrite column_cons by lia. simpl. by rewrite IH.
Qed.

(** Summing a matrix by columns or by rows. *)
Lemma sum_columns (rs : list (list R)) (c w : nat) :
  Forall (λ r, length r = w) rs →
  RealOps.sum ((λ j, RealOps.sum (SoftmaxSampling.column (Matrix c rs) j))
                 <$> seq 0 w)
  = RealOps.sum (RealOps.sum <$> rs).
Proof.
  induction 1 as [|r rs Hr Hrs IH].
  - csimpl. rewrite (sum_fmap_const 0). lra.
  - csimpl. rewrite <- IH, <- (sum_by_index r), Hr, <- sum_fmap_plus.
    f_equal. apply list_fmap_ext. intros i j Hj.
    apply lookup_seq in Hj as [-> Hj]. simpl.
    rewrite column_cons by lia. done.
Qed.

Lemma column_nonneg (rs : list (list R)) (c j : nat) :
  Forall (Forall (λ a, 0 <= a)) rs →
  Forall (λ a, 0 <= a) (SoftmaxSampling.column (Matrix c rs) j).
Proof.
  intros Hrs. unfold SoftmaxSampling.column. simpl.
  induction Hrs as [|r rs Hr _ IH]; [constructor|].
  csimpl. destruct (r !! j) as [a|] eqn:Ha; [|done].
  constructor; [|done].
  by apply (Forall_lookup_1 _ _ _ _ Hr Ha).
Qed.
End SoftmaxFacts.

(** X7. The class probabilities handed to the generator by the [softmax]
    and [curated_softmax] sample methods are a probability distribution
    over the classes of the previous tasks: for a non-empty batch scored on
    [C] output units (real arithmetic), [sampleProbs] has [C] entries, none
    negative, that sum to 1, and every class from
    [classes_per_task*(task-1)] on has probability 0. *)
Theorem sampleProbs_is_distribution
    (newScores_og : matrix R) (classes_per_task task : nat) :
  wf_matrix newScores_og →
  0 < nrows newScores_og →
  0 < ncols newScores_og →
  0 < classes_per_task →
  2 ≤ task →
  let sampleProbs :=
    SoftmaxSampling.sampleProbs RealOps.real_ops newScores_og classes_per_task task in
  length sampleProbs = ncols newScores_og
  ∧ Forall (λ p, (0 <= p)%R) sampleProbs
  ∧ RealOps.sum sampleProbs = 1%R
  ∧ ∀ j, classes_per_task * (task - 1) ≤ j < ncols newScores_og →
      sampleProbs !! j = Some 0%R.
Proof.
  intros Hwf Hn HC Hcpt Htask.
  unfold SoftmaxSampling.sampleProbs.
  replace (Z.to_nat (Z.of_nat classes_per_task * (Z.of_nat task - 2 + 1)))
    with (classes_per_task * (task - 1)) by nia.
  set (k := classes_per_task * (task - 1)).
  assert (Hk : 0 < k) by (subst k; nia).
  set (C := ncols newScores_og) in *.
  set (w := k `min` C).
  set (S := RealOps.softmax <$> (take k <$> rows newScores_og)).
  assert (HS : Forall (λ r, length r = w) S).
  { subst S. apply Forall_fmap, Forall_fmap.
    eapply Forall_impl; [exact Hwf|]. intros r Hr. simpl.
    rewrite softmax_length, length_take, Hr. done. }
  assert (HSn : length S = nrows newScores_og).
  { subst S. by rewrite !length_fmap. }
  cbn [slice_cols ncols rows t_softmax RealOps.real_ops t_zero t_arith a_zero
       RealOps.real_arith].
  fold C. fold w. fold S.
  set (avgError := SoftmaxSampling.mean_dim0 RealOps.real_ops (Matrix w S)).
  assert (Havg : length avgError = w).
  { subst avgError. unfold SoftmaxSampling.mean_dim0. simpl.
    by rewrite length_fmap, length_seq. }
  rewrite take_ge by lia.
  rewrite drop_replicate.
  split; [rewrite length_app, length_replicate, Havg; lia|].
  split; [|split].
  - apply Forall_app. split.
    + subst avgError. unfold SoftmaxSampling.mean_dim0. cbn [ncols t_mean RealOps.real_ops].
      apply Forall_fmap, Forall_forall. intros j Hj. simpl.
      apply elem_of_seq in Hj.
      unfold RealOps.mean. rewrite (column_length _ _ w) by (done || lia).
      apply Rmult_le_pos.
      * apply sum_nonneg, column_nonneg. subst S.
        apply Forall_fmap, Forall_forall. intros r _. apply softmax_nonneg.
      * apply Rlt_le, Rinv_0_lt_compat. rewrite HSn. by apply lt_0_INR.
    + apply Forall_forall. intros p Hp. apply elem_of_replicate in Hp as [-> _].
      apply Rle_refl.
  - rewrite sum_app, sum_replicate_0, Rplus_0_r.
    subst avgError. unfold SoftmaxSampling.mean_dim0. cbn [ncols t_mean RealOps.real_ops].
    assert (Hpos : (0 < INR (length S))%R) by (rewrite HSn; by apply lt_0_INR).
    transitivity
      (RealOps.sum ((λ j, RealOps.sum (SoftmaxSampling.column (Matrix w S) j)
                          / INR (length S))%R <$> seq 0 w)).
    { f_equal. apply list_fmap_ext. intros i j Hj.
      apply lookup_seq in Hj as [-> Hj]. simpl.
      unfold RealOps.mean. by rewrite (column_length _ _ w). }
    rewrite (sum_fmap_div (λ j, RealOps.sum (SoftmaxSampling.column (Matrix w S) j))).
    rewrite (sum_columns S w w HS).
    replace (RealOps.sum <$> S) with ((λ _, 1%R) <$> S).
    { rewrite sum_fmap_const. field. lra. }
    apply list_fmap_ext. intros i r Hr. symmetry.
    subst S. rewrite !list_lookup_fmap in Hr.
    destruct (rows newScores_og !! i) as [row|] eqn:Hrow; [|done].
    injection Hr as <-. apply softmax_sum.
    pose proof (Forall_lookup_1 _ _ _ _ Hwf Hrow) as Hlen. simpl in Hlen.
    intros Hnil. apply (f_equal length) in Hnil.
    rewrite length_take, Hlen in Hnil. simpl in Hnil. lia.
  - intros j [Hkj HjC].
    rewrite lookup_app_r by lia.
    apply lookup_replicate_2. lia.
Qed.

(** ** Active classes *)

Lemma concat_class_ranges (classes_per_task task : nat) :
  concat ((λ i, seq (classes_per_task * i) classes_per_task) <$> seq 0 task)
  = seq 0 (classes_per_task * task).
Proof.
  induction task as [|task IH]; [by rewrite Nat.mul_0_r|].
  rewrite seq_S, fmap_app, concat_app, IH. simpl. rewrite app_nil_r.
  replace (classes_per_task * S task)
    with (classes_per_task * task + classes_per_task) by lia.
  by rewrite seq_app.
Qed.

(** X8. The per-task class lists of the Task-IL scenario tile the class list
    of the Class-IL scenario: there is one list per task so far, the list of
    task [i] (from 0) holds the [classes_per_task] classes from
    [classes_per_task*i] on, and their concatenation is the list of all
    classes seen so far that the Class-IL scenario uses. *)
Theorem active_classes_tile (classes_per_task task : nat) :
  ∃ l,
    active_classes_of sc_task classes_per_task task = ActivePerTask l
    ∧ length l = task
    ∧ active_classes_of sc_class classes_per_task task = ActiveFlat (concat l)
    ∧ ∀ i cls, l !! i = Some cls →
        length cls = classes_per_task
        ∧ ∀ c, c ∈ cls ↔ classes_per_task * i ≤ c < classes_per_task * (i + 1).
Proof.
  eexists. split; [reflexivity|].
  split; [by rewrite length_fmap, length_seq|].
  split; [simpl; by rewrite concat_class_ranges|].
  intros i cls Hi. rewrite list_lookup_fmap in Hi.
  destruct (seq 0 task !! i) as [j|] eqn:Hj; [|done].
  apply lookup_seq in Hj as [-> _]. injection Hi as <-.
  split; [apply length_seq|].
  intros c. rewrite elem_of_seq. lia.
Qed.

(** X9. From the first task on, the classes on which the Fisher information
    is estimated when a task ends are the classes that were active while
    it was trained: the last of the per-task lists in the Task-IL scenario,
    the whole list in the Class-IL scenario, and no restriction in the
    Domain-IL scenario. *)
Theorem ewc_classes_are_active_classes
    (sc : scenario) (classes_per_task task : nat) :
  1 ≤ task →
  match active_classes_of sc classes_per_task task with
  | ActivePerTask l => ewc_allowed_classes sc classes_per_task task = last l
  | ActiveFlat l => ewc_allowed_classes sc classes_per_task task = Some l
  | ActiveNone => ewc_allowed_classes sc classes_per_task task = None
  end.
Proof.
  intros Htask.
  destruct sc; cbn [active_classes_of ewc_allowed_classes]; [|done|].
  - destruct task as [|task]; [lia|].
    rewrite fmap_last, seq_S, last_snoc. unfold range. cbn [fmap option_fmap option_map Nat.add].
    replace (S task - 1) with task by lia.
    replace (classes_per_task * S task - classes_per_task * task)
      with classes_per_task by nia.
    done.
  - unfold range. by rewrite Nat.sub_0_r.
Qed.

Lemma ewc_classes_are_active_classes_witness :
  ewc_allowed_classes sc_task 2 3 = last [[0; 1]; [2; 3]; [4; 5]].
Proof.
  apply (ewc_classes_are_active_classes sc_task 2 3). lia.
Defined.

(** ** The task iterator: small datasets, labels, batch sizes *)

Lemma mapM_result_err {A B} (f : A → result B) (e : error) (l : list A) :
  (∀ a, a ∈ l → f a = Err e ∨ ∃ b, f a = Ok b) →
  (∃ a, a ∈ l ∧ f a = Err e) →
  mapM f l = Err e.
Proof.
  induction l as [|x l IH]; intros Hall (a & Hin & Ha).
  - by apply elem_of_nil in Hin.
  - change (mapM f (x :: l)) with (y ← f x; r ← mapM f l; mret (y :: r)).
    destruct (Hall x) as [Hx|[b Hx]]; [left| |]; rewrite Hx; [done|].
    simpl. rewrite IH; [done| |].
    + intros a' Ha'. apply Hall. by right.
    + apply elem_of_cons in Hin as [->|Hin]; [congruence|]. eauto.
Qed.

Section BatchContents.
Import TaskIterator.
Context {X : Type}.

Lemma batches_subseteq bs (l : list (@sample X)) n :
  Forall (λ b, b ⊆ l) (batches bs l n).
Proof.
  revert l. induction n as [|n IH]; intros l; simpl; constructor.
  - apply subseteq_take.
  - eapply Forall_impl; [apply IH|]. intros b Hb. simpl in Hb.
    etrans; [exact Hb|apply subseteq_drop].
Qed.

Variable shuffle : nat → nat → list (@sample X) → list (@sample X).
Hypothesis shuffle_perm : ∀ slot k l, shuffle slot k l ≡ₚ l.

Lemma all_batches_contents slot (ds : list (@sample X)) bs k i b :
  all_batches shuffle slot ds bs k !! i = Some b →
  length b = bs ∧ ∀ xy, xy ∈ b → xy ∈ ds.
Proof.
  unfold all_batches. intros Hb. split.
  - eapply (Forall_lookup_1 _ _ _ _ (batches_sizes bs _ _ _) Hb).
    Unshelve. rewrite (Permutation_length (shuffle_perm slot k ds)).
    rewrite Nat.mul_comm. apply Nat.Div0.mul_div_le.
  - intros xy Hxy.
    pose proof (Forall_lookup_1 _ _ _ _ (batches_subseteq bs _ _) Hb) as Hsub.
    simpl in Hsub. apply Hsub in Hxy. by rewrite shuffle_perm in Hxy.
Qed.

Lemma collate_labels shift (P : Z → Prop) (ds b : list (@sample X)) :
  Forall (λ xy, P (xy.2 - shift)%Z) ds →
  (∀ xy, xy ∈ b → xy ∈ ds) →
  Forall P (collate shift b).2.
Proof.
  intros Hds Hb. unfold collate. simpl.
  apply Forall_fmap, Forall_fmap, Forall_forall. intros xy Hxy. simpl.
  by apply (proj1 (Forall_forall _ _) Hds), Hb.
Qed.
End BatchContents.

Lemma fetch_offline_small {X : Type}
    (shuffle : nat → nat → list (@TaskIterator.sample X)
               → list (@TaskIterator.sample X))
    classes_per_task train_datasets batch_size task ks task_id :
  task_id < task →
  length (default [] (train_datasets !! task_id))
    < TaskIterator.batch_size_to_use batch_size task →
  TaskIterator.fetch_offline shuffle classes_per_task train_datasets
    batch_size task (TaskIterator.offline_task_start task ks)
  = Err StopIteration.
Proof.
  intros Hid Hlen. unfold TaskIterator.fetch_offline.
  set (f := λ '(task_id, s), _).
  rewrite (mapM_result_err f StopIteration); [done| |].
  + intros [i s] Hin. apply list_elem_of_lookup in Hin as [j Hj].
    rewrite list_lookup_imap in Hj.
    unfold TaskIterator.refresh_all, TaskIterator.offline_task_start in Hj.
    rewrite list_lookup_imap, list_lookup_fmap in Hj.
    destruct (seq 0 task !! j) as [j'|]; [|done].
    simpl in Hj. injection Hj as <- <-.
    subst f. simpl. unfold TaskIterator.next_batch. simpl.
    destruct (TaskIterator.batches _ _ _); [by left|right; eauto].
  + exists (task_id,
            TaskIterator.refresh shuffle task_id
              (default [] (train_datasets !! task_id))
              (TaskIterator.batch_size_to_use batch_size task)
              (TaskIterator.task_start None (default 0 (ks !! task_id)))).
    split.
    * apply list_elem_of_lookup. exists task_id.
      rewrite list_lookup_imap.
      unfold TaskIterator.refresh_all, TaskIterator.offline_task_start.
      rewrite list_lookup_imap, list_lookup_fmap, lookup_seq_lt by done.
      done.
    * subst f. simpl. unfold TaskIterator.next_batch. simpl.
      rewrite Nat.div_small by done. done.
Qed.

(** X10. A dataset with fewer samples than one batch stops training: with
    [drop_last] the loader built at the first iteration of the task has no
    batch, and the first fetch raises StopIteration.  In the offline
    Task-IL mode this happens as soon as one of the tasks so far has fewer
    than [ceil(batch_size / task)] samples. *)
Theorem small_dataset_raises_StopIteration
    {X : Type} (shuffle : nat → nat → list (@TaskIterator.sample X)
                          → list (@TaskIterator.sample X)) :
  (∀ (sc : bool) classes_per_task task train_dataset batch_size dl k n,
     length train_dataset < batch_size → 0 < n →
     TaskIterator.run_single shuffle sc classes_per_task task train_dataset
       batch_size n (TaskIterator.task_start dl k) = Err StopIteration)
  ∧ (∀ classes_per_task train_datasets batch_size task ks n task_id,
       task_id < task →
       length (default [] (train_datasets !! task_id))
         < TaskIterator.batch_size_to_use batch_size task →
       0 < n →
       TaskIterator.run_offline shuffle classes_per_task train_datasets
         batch_size task n (TaskIterator.offline_task_start task ks)
       = Err StopIteration).
Proof.
  split.
  - intros sc cpt task ds bs dl k [|n] Hlen Hn; [lia|].
    cbn [TaskIterator.run_single]. unfold TaskIterator.fetch_single.
    unfold TaskIterator.refresh, TaskIterator.task_start,
      TaskIterator.get_data_loader, TaskIterator.next_batch.
    cbn [TaskIterator.iters_left TaskIterator.rebuilds TaskIterator.data_loader].
    change ((1 - 1 =? 0)%Z) with true. cbn iota.
    cbn [TaskIterator.iters_left TaskIterator.rebuilds TaskIterator.data_loader
         TaskIterator.remaining TaskIterator.n_batches].
    rewrite Nat.div_small by done. done.
  - intros cpt dss bs task ks [|n] task_id Hid Hlen Hn; [lia|].
    cbn [TaskIterator.run_offline].
    by rewrite (fetch_offline_small shuffle cpt dss bs task ks task_id).
Qed.

Lemma small_dataset_raises_StopIteration_witness :
  TaskIterator.run_single (λ _ _ l, l) true 2 1 [(10, 0); (11, 1)]%Z 3 4
    (TaskIterator.task_start None 0) = Err StopIteration
  ∧ TaskIterator.run_offline (λ _ _ l, l) 2
      [[(10, 0); (11, 1); (12, 0)]; [(20, 2)]]%Z 4 2 1
      (TaskIterator.offline_task_start 2 []) = Err StopIteration.
Proof.
  destruct (small_dataset_raises_StopIteration (X:=Z) (λ _ _ l, l))
    as [Hsingle Hoffline].
  split.
  - apply Hsingle; simpl; lia.
  - apply (Hoffline 2 _ 4 2 [] 1 1); [lia|vm_compute; lia|lia].
Defined.

(** X11. In the Task-IL scenario the labels handed to the training step are
    moved into the active range: when the labels of the task's dataset lie
    in [classes_per_task*(task-1), classes_per_task*task), every label of
    every batch fetched for the task lies in [0, classes_per_task), and
    every batch has [batch_size] inputs and labels. *)
Theorem task_il_labels_in_active_range
    {X : Type} (shuffle : nat → nat → list (@TaskIterator.sample X)
                          → list (@TaskIterator.sample X))
    (classes_per_task task : nat) (train_dataset : list (@TaskIterator.sample X))
    (batch_size : nat) dl (k0 n : nat) :
  (∀ slot k l, shuffle slot k l ≡ₚ l) →
  1 ≤ batch_size ≤ length train_dataset →
  Forall (λ xy, Z.of_nat classes_per_task * (Z.of_nat task - 1) ≤ xy.2
                < Z.of_nat classes_per_task * Z.of_nat task)%Z train_dataset →
  ∃ out s,
    TaskIterator.run_single shuffle true classes_per_task task train_dataset
      batch_size n (TaskIterator.task_start dl k0) = Ok (out, s)
    ∧ length out = n
    ∧ Forall (λ b, length b.1 = batch_size ∧ length b.2 = batch_size
                   ∧ Forall (λ y, 0 ≤ y < Z.of_nat classes_per_task)%Z b.2) out.
Proof.
  intros Hperm [Hbs Hds] Hlabels.
  set (L := length train_dataset `div` batch_size).
  assert (HL : 0 < L) by (subst L; apply Nat.div_str_pos; lia).
  destruct (run_single_at shuffle (task - 1) train_dataset batch_size true
              classes_per_task task n (k0 * L) (TaskIterator.task_start dl k0)
              eq_refl HL
              (cursor_at_task_start shuffle (task - 1) train_dataset batch_size
                 dl k0 HL))
    as (out & s & Hrun & Hlen & _ & Hout).
  exists out, s. split; [exact Hrun|]. split; [exact Hlen|].
  apply Forall_lookup. intros i b Hi.
  assert (Hlt : i < n) by (rewrite <- Hlen; by eapply lookup_lt_Some).
  destruct (Hout i Hlt) as (b0 & Hb0 & Hb).
  pose proof (eq_trans (eq_sym Hi) Hb) as Heq. injection Heq as ->.
  destruct (all_batches_contents shuffle Hperm _ _ _ _ _ _ Hb0) as [Hsize Hsub].
  destruct (collate_sizes (Z.of_nat classes_per_task * (Z.of_nat task - 1))%Z b0)
    as [H1 H2].
  rewrite H1, H2. split; [done|]. split; [done|].
  apply (collate_labels _ _ train_dataset); [|done].
  eapply Forall_impl; [exact Hlabels|]. intros xy Hxy. simpl in Hxy. lia.
Qed.

Lemma task_il_labels_in_active_range_witness :
  ∃ out s,
    TaskIterator.run_single (λ _ _ l, l) true 2 2
      [(10, 2); (11, 3); (12, 2); (13, 3); (14, 2)]%Z 2 3
      (TaskIterator.task_start None 0) = Ok (out, s)
    ∧ length out = 3
    ∧ Forall (λ b, length b.1 = 2 ∧ length b.2 = 2
                   ∧ Forall (λ y, 0 ≤ y < 2)%Z b.2) out.
Proof.
  apply (task_il_labels_in_active_range (X:=Z) (λ _ _ l, l) 2 2
           [(10, 2); (11, 3); (12, 2); (13, 3); (14, 2)]%Z 2 None 0 3).
  - intros slot k l. reflexivity.
  - simpl. lia.
  - repeat constructor; simpl; lia.
Defined.

(** ** Offline Task-IL: the batches of one iteration *)

Section OfflineBatchFacts.
Import TaskIterator.
Context {X : Type}.
Variable shuffle : nat → nat → list (@sample X) → list (@sample X).
Variables (classes_per_task : nat) (train_datasets : list (list (@sample X))).
Variables (batch_size task : nat) (ks : list nat).
Variable P : Z → Prop.

Let bsu := batch_size_to_use batch_size task.
Let dataset (task_id : nat) := default [] (train_datasets !! task_id).
Let len (task_id : nat) := length (dataset task_id) `div` bsu.
Let start (task_id : nat) := default 0 (ks !! task_id) * len task_id.
Let good (b : @batch X) : Prop :=
  length b.1 = bsu ∧ length b.2 = bsu ∧ Forall P b.2.

Abbreviation cursors_at :=
  (TaskIterator.cursors_at shuffle train_datasets batch_size task ks).

Hypothesis shuffle_perm : ∀ slot k l, shuffle slot k l ≡ₚ l.
Hypothesis full_batch : ∀ task_id, task_id < task → 0 < len task_id.
Hypothesis labels : ∀ task_id, task_id < task →
  Forall (λ xy, P (xy.2 - Z.of_nat classes_per_task * Z.of_nat task_id)%Z)
         (dataset task_id).

Lemma fetch_offline_batches g ss :
  cursors_at g ss →
  ∃ out ss', fetch_offline shuffle classes_per_task train_datasets batch_size task ss
             = Ok (out, ss')
    ∧ length out = task
    ∧ Forall good out
    ∧ cursors_at (S g) ss'.
Proof.
  intros [Hlen Hss]. unfold fetch_offline, refresh_all.
  fold bsu.
  set (f := λ '(task_id, s), _).
  destruct (mapM_indexed_ok f
    (λ task_id (r : batch * iter_state),
       TaskIterator.cursor_at shuffle task_id (dataset task_id) bsu
         (start task_id + S g) r.2 ∧ good r.1)
    (imap (λ task_id s,
             refresh shuffle task_id (default [] (train_datasets !! task_id)) bsu s) ss)
    0) as (k & Hk & Hklen & HP).
  { intros i s1 Hi. rewrite list_lookup_imap in Hi.
    destruct (ss !! i) as [s|] eqn:Hs; [|done]. simpl in Hi. injection Hi as <-.
    assert (Hlt : i < task) by (rewrite <- Hlen; by eapply lookup_lt_Some).
    destruct (fetch_at shuffle i (dataset i) bsu _ s (full_batch i Hlt) (Hss i s Hs))
      as (b & s' & Hf & Hb & Hs').
    destruct (all_batches_contents shuffle shuffle_perm _ _ _ _ _ _ Hb)
      as [Hsize Hsub].
    eexists. simpl. fold (dataset i). rewrite Hf. simpl. split; [reflexivity|].
    simpl. split; [by replace (start i + S g) with (S (start i + g)) by lia|].
    destruct (collate_sizes (Z.of_nat classes_per_task * Z.of_nat i)%Z b)
      as [H1 H2].
    unfold good. rewrite H1, H2. split; [done|]. split; [done|].
    apply (collate_labels _ _ (dataset i)); [by apply labels|done]. }
  simpl in Hk. rewrite Hk. simpl.
  eexists _, _. split; [reflexivity|].
  rewrite length_imap in Hklen.
  split; [by rewrite length_fmap, Hklen|].
  split.
  - apply Forall_fmap, Forall_lookup. intros i r Hr. simpl.
    by destruct (HP i r Hr).
  - split; [by rewrite length_fmap, Hklen|].
    intros task_id s Hs. rewrite list_lookup_fmap in Hs.
    destruct (k !! task_id) as [r|] eqn:Hr; [|done].
    simpl in Hs. injection Hs as <-. by destruct (HP task_id r Hr).
Qed.

Lemma run_offline_batches n g ss :
  cursors_at g ss →
  ∃ outs ss', run_offline shuffle classes_per_task train_datasets batch_size task n ss
              = Ok (outs, ss')
    ∧ length outs = n
    ∧ Forall (λ out, length out = task ∧ Forall good out) outs.
Proof.
  revert g ss. induction n as [|n IH]; intros g ss Hss.
  - exists [], ss. simpl. split; [done|]. split; [done|]. constructor.
  - destruct (fetch_offline_batches g ss Hss) as (out & ss1 & Hf & Hlen & Hgood & Hss1).
    destruct (IH (S g) ss1 Hss1) as (outs & ss' & Hrun & Hn & Hall).
    eexists _, ss'. simpl. rewrite Hf. simpl. rewrite Hrun. simpl.
    split; [reflexivity|]. split; [simpl; lia|]. by constructor.
Qed.
End OfflineBatchFacts.

(** X12. In the offline Task-IL mode every iteration draws one batch from
    each task so far; each has [ceil(batch_size / task)] inputs and labels,
    so that the iteration sees at least [batch_size] and fewer than
    [batch_size + task] samples, and the labels of task [task_id] are moved
    down by [classes_per_task * task_id] into [0, classes_per_task). *)
Theorem offline_task_il_batches
    {X : Type} (shuffle : nat → nat → list (@TaskIterator.sample X)
                          → list (@TaskIterator.sample X))
    (classes_per_task : nat)
    (train_datasets : list (list (@TaskIterator.sample X)))
    (batch_size task : nat) (ks : list nat) (n : nat) :
  (∀ slot k l, shuffle slot k l ≡ₚ l) →
  1 ≤ batch_size →
  1 ≤ task →
  let per_task := TaskIterator.batch_size_to_use batch_size task in
  (∀ task_id, task_id < task →
     ∃ ds : list (@TaskIterator.sample X), train_datasets !! task_id = Some ds
       ∧ per_task ≤ length ds
       ∧ Forall (λ xy, Z.of_nat classes_per_task * Z.of_nat task_id ≤ xy.2
                       < Z.of_nat classes_per_task * (Z.of_nat task_id + 1))%Z ds) →
  batch_size ≤ task * per_task < batch_size + task
  ∧ ∃ outs ss,
      TaskIterator.run_offline shuffle classes_per_task train_datasets
        batch_size task n (TaskIterator.offline_task_start task ks) = Ok (outs, ss)
      ∧ length outs = n
      ∧ Forall (λ out,
                  length out = task
                  ∧ Forall (λ b, length b.1 = per_task ∧ length b.2 = per_task
                                 ∧ Forall (λ y, 0 ≤ y < Z.of_nat classes_per_task)%Z
                                          b.2) out) outs.
Proof.
  intros Hperm Hbs Htask per_task Hds.
  split; [apply ceil_div_bounds; lia|].
  assert (Hpos : 0 < per_task) by (apply ceil_div_pos; lia).
  assert (Hfull : ∀ task_id, task_id < task →
            0 < length (default [] (train_datasets !! task_id)) `div` per_task).
  { intros task_id Hid. destruct (Hds task_id Hid) as (ds & -> & Hlen & _).
    simpl. apply Nat.div_str_pos. lia. }
  assert (Hlabels : ∀ task_id, task_id < task →
            Forall (λ xy : @TaskIterator.sample X,
                      0 ≤ xy.2 - Z.of_nat classes_per_task * Z.of_nat task_id
                      < Z.of_nat classes_per_task)%Z
                   (default [] (train_datasets !! task_id))).
  { intros task_id Hid. destruct (Hds task_id Hid) as (ds & -> & _ & Hl).
    simpl. eapply Forall_impl; [exact Hl|]. intros xy Hxy. simpl in Hxy. lia. }
  destruct (run_offline_batches shuffle classes_per_task train_datasets
              batch_size task ks
              (λ y, 0 ≤ y < Z.of_nat classes_per_task)%Z Hperm Hfull Hlabels
              n 0 (TaskIterator.offline_task_start task ks)
              (cursors_at_task_start shuffle train_datasets batch_size task ks Hfull))
    as (outs & ss & Hrun & Hn & Hall).
  exists outs, ss. done.
Qed.

Lemma offline_task_il_batches_witness :
  4 ≤ 3 * 2 < 4 + 3
  ∧ ∃ outs ss,
      TaskIterator.run_offline (λ _ _ l, l) 1
        [[(10, 0); (11, 0)]; [(20, 1); (21, 1); (22, 1)]; [(30, 2); (31, 2)]]%Z
        4 3 2 (TaskIterator.offline_task_start 3 []) = Ok (outs, ss)
      ∧ length outs = 2
      ∧ Forall (λ out,
                  length out = 3
                  ∧ Forall (λ b, length b.1 = 2 ∧ length b.2 = 2
                                 ∧ Forall (λ y, 0 ≤ y < 1)%Z b.2) out) outs.
Proof.
  apply (offline_task_il_batches (X:=Z) (λ _ _ l, l) 1
           [[(10, 0); (11, 0)]; [(20, 1); (21, 1); (22, 1)]; [(30, 2); (31, 2)]]%Z
           4 3 [] 2).
  - intros slot k l. reflexivity.
  - lia.
  - lia.
  - intros [|[|[|task_id]]] Hid; [| | |lia]; eexists; (split; [reflexivity|]);
      (split; [vm_compute; lia|]); repeat constructor; simpl; lia.
Defined.

(** ** Selection: size, order and failures *)

(** X13. With class balancing, as soon as the pool holds for every allowed
    class at least that class's quota of candidates, the replay batch has
    exactly [batch_size_replay] inputs. *)
Theorem balanced_batch_has_replay_size
    {T X : Type} (leb : T → T → bool) (shuffle : list nat → list nat)
    (sm : sample_method) (x_ : list X) (metric : list T) (y_used : list nat)
    (batch_size_replay : nat) (allowed_classes : list nat) :
  sm ≠ sm_random_large →
  sm ≠ sm_curated_softmax →
  (∀ l, shuffle l ≡ₚ l) →
  length y_used = length metric →
  length metric = length x_ →
  1 ≤ length allowed_classes ≤ batch_size_replay →
  (∀ i, i < length allowed_classes →
     Selection.quota batch_size_replay (length allowed_classes) i
     ≤ Selection.class_count y_used (Selection.ranked leb shuffle sm metric) i) →
  ∃ l, Selection.select leb shuffle sm x_ metric y_used batch_size_replay
         (Some allowed_classes) = Ok l
       ∧ length l = batch_size_replay.
Proof. apply select_balanced_size. Qed.

Lemma balanced_batch_has_replay_size_witness :
  ∃ l, Selection.select Z.leb (λ l, l) sm_curated
         ["a"; "b"; "c"; "d"; "e"; "f"] [4; 3; 2; 1; 6; 5]%Z [0; 1; 0; 1; 0; 1] 3
         (Some [0; 1]) = Ok l
       ∧ length l = 3.
Proof.
  apply (balanced_batch_has_replay_size Z.leb (λ l, l) sm_curated
           ["a"; "b"; "c"; "d"; "e"; "f"] [4; 3; 2; 1; 6; 5]%Z [0; 1; 0; 1; 0; 1]
           3 [0; 1]).
  - discriminate.
  - discriminate.
  - intros l. reflexivity.
  - reflexivity.
  - reflexivity.
  - simpl. lia.
  - intros [|[|i]] Hi; [vm_compute; lia|vm_compute; lia|simpl in Hi; lia].
Defined.

Lemma omap_lookup_seq {A} (v : list A) :
  omap (λ j, v !! j) (seq 0 (length v)) = v.
Proof.
  induction v as [|a v IH]; [done|].
  cbn [length seq]. csimpl. f_equal.
  rewrite <- fmap_S_seq.
  transitivity (omap (λ j, v !! j) (seq 0 (length v))); [|exact IH].
  generalize (seq 0 (length v)). intros l.
  induction l as [|j l IHl]; [done|]. csimpl. by rewrite IHl.
Qed.

Lemma Forall2_lookup_omap {A} (v : list A) (idx : list nat) (l : list A) :
  Forall2 (λ j a, v !! j = Some a) idx l → l = omap (λ j, v !! j) idx.
Proof.
  induction 1 as [|j a idx l Hj _ IH]; [done|]. csimpl. by rewrite Hj, IH.
Qed.

(** X14. For [random_large] and [curated_softmax] nothing is selected: the
    replay batch is the whole pool of generated candidates, reordered, so
    it has as many inputs as the pool, whatever [batch_size_replay] is. *)
Theorem unbalanced_batch_is_whole_pool
    {T X : Type} (leb : T → T → bool) (shuffle : list nat → list nat)
    (sm : sample_method) (x_ : list X) (metric : list T) (y_used : list nat)
    (batch_size_replay : nat) (allowed_classes : option (list nat)) :
  sm = sm_random_large ∨ sm = sm_curated_softmax →
  (∀ l, shuffle l ≡ₚ l) →
  length metric = length x_ →
  ∃ l, Selection.select leb shuffle sm x_ metric y_used batch_size_replay
         allowed_classes = Ok l
       ∧ l ≡ₚ x_.
Proof.
  intros Hsm Hsh Hlen. unfold Selection.select, Selection.select_indices.
  rewrite bool_decide_eq_false_2 by (intros [? ?]; destruct Hsm; done).
  rewrite bind_Ok.
  pose proof (ranked_perm leb shuffle sm metric Hsh) as Hperm.
  rewrite Hlen in Hperm.
  destruct (mapM_index_ok x_ (Selection.ranked leb shuffle sm metric))
    as (l & Hl & Hl2).
  { apply Forall_forall. intros j Hj. rewrite Hperm in Hj.
    apply elem_of_seq in Hj. lia. }
  exists l. split; [done|].
  rewrite (Forall2_lookup_omap _ _ _ Hl2), Hperm. by rewrite omap_lookup_seq.
Qed.

Lemma unbalanced_batch_is_whole_pool_witness :
  ∃ l, Selection.select Z.leb (λ l, l) sm_curated_softmax ["a"; "b"; "c"; "d"]
         [1; 2; 3; 4]%Z [0; 0; 1; 1] 2 (Some [0; 1]) = Ok l
       ∧ l ≡ₚ ["a"; "b"; "c"; "d"].
Proof.
  apply (unbalanced_batch_is_whole_pool Z.leb (λ l, l) sm_curated_softmax
           ["a"; "b"; "c"; "d"] [1; 2; 3; 4]%Z [0; 0; 1; 1] 2 (Some [0; 1])).
  - right. reflexivity.
  - intros l. reflexivity.
  - reflexivity.
Defined.

Lemma mapM_index_err {A} (v : list A) (idx : list nat) e :
  mapM (index v) idx = Err e → e = IndexError.
Proof.
  induction idx as [|j idx IH]; [done|].
  change (mapM (index v) (j :: idx))
    with (y ← index v j; r ← mapM (index v) idx; mret (y :: r)).
  destruct (index v j) as [a|e'] eqn:Hj; simpl.
  - destruct (mapM (index v) idx) as [r|e0]; simpl; [done|].
    intros H. inversion H; subst. by apply IH.
  - intros H. inversion H; subst. unfold index in Hj.
    destruct (v !! j); by inversion Hj.
Qed.

Lemma unique_counts_short (B n : nat) :
  B < n →
  length (Selection.unique_counts (Selection.uniform_dist B n)) = B.
Proof.
  intros HB. unfold Selection.unique_counts. rewrite length_fmap.
  assert (Hin : ∀ v, v ∈ Selection.uniform_dist B n ↔ v < B).
  { intros v. unfold Selection.uniform_dist. rewrite list_elem_of_fmap. split.
    - intros (j & -> & Hj). apply elem_of_seq in Hj.
      rewrite Nat.mod_small; lia.
    - intros Hv. exists v. split; [by rewrite Nat.mod_small by lia|].
      apply elem_of_seq. lia. }
  rewrite (filter_seq_below _ B); [apply length_seq|done|].
  destruct B as [|B]; [lia|].
  assert (B ∈ Selection.uniform_dist (S B) n) as HBin by (apply Hin; lia).
  apply max_list_elem_of_le in HBin. lia.
Qed.

(** X15. With class balancing, a replay size below the number of allowed
    classes makes the selection fail with IndexError: [counts_each_class]
    has only [batch_size_replay] entries, and the entry of class
    [batch_size_replay] is read. *)
Theorem replay_size_below_classes_raises_IndexError
    {T : Type} (leb : T → T → bool) (shuffle : list nat → list nat)
    (sm : sample_method) (metric : list T) (y_used : list nat)
    (batch_size_replay : nat) (allowed_classes : list nat) :
  sm ≠ sm_random_large →
  sm ≠ sm_curated_softmax →
  batch_size_replay < length allowed_classes →
  Selection.select_indices leb shuffle sm metric y_used batch_size_replay
    (Some allowed_classes) = Err IndexError.
Proof.
  intros Hrl Hcs HB. unfold Selection.select_indices.
  rewrite bool_decide_eq_true_2 by done.
  destruct (Nat.eqb_spec (length allowed_classes) 0) as [H0|_]; [lia|].
  destruct (mapM (index y_used) _) as [labels|e] eqn:Hlabels.
  2:{ simpl. by rewrite (mapM_index_err _ _ _ Hlabels). }
  rewrite bind_Ok.
  set (f := λ i : nat, _).
  rewrite (mapM_result_err f IndexError); [done| |].
  - intros i _. subst f. simpl. unfold index.
    destruct (_ !! i); simpl; [right; eauto|by left].
  - exists batch_size_replay. split; [apply elem_of_seq; lia|].
    subst f. simpl. unfold index.
    rewrite (lookup_ge_None_2 _ batch_size_replay); [done|].
    by rewrite unique_counts_short.
Qed.

Lemma replay_size_below_classes_raises_IndexError_witness :
  Selection.select_indices Z.leb (λ l, l) sm_curated [4; 3; 2; 1]%Z [0; 1; 2; 0] 2
    (Some [0; 1; 2]) = Err IndexError.
Proof.
  apply (replay_size_below_classes_raises_IndexError Z.leb (λ l, l) sm_curated
           [4; 3; 2; 1]%Z [0; 1; 2; 0] 2 [0; 1; 2]).
  - discriminate.
  - discriminate.
  - simpl. lia.
Defined.

Lemma curation_bind_not_ok {MS A B} (m : @Curation.M MS A)
    (f : A → @Curation.M MS B) (σ : gmap nat MS) :
  (∀ a σ', is_ok (f a σ').1 = false) → is_ok (Curation.bind m f σ).1 = false.
Proof.
  intros Hf. unfold Curation.bind. destruct (m σ) as [[a|e] σ']; [apply Hf|done].
Qed.

(** X16. In the Domain-IL scenario no class list is passed on
    ([allowed_classes] is None), so every sample method that balances by
    class fails: the selection raises TypeError at [len(allowed_classes)],
    and the curation block never returns a batch. *)
Theorem domain_scenario_balanced_curation_fails
    {T Input MS : Type} (ops : tensor_ops T)
    (classify_fn : MS → list Input → bool → matrix T * MS)
    (train_a_batch_fn : MS → train_args T Input → MS)
    (shuffle : list nat → list nat)
    (sm : sample_method) (model : nat) x y (x_ : list Input) (metric : list T)
    y_used task_used varietyVector active_classes classes_per_task task rnt
    freeze_convE (Generative : bool) batch_size_replay variety_weight mir_coef
    (σ : gmap nat MS) :
  sm ≠ sm_random_large →
  sm ≠ sm_curated_softmax →
  let allowed_classes :=
    ReplaySampler.allowed_classes_for sc_domain classes_per_task task in
  Selection.select (t_leb ops) shuffle sm x_ metric y_used batch_size_replay
    allowed_classes = Err TypeError
  ∧ is_ok (Curation.curation ops classify_fn train_a_batch_fn shuffle sm model
             x y x_ y_used task_used varietyVector active_classes
             classes_per_task task rnt freeze_convE Generative
             batch_size_replay allowed_classes variety_weight mir_coef σ).1
    = false.
Proof.
  intros Hrl Hcs allowed_classes.
  assert (Hsel : ∀ metric,
            Selection.select (t_leb ops) shuffle sm x_ metric y_used
              batch_size_replay allowed_classes = Err TypeError).
  { intros metric'. unfold Selection.select, Selection.select_indices.
    by rewrite bool_decide_eq_true_2. }
  split; [apply Hsel|].
  unfold Curation.curation.
  apply curation_bind_not_ok. intros [scores_old loss_old] σ1.
  apply curation_bind_not_ok. intros model_tmp σ2.
  apply curation_bind_not_ok. intros scores_new σ3.
  apply curation_bind_not_ok. intros metric' σ4.
  unfold Curation.bind, Curation.lift. by rewrite Hsel.
Qed.

Lemma domain_scenario_balanced_curation_fails_witness :
  Selection.select (t_leb RealOps.real_ops) (λ l, l) sm_curated [1%R; 2%R]
    [1%R; 0%R] [0; 0] 1 (ReplaySampler.allowed_classes_for sc_domain 2 2)
  = Err TypeError
  ∧ is_ok (Curation.curation RealOps.real_ops Toy.classify_fn
             Toy.train_a_batch_fn (λ l, l) sm_curated Toy.model None None
             [1%R; 2%R] [0; 0] RNone None ActiveNone 2 2 None false true 1
             (ReplaySampler.allowed_classes_for sc_domain 2 2) 0%R 0%R
             Toy.store).1 = false.
Proof.
  apply (domain_scenario_balanced_curation_fails RealOps.real_ops Toy.classify_fn
           Toy.train_a_batch_fn (λ l, l) sm_curated Toy.model None None
           [1%R; 2%R] [1%R; 0%R] [0; 0] RNone None ActiveNone 2 2 None false true
           1 0%R 0%R Toy.store).
  - discriminate.
  - discriminate.
Defined.

Lemma NoDup_take {A} (l : list A) k : NoDup l → NoDup (take k l).
Proof. intros Hl. eapply sublist_NoDup; [exact Hl|apply sublist_take]. Qed.

Lemma elem_of_concat {A} (x : A) (ls : list (list A)) :
  x ∈ concat ls → ∃ l, x ∈ l ∧ l ∈ ls.
Proof.
  induction ls as [|l ls IH]; simpl; [by intros ?%elem_of_nil|].
  intros [Hx|Hx]%elem_of_app.
  - exists l. split; [done|left].
  - destruct (IH Hx) as (l' & Hl' & Hin). exists l'. split; [done|by right].
Qed.

Lemma NoDup_concat_classes (y_used ranking : list nat) (q : nat → nat)
    (cs : list nat) :
  NoDup ranking → NoDup cs →
  NoDup (concat ((λ c, take (q c) (filter (λ j, y_used !! j = Some c) ranking))
                   <$> cs)).
Proof.
  intros Hr. induction 1 as [|c cs Hc Hcs IH]; [constructor|].
  csimpl. apply NoDup_app. split; [by apply NoDup_take, NoDup_filter|].
  split; [|exact IH].
  intros j Hj Hj'.
  apply elem_of_take in Hj as (i & Hi & _).
  apply list_elem_of_lookup_2, list_elem_of_filter in Hi as [Hlab _].
  apply elem_of_concat in Hj' as (l & Hjl & Hl).
  apply list_elem_of_fmap in Hl as (c' & -> & Hc').
  apply elem_of_take in Hjl as (i' & Hi' & _).
  apply list_elem_of_lookup_2, list_elem_of_filter in Hi' as [Hlab' _].
  rewrite Hlab in Hlab'. injection Hlab' as <-. done.
Qed.

Lemma sum_list_fmap_le {A} (f g : A → nat) (l : list A) :
  (∀ a, f a ≤ g a) → sum_list (f <$> l) ≤ sum_list (g <$> l).
Proof.
  intros Hfg. induction l as [|a l IH]; [done|].
  csimpl. specialize (Hfg a). lia.
Qed.

(** X17. With class balancing, the selection never picks a candidate
    twice, never picks more than [batch_size_replay] candidates, and picks
    only candidates of the pool whose label is below the number of allowed
    classes. *)
Theorem balanced_selection_never_repeats
    {T : Type} (leb : T → T → bool) (shuffle : list nat → list nat)
    (sm : sample_method) (metric : list T) (y_used : list nat)
    (batch_size_replay : nat) (allowed_classes : list nat) :
  sm ≠ sm_random_large →
  sm ≠ sm_curated_softmax →
  (∀ l, shuffle l ≡ₚ l) →
  length y_used = length metric →
  1 ≤ length allowed_classes ≤ batch_size_replay →
  ∃ idx,
    Selection.select_indices leb shuffle sm metric y_used batch_size_replay
      (Some allowed_classes) = Ok idx
    ∧ NoDup idx
    ∧ length idx ≤ batch_size_replay
    ∧ Forall (λ j, j < length metric
                   ∧ ∃ c, c < length allowed_classes ∧ y_used !! j = Some c) idx.
Proof.
  intros Hrl Hcs Hsh Hlen Hn.
  pose proof (select_indices_balanced leb shuffle sm metric y_used
                batch_size_replay allowed_classes Hrl Hcs Hsh Hlen Hn) as Hidx.
  pose proof (ranked_perm leb shuffle sm metric Hsh) as Hperm.
  set (n := length allowed_classes) in *.
  set (ranking := Selection.ranked leb shuffle sm metric) in *.
  eexists. split; [exact Hidx|]. split; [|split].
  - apply NoDup_concat_classes; [|apply NoDup_seq].
    rewrite Hperm. apply NoDup_seq.
  - rewrite length_concat_sum, <- list_fmap_compose.
    etrans; [|apply Nat.eq_le_incl, (quota_sum batch_size_replay n); lia].
    apply sum_list_fmap_le. intros c. simpl. rewrite length_take. lia.
  - apply Forall_concat_2, Forall_fmap, Forall_forall. intros c Hc. simpl.
    apply elem_of_seq in Hc.
    apply Forall_take, Forall_forall. intros j Hj.
    apply list_elem_of_filter in Hj as [Hlab Hj]. rewrite Hperm in Hj.
    apply elem_of_seq in Hj. split; [lia|]. exists c. split; [lia|done].
Qed.

Lemma balanced_selection_never_repeats_witness :
  ∃ idx,
    Selection.select_indices Z.leb (λ l, l) sm_interfered [4; 3; 2; 1; 6; 5]%Z
      [0; 1; 0; 1; 0; 7] 5 (Some [0; 1]) = Ok idx
    ∧ NoDup idx
    ∧ length idx ≤ 5.
Proof.
  destruct (balanced_selection_never_repeats Z.leb (λ l, l) sm_interfered
              [4; 3; 2; 1; 6; 5]%Z [0; 1; 0; 1; 0; 7] 5 [0; 1])
    as (idx & Hidx & Hnd & Hlen & _).
  - discriminate.
  - discriminate.
  - intros l. reflexivity.
  - reflexivity.
  - simpl. lia.
  - exists idx. split; [exact Hidx|]. split; [exact Hnd|exact Hlen].
Defined.

Section RankingOrder.
Context {T : Type}.
Variable leb : T → T → bool.
Hypothesis leb_order : total_preorder leb.

Lemma insert_desc_descending (p : nat * T) (l : list (nat * T)) :
  descending leb l.*2 → descending leb (Selection.insert_desc leb p l).*2.
Proof.
  destruct leb_order as (_ & Htrans & Htotal).
  induction l as [|q l IH]; intros Hl.
  - simpl. split; [constructor|done].
  - cbn [Selection.insert_desc].
    destruct Hl as [Hq Hl]. fold (fmap (M:=list) (@snd nat T)) in Hq, Hl.
    destruct (leb q.2 p.2) eqn:Hqp.
    + split; [|by split].
      constructor; [done|].
      eapply Forall_impl; [exact Hq|]. intros u Hu. simpl in Hu.
      by apply (Htrans u q.2 p.2).
    + rewrite fmap_cons. split; [|by apply IH].
      apply Forall_forall. intros u Hu.
      rewrite (insert_desc_perm leb p l) in Hu.
      rewrite fmap_cons in Hu. apply elem_of_cons in Hu as [->|Hu].
      * by apply Htotal.
      * by apply (proj1 (Forall_forall _ _) Hq).
Qed.

Lemma sort_desc_descending (l : list (nat * T)) :
  descending leb (foldr (Selection.insert_desc leb) [] l).*2.
Proof.
  induction l as [|p l IH]; [done|]. simpl. by apply insert_desc_descending.
Qed.
End RankingOrder.

(** X18. For every sample method that does not shuffle the ranking (all
    but [uniform_large] and [random_large]), the ranking lists the
    candidates by descending metric: the metric of a candidate is never
    exceeded by that of a candidate ranked after it.  The candidates kept
    for a class are therefore those with the largest metric. *)
Theorem ranking_is_descending
    {T : Type} (leb : T → T → bool) (shuffle : list nat → list nat)
    (sm : sample_method) (metric : list T) :
  total_preorder leb →
  sm ≠ sm_uniform_large →
  sm ≠ sm_random_large →
  ∃ vs,
    Forall2 (λ j v, metric !! j = Some v) (Selection.ranked leb shuffle sm metric) vs
    ∧ descending leb vs.
Proof.
  intros Hord Hul Hrl. unfold Selection.ranked.
  rewrite bool_decide_eq_false_2 by (intros [?|?]; done).
  unfold Selection.argsort_desc.
  exists (foldr (Selection.insert_desc leb) [] (imap pair metric)).*2.
  split; [|by apply sort_desc_descending].
  apply Forall2_fmap, Forall_Forall2_diag, Forall_forall. intros [j v] Hjv.
  rewrite (sort_desc_perm leb) in Hjv.
  apply list_elem_of_lookup in Hjv as [i Hi].
  rewrite list_lookup_imap in Hi.
  destruct (metric !! i) as [u|] eqn:Hu; [|done].
  simpl in Hi. injection Hi as <- <-. done.
Qed.

Lemma ranking_is_descending_witness :
  ∃ vs,
    Forall2 (λ j v, [3; 9; 1; 9]%Z !! j = Some v)
            (Selection.ranked Z.leb (λ l, l) sm_curated [3; 9; 1; 9]%Z) vs
    ∧ descending Z.leb vs.
Proof.
  apply (ranking_is_descending Z.leb (λ l, l) sm_curated [3; 9; 1; 9]%Z).
  - exact Z_leb_total_preorder.
  - discriminate.
  - discriminate.
Defined.

(** ** The target labeler in the Task-IL scenario *)

Lemma slice_range_wf {T} (a b : nat) (m : matrix T) :
  wf_matrix m → wf_matrix (slice_range a b m).
Proof.
  unfold wf_matrix, slice_range. simpl. intros Hwf.
  apply Forall_fmap. eapply Forall_impl; [exact Hwf|].
  intros r Hr. simpl in *. rewrite length_drop, length_take. lia.
Qed.

Lemma Forall2_fst_fmap {A B C} (f : A → B) (P : A → B * C → Prop)
    (l : list A) (k : list (B * C)) :
  Forall2 (λ a r, r.1 = f a ∧ P a r) l k → k.*1 = f <$> l.
Proof.
  induction 1 as [|a r l k [Hr _] _ IH]; [done|]. csimpl. by rewrite Hr, IH.
Qed.

(** X19. With generative or current replay in the Task-IL scenario (no task
    masks, one replay tensor), the targets are lists with one entry per
    previous task: the scores of task [task_id] are the columns
    [classes_per_task*task_id .. classes_per_task*(task_id+1)-1] of the
    previous model's scores of the replay batch, and its hard labels index
    a largest entry within that slice, so they lie in
    [0, classes_per_task).  The training step receives the labels and no
    scores for "hard", the scores and no labels for "soft". *)
Theorem task_il_targets_per_task
    {T Input : Type} (ar : arith T)
    (classify_prev : option nat → list Input → bool → matrix T)
    (Generative Current : bool) (x_ : list Input) (classes_per_task task : nat)
    (y_in : option (replay_data (list nat)))
    (scores_in : option (replay_data (matrix T))) :
  total_preorder (a_leb ar) →
  Generative || Current = true →
  let all_scores_ := classify_prev None x_ (if Generative then false else true) in
  let slice task_id :=
    slice_range (classes_per_task * task_id) (classes_per_task * (task_id + 1))
                all_scores_ in
  wf_matrix all_scores_ →
  1 ≤ classes_per_task →
  classes_per_task * (task - 1) ≤ ncols all_scores_ →
  ∃ ys,
    TargetLabeler.targets ar classify_prev Generative Current sc_task false
      (RTensor x_) classes_per_task task y_in scores_in "hard"
    = Ok (RList ys, RNone)
    ∧ TargetLabeler.targets ar classify_prev Generative Current sc_task false
        (RTensor x_) classes_per_task task y_in scores_in "soft"
      = Ok (RNone, RList (slice <$> seq 0 (task - 1)))
    ∧ length ys = task - 1
    ∧ ∀ task_id y_, ys !! task_id = Some y_ →
        Forall2 (TargetLabeler.is_argmax ar) (rows (slice task_id)) y_
        ∧ Forall (λ l, l < classes_per_task) y_.
Proof.
  intros Hord Hreplay all_scores_ slice Hwf Hcpt Hcols.
  set (nh := if Generative then false else true) in *.
  destruct (mapM_result_Forall
              (TargetLabeler.per_task_entry ar classify_prev sc_task false
                 (RTensor x_) classes_per_task nh (Some all_scores_))
              (λ task_id r,
                 r.1 = slice task_id
                 ∧ Forall2 (TargetLabeler.is_argmax ar) (rows (slice task_id)) r.2
                 ∧ Forall (λ l, l < classes_per_task) r.2)
              (seq 0 (task - 1))) as (k & Hk & HP).
  { apply Forall_forall. intros task_id Hid. apply elem_of_seq in Hid.
    assert (Hn : ncols (slice task_id) = classes_per_task).
    { subst slice. simpl. nia. }
    destruct (argmax_rows_ok ar Hord (slice task_id)) as (y_ & Hy & Hmax).
    { by apply slice_range_wf. }
    { lia. }
    exists (slice task_id, y_). split.
    - unfold TargetLabeler.per_task_entry. simpl. fold (slice task_id).
      by rewrite Hy.
    - split; [done|]. split; [done|].
      apply Forall_forall. intros l Hl.
      apply list_elem_of_lookup in Hl as [i Hi].
      destruct (Forall2_lookup_r _ _ _ _ _ Hmax Hi) as (r & Hr & v & Hv & _).
      apply lookup_lt_Some in Hv.
      pose proof (Forall_lookup_1 _ _ _ _ (slice_range_wf _ _ _ Hwf) Hr
                  : length r = ncols (slice task_id)) as Hlen.
      rewrite Hn in Hlen. lia. }
  assert (Hk1 : k.*1 = slice <$> seq 0 (task - 1)).
  { apply (Forall2_fst_fmap slice
             (λ task_id r,
                Forall2 (TargetLabeler.is_argmax ar) (rows (slice task_id)) r.2
                ∧ Forall (λ l, l < classes_per_task) r.2)).
    exact HP. }
  exists (k.*2).
  assert (Hrun : ∀ rt,
    TargetLabeler.targets ar classify_prev Generative Current sc_task false
      (RTensor x_) classes_per_task task y_in scores_in rt
    = (y_out ← (if String.eqb rt "hard"
                then Curation.bound (Some (RList k.*2)) else Ok RNone);
       scores_out ← (if String.eqb rt "soft"
                     then Curation.bound (Some (RList k.*1)) else Ok RNone);
       mret (y_out, scores_out))).
  { intros rt. unfold TargetLabeler.targets. rewrite Hreplay. simpl.
    fold nh. fold all_scores_. by rewrite Hk. }
  split; [by rewrite Hrun|]. split; [by rewrite Hrun, Hk1|].
  split.
  - rewrite length_fmap, <- (Forall2_length _ _ _ HP). apply length_seq.
  - intros task_id y_ Hy. rewrite list_lookup_fmap in Hy.
    destruct (k !! task_id) as [r|] eqn:Hr; [|done].
    simpl in Hy. injection Hy as <-.
    destruct (Forall2_lookup_r _ _ _ _ _ HP Hr) as (id & Hid & _ & Hmax & Hlt).
    apply lookup_seq in Hid as [-> _]. done.
Qed.

Lemma task_il_targets_per_task_witness :
  ∃ ys,
    TargetLabeler.targets Z_arith
      (λ _ xs _, Matrix 4 ((λ x, [x; 0; 2; x]%Z) <$> xs)) true false sc_task false
      (RTensor [1; 5]%Z) 2 3 None None "hard"
    = Ok (RList ys, RNone)
    ∧ length ys = 2.
Proof.
  destruct (task_il_targets_per_task Z_arith
              (λ _ xs _, Matrix 4 ((λ x, [x; 0; 2; x]%Z) <$> xs)) true false
              [1; 5]%Z 2 3 None None)
    as (ys & Hhard & _ & Hlen & _).
  - exact Z_leb_total_preorder.
  - reflexivity.
  - repeat constructor.
  - lia.
  - simpl. lia.
  - exists ys. split; [exact Hhard|exact Hlen].
Defined.

(** X20. Whatever the replay mode and scenario, the labeler hands on at
    most one kind of target: the hard labels only when [replay_targets] is
    "hard", the scores only when it is "soft", and neither for any other
    value. *)
Theorem targets_keep_one_kind
    {T Input : Type} (ar : arith T)
    (classify_prev : option nat → list Input → bool → matrix T)
    (Generative Current : bool) (sc : scenario) (has_mask : bool)
    (x_ : replay_data (list Input)) (classes_per_task task : nat)
    (y_in : option (replay_data (list nat)))
    (scores_in : option (replay_data (matrix T)))
    (replay_targets : string) y_ scores_ :
  TargetLabeler.targets ar classify_prev Generative Current sc has_mask x_
    classes_per_task task y_in scores_in replay_targets = Ok (y_, scores_) →
  (replay_targets ≠ "hard" → y_ = RNone)
  ∧ (replay_targets ≠ "soft" → scores_ = RNone)
  ∧ (y_ = RNone ∨ scores_ = RNone).
Proof.
  unfold TargetLabeler.targets.
  match goal with
  | |- (?blk ≫= _) = _ → _ => destruct blk as [[y s]|e]; [|done]
  end.
  rewrite bind_Ok.
  destruct (String.eqb_spec replay_targets "hard") as [Hh|Hh];
    destruct (String.eqb_spec replay_targets "soft") as [Hs|Hs].
  - congruence.
  - destruct (Curation.bound y) as [y'|e]; simpl; [|done].
    intros [= <- <-]. split; [done|]. split; [done|by right].
  - destruct (Curation.bound s) as [s'|e]; simpl; [|done].
    intros [= <- <-]. split; [done|]. split; [done|by left].
  - simpl. intros [= <- <-]. split; [done|]. split; [done|by left].
Qed.

Lemma targets_keep_one_kind_witness :
  (RTensor [0; 1] : replay_data (list nat)) = RNone
  ∨ (RNone : replay_data (matrix Z)) = RNone.
Proof.
  apply (targets_keep_one_kind Z_arith
           (λ _ xs _, Matrix 2 ((λ x, [x; 0]%Z) <$> xs)) true false sc_class false
           (RTensor [1; -1]%Z) 2 2 None None "hard" (RTensor [0; 1]) RNone).
  reflexivity.
Defined.

(** ** Synaptic intelligence: keys and buffer names *)

Section ImportanceKeys.
Import SI.
Context {T : Type}.
Variable ar : arith T.

Lemma update_param_dom prefix (st st' : @si_state T) np :
  update_param ar prefix st np = Ok st' →
  dom (W st') = dom (W st) ∧ dom (p_old st) ⊆ dom (p_old st').
Proof.
  unfold update_param.
  destruct (requires_grad np.2); [|by intros [= <-]].
  destruct (grad np.2) as [g|]; simpl.
  - unfold getitem.
    destruct (W st !! mangle (prefix +:+ np.1)) as [w|] eqn:Hw; simpl; [|done].
    destruct (p_old st !! mangle (prefix +:+ np.1)) as [po|]; simpl; [|done].
    intros [= <-]. simpl. split.
    + apply dom_insert_lookup_L. eauto.
    + apply dom_insert_subseteq.
  - intros [= <-]. simpl. split; [done|apply dom_insert_subseteq].
Qed.

Lemma update_params_dom prefix ps (st st' : @si_state T) :
  update_params ar prefix st ps = Ok st' →
  dom (W st') = dom (W st) ∧ dom (p_old st) ⊆ dom (p_old st').
Proof.
  revert st. induction ps as [|np ps IH]; intros st; simpl.
  - by intros [= <-].
  - destruct (update_param ar prefix st np) as [st1|e] eqn:H1; simpl; [|done].
    intros H2. destruct (update_param_dom _ _ _ _ H1) as [Hw Hp].
    destruct (IH _ H2) as [Hw' Hp']. split; [congruence|].
    etrans; [exact Hp|exact Hp'].
Qed.

Lemma update_module_dom (m : @model T) name (st st' : @si_state T) :
  update_module ar m name st = Ok st' →
  dom (W st') = dom (W st) ∧ dom (p_old st) ⊆ dom (p_old st').
Proof.
  unfold update_module. destruct (attr m name) as [ps|e]; simpl; [|done].
  apply update_params_dom.
Qed.
End ImportanceKeys.

(** X21. The importance update never adds a key to [W] or removes one: the
    parameters that have an entry in [W] after any number of training steps
    are those that got one when the task started.  [p_old] never loses a
    key either (it gains one for a trainable parameter without entry and
    without gradient). *)
Theorem si_update_keeps_keys
    {T : Type} (ar : arith T) (si_enabled : bool) (m : SI.model)
    (st st' : @SI.si_state T) :
  SI.si_update ar si_enabled m (Some st) = Ok (Some st') →
  dom (SI.W st') = dom (SI.W st)
  ∧ dom (SI.p_old st) ⊆ dom (SI.p_old st').
Proof.
  unfold SI.si_update. destruct si_enabled; [|by intros [= <-]].
  simpl.
  destruct (SI.update_module ar m "convE" st) as [st1|e] eqn:H1; simpl; [|done].
  destruct (SI.update_module ar m "fcE" st1) as [st2|e] eqn:H2; simpl; [|done].
  destruct (SI.update_module ar m "classifier" st2) as [st3|e] eqn:H3; simpl; [|done].
  intros [= <-].
  destruct (update_module_dom _ _ _ _ _ H1) as [Hw1 Hp1].
  destruct (update_module_dom _ _ _ _ _ H2) as [Hw2 Hp2].
  destruct (update_module_dom _ _ _ _ _ H3) as [Hw3 Hp3].
  split; [congruence|].
  etrans; [exact Hp1|]. etrans; [exact Hp2|exact Hp3].
Qed.

Lemma si_update_keeps_keys_witness :
  ∃ st',
    SI.si_update Z_arith true SIExample.after
      (Some (SI.si_init Z_arith SIExample.before)) = Ok (Some st')
    ∧ dom (SI.W st') = dom (SI.W (SI.si_init Z_arith SIExample.before)).
Proof.
  destruct (SI.si_update Z_arith true SIExample.after
              (Some (SI.si_init Z_arith SIExample.before)))
    as [[st'|]|e] eqn:Hrun; [|vm_compute in Hrun; discriminate Hrun..].
  exists st'. split; [reflexivity|].
  exact (proj1 (si_update_keeps_keys Z_arith true SIExample.after
                  (SI.si_init Z_arith SIExample.before) st' Hrun)).
Defined.

Lemma mangle_no_dot (n : string) :
  ¬ In "."%char (list_ascii_of_string (SI.mangle n)).
Proof.
  induction n as [|c n IH]; simpl; [tauto|].
  destruct (Ascii.eqb_spec c ".") as [->|Hne]; simpl.
  - intros [H|[H|H]]; [discriminate H|discriminate H|done].
  - intros [H|H]; [congruence|done].
Qed.

Lemma no_dot_append (a b : string) :
  ¬ In "."%char (list_ascii_of_string a) →
  ¬ In "."%char (list_ascii_of_string b) →
  ¬ In "."%char (list_ascii_of_string (a +:+ b)).
Proof.
  intros Ha Hb. induction a as [|c a IH]; simpl in *; [done|].
  intros [H|H]; [tauto|]. apply IH; [tauto|done].
Qed.

(** X22. Every buffer registered for synaptic intelligence before the first
    task belongs to a trainable parameter, holds that parameter's value, and
    has a name without a dot (the parameter's name with each dot replaced
    by two underscores, followed by "_SI_prev_task"), as [register_buffer]
    requires. *)
Theorem si_buffer_names_have_no_dot
    {T : Type} (m : @SI.model T) (n : string) (t : list T) :
  (n, t) ∈ SIBuffers.prev_task_buffers true m →
  ¬ In "."%char (list_ascii_of_string n)
  ∧ ∃ name p,
      (name, p) ∈ SI.named_parameters m
      ∧ SI.requires_grad p = true
      ∧ n = SI.mangle name +:+ "_SI_prev_task"
      ∧ t = SI.data p.
Proof.
  unfold SIBuffers.prev_task_buffers. intros Hin.
  apply list_elem_of_omap in Hin as ([name p] & Hnp & Hsome).
  simpl in Hsome. destruct (SI.requires_grad p) eqn:Hg; [|done].
  injection Hsome as <- <-. split.
  - apply no_dot_append; [apply mangle_no_dot|].
    simpl. intros H. repeat (destruct H as [H|H]; [discriminate H|]). done.
  - exists name, p. done.
Qed.

Lemma si_buffer_names_have_no_dot_witness :
  ¬ In "."%char (list_ascii_of_string "fcE__fc__weight_SI_prev_task").
Proof.
  apply (si_buffer_names_have_no_dot SIExample.before
           "fcE__fc__weight_SI_prev_task" [3]%Z).
  vm_compute. right. left.
Defined.

(** ** Training steps per task *)

Lemma filter_leb_seq (n m : nat) :
  filter (λ b, (b <=? n) = true) (seq 1 m) = seq 1 (n `min` m).
Proof.
  induction m as [|m IH]; [by rewrite Nat.min_0_r|].
  rewrite seq_S, filter_app, IH.
  destruct (Nat.leb_spec (1 + m) n) as [Hle|Hgt].
  - rewrite filter_cons_True by (apply Nat.leb_le; lia).
    rewrite filter_nil.
    replace (n `min` m) with m by lia. replace (n `min` S m) with (S m) by lia.
    by rewrite seq_S.
  - rewrite filter_cons_False by (rewrite Nat.leb_le; lia).
    rewrite filter_nil, app_nil_r. f_equal. lia.
Qed.

(** X23. In every task that is trained (all tasks, or the last one under
    [only_last]) the main model takes a training step at exactly the
    iterations 1..[iters] and a separate generator at exactly the iterations
    1..[gen_iters], whichever of the two counts is larger; no iteration of
    the task passes without one of them being trained. *)
Theorem steps_per_task
    (generator : option nat) (cfg : TaskLoop.config) (task : nat) :
  (TaskLoop.cfg_only_last cfg = true → task = TaskLoop.cfg_n_tasks cfg) →
  Steps.main_steps generator cfg task = seq 1 (TaskLoop.cfg_iters cfg)
  ∧ Steps.generator_steps generator cfg task
    = match generator with
      | Some _ => seq 1 (TaskLoop.cfg_gen_iters cfg)
      | None => []
      end
  ∧ Forall (λ b, Steps.trains_main cfg b || Steps.trains_generator generator cfg b
                 = true)
           (Steps.batch_indices generator cfg task).
Proof.
  intros Hlast.
  unfold Steps.main_steps, Steps.generator_steps, Steps.batch_indices,
    Steps.trains_main, Steps.trains_generator, TaskLoop.iters_to_use.
  replace (TaskLoop.cfg_only_last cfg && negb (task =? TaskLoop.cfg_n_tasks cfg))
    with false.
  2:{ destruct (TaskLoop.cfg_only_last cfg); [|done].
      rewrite (Hlast eq_refl), Nat.eqb_refl. done. }
  destruct generator as [g|].
  - rewrite !filter_leb_seq.
    split; [f_equal; lia|]. split; [f_equal; lia|].
    apply Forall_forall. intros b Hb. apply elem_of_seq in Hb.
    destruct (Nat.leb_spec b (TaskLoop.cfg_iters cfg)); [done|].
    simpl. apply Nat.leb_le. lia.
  - rewrite filter_leb_seq.
    split; [f_equal; lia|]. split.
    + by induction (seq 1 _) as [|b l IH].
    + apply Forall_forall. intros b Hb. apply elem_of_seq in Hb.
      rewrite orb_false_r. apply Nat.leb_le. lia.
Qed.

Lemma steps_per_task_witness :
  Steps.main_steps LoopExample.generator LoopExample.cfg 2 = [1; 2; 3]
  ∧ Steps.generator_steps LoopExample.generator LoopExample.cfg 2 = [].
Proof.
  destruct (steps_per_task LoopExample.generator LoopExample.cfg 2)
    as (Hmain & Hgen & _).
  - intros _. reflexivity.
  - split; [exact Hmain|exact Hgen].
Defined.

Lemma sampleProbs_is_distribution_witness :
  RealOps.sum
    (SoftmaxSampling.sampleProbs RealOps.real_ops
       (Matrix 3 [[0; 0; 0]%R; [1; 2; 3]%R]) 1 3) = 1%R
  ∧ SoftmaxSampling.sampleProbs RealOps.real_ops
      (Matrix 3 [[0; 0; 0]%R; [1; 2; 3]%R]) 1 3 !! 2 = Some 0%R.
Proof.
  destruct (sampleProbs_is_distribution (Matrix 3 [[0; 0; 0]%R; [1; 2; 3]%R]) 1 3)
    as (_ & _ & Hsum & Hzero).
  - repeat constructor.
  - unfold nrows. simpl. lia.
  - simpl. lia.
  - lia.
  - lia.
  - split; [exact Hsum|]. apply Hzero. simpl. lia.
Defined.

(** ** The curation metric *)

Lemma mapM_result_length {A B} (f : A → result B) (l : list A) (k : list B) :
  mapM f l = Ok k → length k = length l.
Proof.
  revert k. induction l as [|a l IH]; intros k.
  - intros [= <-]. done.
  - change (mapM f (a :: l)) with (y ← f a; r ← mapM f l; mret (y :: r)).
    destruct (f a) as [b|e]; simpl; [|done].
    destruct (mapM f l) as [r|e]; simpl; [|done].
    intros [= <-]. simpl. by rewrite (IH r).
Qed.

Section MetricFacts.
Context {T : Type}.
Variable ops : tensor_ops T.

Lemma ew_length (f : T → T → T) (a b c : list T) :
  ew f a b = Ok c → length c = length a.
Proof.
  unfold ew. destruct (Nat.eqb_spec (length a) (length b)) as [Heq|]; [|done].
  intros [= <-]. rewrite length_zip_with. lia.
Qed.

Lemma cross_entropy_length (scores : matrix T) (y_used : list nat) l :
  Curation.cross_entropy ops scores y_used = Ok l → length l = nrows scores.
Proof.
  unfold Curation.cross_entropy.
  destruct (Nat.eqb_spec (nrows scores) (length y_used)) as [Heq|]; [|done].
  intros Hl. apply mapM_result_length in Hl.
  rewrite Hl, length_zip_with. unfold nrows in *. lia.
Qed.

Lemma kl_div_mean_length (a b : matrix T) l :
  Curation.kl_div_mean ops a b = Ok l → length l = nrows b.
Proof.
  unfold Curation.kl_div_mean. case_bool_decide as H; [|done].
  destruct H as [Hrows _]. intros [= <-].
  rewrite length_zip_with. unfold nrows in *. lia.
Qed.

Lemma last_col_length (m : matrix T) l :
  Curation.last_col m = Ok l → length l = nrows m.
Proof. unfold Curation.last_col. apply mapM_result_length. Qed.

Lemma scale_length (c : T) (v : list T) : length (Curation.scale ops c v) = length v.
Proof. unfold Curation.scale. apply length_fmap. Qed.
End MetricFacts.

(** X24. The variety vector is read exactly by the sample methods that ask
    the generator for it: when the request does not ask for it, the metric
    does not depend on it (so the unbound name is never read); when the
    request asks for it and none is there, no metric is computed. *)
Theorem variety_vector_read_iff_requested
    {T : Type} (ops : tensor_ops T) (sm : sample_method)
    (batch_size_replay curated_multiplier : nat)
    (allowed_classes : option (list nat)) (allowed_domains : list nat)
    (sampleProbs : list T) (scores_old scores_new : matrix T)
    (loss_old : list T) (y_used : list nat) (variety_weight mir_coef : T) :
  let requested :=
    ReplaySampler.req_varietyVector
      (ReplaySampler.request sm batch_size_replay curated_multiplier
         allowed_classes allowed_domains sampleProbs) in
  (requested = false →
   ∀ varietyVector,
     Curation.compute_metric ops sm scores_old scores_new loss_old y_used
       varietyVector variety_weight mir_coef
     = Curation.compute_metric ops sm scores_old scores_new loss_old y_used
         None variety_weight mir_coef)
  ∧ (requested = true →
     is_ok (Curation.compute_metric ops sm scores_old scores_new loss_old
              y_used None variety_weight mir_coef) = false).
Proof.
  intros requested. subst requested. split.
  - destruct sm; simpl; intros Hreq vv; done.
  - destruct sm; simpl; intros Hreq; try discriminate Hreq.
    + destruct (Curation.cross_entropy ops scores_new y_used); simpl; [|done].
      by destruct (ew _ _ _).
    + destruct (Curation.cross_entropy ops scores_new y_used); simpl; [|done].
      by destruct (ew _ _ _).
    + destruct (Curation.pad_scores ops scores_old scores_new); simpl; [|done].
      by destruct (Curation.kl_div_mean _ _ _).
Qed.

Lemma variety_vector_read_iff_requested_witness :
  (∀ varietyVector,
     Curation.compute_metric RealOps.real_ops sm_misclassified
       (Matrix 1 [[1%R]]) (Matrix 2 [[1%R; 2%R]]) [0%R] [0] varietyVector 0%R 0%R
     = Curation.compute_metric RealOps.real_ops sm_misclassified
         (Matrix 1 [[1%R]]) (Matrix 2 [[1%R; 2%R]]) [0%R] [0] None 0%R 0%R)
  ∧ is_ok (Curation.compute_metric RealOps.real_ops sm_interfered
             (Matrix 1 [[1%R]]) (Matrix 2 [[1%R; 2%R]]) [0%R] [0] None 0%R 0%R)
    = false.
Proof.
  split.
  - apply (variety_vector_read_iff_requested RealOps.real_ops sm_misclassified
             1 1 None [] []). reflexivity.
  - apply (variety_vector_read_iff_requested RealOps.real_ops sm_interfered
             1 1 None [] []). reflexivity.
Defined.



(** ** Synaptic intelligence: the state a task starts with *)

Section ImportanceInit.
Import SI.
Context {T : Type}.
Variable ar : arith T.

Lemma init_fold_dom (l : list (string * @param T)) (st : @si_state T) :
  dom (W st) = dom (p_old st) →
  dom (W (foldl (init_step ar) st l)) = dom (p_old (foldl (init_step ar) st l)).
Proof.
  revert st. induction l as [|np l IH]; intros st Hst; [done|].
  simpl. apply IH. unfold init_step.
  destruct (requires_grad np.2); [|done]. simpl.
  by rewrite !dom_insert_L, Hst.
Qed.

Lemma init_fold_frame (l : list (string * @param T)) (st : @si_state T) key :
  key ∉ key_of <$> filter trainable l →
  W (foldl (init_step ar) st l) !! key = W st !! key
  ∧ p_old (foldl (init_step ar) st l) !! key = p_old st !! key.
Proof.
  revert st. induction l as [|np l IH]; intros st Hkey; [done|].
  simpl. destruct (decide (trainable np)) as [Hg|Hg].
  - rewrite filter_cons_True, fmap_cons in Hkey by done.
    apply not_elem_of_cons in Hkey as [Hne Hkey].
    destruct (IH (init_step ar st np) Hkey) as [-> ->].
    unfold init_step. rewrite Hg. simpl.
    rewrite !lookup_insert_ne; [done|by intros <-..].
  - rewrite filter_cons_False in Hkey by done.
    destruct (IH (init_step ar st np) Hkey) as [-> ->].
    unfold init_step. unfold trainable in Hg.
    by destruct (requires_grad np.2).
Qed.

Lemma init_fold_snapshot (l : list (string * @param T)) (st : @si_state T) np :
  NoDup (key_of <$> filter trainable l) →
  np ∈ l → trainable np →
  W (foldl (init_step ar) st l) !! key_of np = Some (zero_ ar (data np.2))
  ∧ p_old (foldl (init_step ar) st l) !! key_of np = Some (data np.2).
Proof.
  revert st. induction l as [|np' l IH]; intros st Hnd Hin Hg.
  - by apply elem_of_nil in Hin.
  - simpl. destruct (decide (trainable np')) as [Hg'|Hg'].
    + rewrite filter_cons_True, fmap_cons in Hnd by done.
      apply NoDup_cons in Hnd as [Hfresh Hnd].
      destruct (decide (key_of np = key_of np')) as [Hkey|Hkey].
      * apply elem_of_cons in Hin as [->|Hin].
        -- destruct (init_fold_frame l (init_step ar st np') (key_of np') Hfresh)
             as [-> ->].
           unfold init_step. rewrite Hg'. simpl.
           by rewrite !lookup_insert_eq.
        -- exfalso. apply Hfresh. rewrite <- Hkey.
           apply list_elem_of_fmap. exists np. split; [done|].
           by apply list_elem_of_filter.
      * apply elem_of_cons in Hin as [->|Hin]; [done|]. by apply IH.
    + rewrite filter_cons_False in Hnd by done.
      apply elem_of_cons in Hin as [->|Hin]; [done|]. by apply IH.
Qed.
End ImportanceInit.

(** X26. When a task starts, [W] and [p_old] have the same keys; and when
    the trainable parameters have distinct keys, [p_old[n]] is the current
    value of parameter [n] and [W[n]] is a tensor of zeros of the same
    length. *)
Theorem si_init_snapshot
    {T : Type} (ar : arith T) (m : @SI.model T) :
  NoDup (SI.key_of <$> filter SI.trainable (SI.named_parameters m)) →
  dom (SI.W (SI.si_init ar m)) = dom (SI.p_old (SI.si_init ar m))
  ∧ ∀ np, np ∈ SI.named_parameters m → SI.trainable np →
      SI.p_old (SI.si_init ar m) !! SI.key_of np = Some (SI.data np.2)
      ∧ ∃ w, SI.W (SI.si_init ar m) !! SI.key_of np = Some w
           ∧ length w = length (SI.data np.2)
           ∧ SI.all_zero ar w.
Proof.
  intros Hnd. unfold SI.si_init. split.
  - apply init_fold_dom. done.
  - intros np Hin Hg.
    destruct (init_fold_snapshot ar _ (SI.SIState ∅ ∅) np Hnd Hin Hg) as [HW Hp].
    split; [exact Hp|]. eexists. split; [exact HW|].
    split; [unfold SI.zero_; apply length_fmap|apply zero__all_zero].
Qed.

Lemma si_init_snapshot_witness :
  SI.p_old (SI.si_init Z_arith SIExample.before) !! "convE__conv__weight"
  = Some [1; 2]%Z.
Proof.
  destruct (si_init_snapshot Z_arith SIExample.before) as [_ Hsnap].
  - apply (bool_decide_unpack _). vm_compute. exact I.
  - destruct (Hsnap ("convE.conv.weight", SI.Param true [1; 2]%Z None)) as [Hp _].
    + vm_compute. left.
    + reflexivity.
    + exact Hp.
Defined.
